(** * Type-erased dataflow analysis: the fixpoint engine

    A shallow embedding of [TypeErasedDataflowAnalysis.cpp]
    (namespace [clang::dataflow]) and the properties of its worklist
    driver, its predecessor join and its per-block transfer.

    Conventions of the embedding.
    - A [const CFGBlock *] is a key ([BlockPtr]); the CFG dereferences it
      with [getBlock].  A null pointer is [None].
    - A [const Stmt *] is a key ([Stmt]); [getStmtToBlock] is the
      [DenseMap] from statements to their containing block.
    - The vector of per-block states is a [list] indexed by block
      identifier; indexing outside it is undefined in the source and is a
      contract violation here.
    - A failed [assert], a null dereference and an out-of-range index are
      all contract violations: the computation yields [None].
    - The lattice, the environment, the built-in transfer and the worklist
      come from other translation units; they are parameters. *)

From Stdlib Require Import ZArith Permutation.
From stdpp Require Import base option list gmap strings.

Local Open Scope Z_scope.
Local Open Scope nat_scope.

(** ** The control-flow graph, as this file reads it *)

Abbreviation BlockPtr := nat (only parsing).
Abbreviation Stmt := nat (only parsing).

Record FieldDecl := mkFieldDecl {
  getFieldIndex : nat;
  isReferenceType : bool            (* Member->getType()->isReferenceType() *)
}.

Record CXXCtorInitializer := mkCtorInit {
  getInit : option Stmt;            (* may be null *)
  getMember : option FieldDecl      (* may be null *)
}.

Record CFGStmt := mkCFGStmt { getStmt : option Stmt }.

Record CFGInitializer := mkCFGInitializer {
  getInitializer : option CXXCtorInitializer
}.

(** The element kinds that [transferBlock] does not look at. *)
Inductive OtherKind :=
| ScopeBegin | ScopeEnd | NewAllocator | LifetimeEnds | LoopExit
| Constructor | CXXRecordTypedCall
| AutomaticObjectDtor | DeleteDtor | BaseDtor | MemberDtor | TemporaryDtor.

Inductive CFGElement :=
| Statement (CfgStmt : CFGStmt)
| Initializer (CfgInit : CFGInitializer)
| OtherElement (K : OtherKind).

Inductive TerminatorKind := StmtBranch | TemporaryDtorsBranch | VirtualBaseBranch.

Record CFGTerminator := mkTerminator {
  getTermStmt : option Stmt;
  getTermKind : TerminatorKind
}.

Definition isTemporaryDtorsBranch (T : CFGTerminator) : bool :=
  match getTermKind T with TemporaryDtorsBranch => true | _ => false end.

(** An edge is kept as its reachable block ([AdjacentBlock] converts to
    [getReachableBlock()]), which is null for an unreachable edge. *)
Record CFGBlock := mkBlock {
  getBlockID : nat;
  Elements : list CFGElement;       (* in iteration order *)
  preds : list (option BlockPtr);
  succs : list (option BlockPtr);
  hasNoReturnElement : bool;
  getTerminator : CFGTerminator
}.

Definition getTerminatorStmt (B : CFGBlock) : option Stmt :=
  getTermStmt (getTerminator B).

Record CFG := mkCFG {
  size : nat;                       (* the number of block identifiers *)
  getEntry : BlockPtr;
  getBlock : BlockPtr -> CFGBlock   (* dereference *)
}.

Record ControlFlowContext := mkCFCtx {
  getCFG : CFG;
  getStmtToBlock : gmap nat nat     (* Stmt -> BlockPtr *)
}.

(** ** [llvm::DenseSet<const CFGBlock *>]

    The set is kept as a duplicate-free list.  The order in which a
    [DenseSet] hands out its members depends on hashing of addresses; it
    is a parameter, of which only that it enumerates the members is
    known. *)
Record DenseSetOrder := mkDenseSetOrder {
  iterate : list (option BlockPtr) -> list (option BlockPtr);
  iterate_perm : forall l, iterate l ≡ₚ l
}.

Definition DenseSet_insert_range (l : list (option BlockPtr)) : list (option BlockPtr) :=
  remove_dups l.

Definition DenseSet_erase (P : BlockPtr) (s : list (option BlockPtr)) : list (option BlockPtr) :=
  filter (λ x, x ≠ Some P) s.

(** ** [llvm::Expected] and the error of the driver *)

Inductive errc := timed_out.

Record StringError := mkStringError { getErrc : errc; getMessage : string }.

Definition createStringError (EC : errc) (Msg : string) : StringError :=
  mkStringError EC Msg.

Inductive Expected (A : Type) :=
| Success (a : A)
| Failure (E : StringError).
Arguments Success {A} a.
Arguments Failure {A} E.

Inductive SkipPast := SkipPast_None | SkipPast_Reference | SkipPast_ReferenceThenPointer.

Section Engine.

Context {TypeErasedLattice Environment StorageLocation Value : Type}.

Record TypeErasedDataflowAnalysisState := mkState {
  Lattice : TypeErasedLattice;
  Env : Environment
}.

(** The analysis plugin.  Its methods are taken as functions of their
    arguments; a method that mutates its reference arguments returns
    their new values. *)
Record TypeErasedDataflowAnalysis := mkAnalysis {
  typeErasedInitialElement : TypeErasedLattice;
  joinTypeErased : TypeErasedLattice -> TypeErasedLattice -> TypeErasedLattice;
  isEqualTypeErased : TypeErasedLattice -> TypeErasedLattice -> bool;
  transferTypeErased :
    Stmt -> TypeErasedLattice -> Environment -> TypeErasedLattice * Environment;
  applyBuiltinTransfer : bool
}.

(** What this file calls on an [Environment], on storage locations and on
    values.  Getters answer [None] for a null pointer; [getChild] answers
    [None] where its own assert fails.  [takeOwnership] hands back a
    reference to the value it was given, so only its effect on the
    environment is kept. *)
Record EnvironmentOps := mkEnvOps {
  Env_join : Environment -> Environment -> TypeErasedDataflowAnalysis -> Environment;
  Env_equivalentTo : Environment -> Environment -> TypeErasedDataflowAnalysis -> bool;
  getThisPointeeStorageLocation : Environment -> option StorageLocation;
  getStorageLocation : Environment -> Stmt -> SkipPast -> option StorageLocation;
  getValue : Environment -> StorageLocation -> option Value;
  setValue : Environment -> StorageLocation -> Value -> Environment;
  takeOwnership : Environment -> Value -> Environment;
  isAggregateStorageLocation : StorageLocation -> bool;
  getChild : StorageLocation -> FieldDecl -> option StorageLocation;
  ReferenceValue : StorageLocation -> Value
}.

Abbreviation State := TypeErasedDataflowAnalysisState.
Abbreviation Store := (list (option TypeErasedDataflowAnalysisState)).

Variable EnvOps : EnvironmentOps.
Variable SetOrder : DenseSetOrder.

(** ** [StmtToEnvMapImpl::getEnvironment] *)
Definition getEnvironment (CFCtx : ControlFlowContext) (BlockToState : Store)
    (S : Stmt) : option Environment :=
  BlockIT ← getStmtToBlock CFCtx !! S;           (* assert(BlockIT != end()) *)
  Slot ← BlockToState !! getBlockID (getBlock (getCFG CFCtx) BlockIT);
  State ← Slot;                                  (* assert(State.hasValue()) *)
  Some (Env State).

(** ** [computeBlockInputState] *)

(** Lines 70-100: the set of predecessors, after the special case of a
    temporary-destructor terminator. *)
Definition predecessorSet (CFCtx : ControlFlowContext) (Block : CFGBlock)
    : option (list (option BlockPtr)) :=
  let Preds := DenseSet_insert_range (preds Block) in
  if isTemporaryDtorsBranch (getTerminator Block) then
    AdjBlock ← head (succs Block);               (* *Block.succ_begin() *)
    Succ ← AdjBlock;                             (* ->getReachableBlock()-> *)
    if hasNoReturnElement (getBlock (getCFG CFCtx) Succ) then
      TermStmt ← getTerminatorStmt Block;
      StmtBlock ← getStmtToBlock CFCtx !! TermStmt;  (* assert(StmtBlock != end()) *)
      Some (DenseSet_erase StmtBlock Preds)
    else Some Preds
  else Some Preds.

(** Lines 117-122: the body of the join, on the accumulator. *)
Definition joinInto (Analysis : TypeErasedDataflowAnalysis)
    (MaybeState : option State) (PredState : State) : option State :=
  match MaybeState with
  | Some Acc =>
      Some (mkState (joinTypeErased Analysis (Lattice Acc) (Lattice PredState))
                    (Env_join EnvOps (Env Acc) (Env PredState) Analysis))
  | None => Some PredState
  end.

(** Lines 103-123: the loop over the members of [Preds]. *)
Fixpoint joinPredStates (CFCtx : ControlFlowContext) (BlockStates : Store)
    (Analysis : TypeErasedDataflowAnalysis)
    (Preds : list (option BlockPtr)) (MaybeState : option State)
    : option (option State) :=
  match Preds with
  | [] => Some MaybeState
  | Pred :: Rest =>
      match Pred with
      | None => joinPredStates CFCtx BlockStates Analysis Rest MaybeState
      | Some P =>
          let PredBlock := getBlock (getCFG CFCtx) P in
          if hasNoReturnElement PredBlock then
            joinPredStates CFCtx BlockStates Analysis Rest MaybeState
          else
            match BlockStates !! getBlockID PredBlock with
            | None => None                       (* index out of range *)
            | Some None =>
                joinPredStates CFCtx BlockStates Analysis Rest MaybeState
            | Some (Some PredState) =>
                joinPredStates CFCtx BlockStates Analysis Rest
                  (joinInto Analysis MaybeState PredState)
            end
      end
  end.

Definition computeBlockInputState (CFCtx : ControlFlowContext)
    (BlockStates : Store) (Block : CFGBlock) (InitEnv : Environment)
    (Analysis : TypeErasedDataflowAnalysis) : option State :=
  Preds ← predecessorSet CFCtx Block;
  MaybeState ← joinPredStates CFCtx BlockStates Analysis
                 (iterate SetOrder Preds) None;
  match MaybeState with
  | Some St => Some St
  | None => Some (mkState (typeErasedInitialElement Analysis) InitEnv)
  end.

(** ** The memory that a block transfer runs in

    [transferBlock] receives the vector of block states by reference and
    a callback of the caller.  Both are kept in the memory that the
    computation threads: the vector, and the state [Obs] that the
    callback of the caller acts on. *)

Context {Obs : Type}.

Record Mem := mkMem {
  BlockStates : Store;
  CallerState : Obs
}.

(** Computations that read and write [Mem] and may stop at a contract
    violation. *)
Definition M (A : Type) : Type := Mem -> option (A * Mem).

#[global] Instance M_ret : MRet M := λ A a m, Some (a, m).

#[global] Instance M_bind : MBind M := λ A B k c m,
  match c m with
  | Some (a, m') => k a m'
  | None => None
  end.

Definition assertSome {A} (o : option A) : M A :=
  λ m, match o with Some a => Some (a, m) | None => None end.

Definition readBlockStates : M Store := λ m, Some (BlockStates m, m).

Definition callHandler (f : Obs -> Obs) : M unit :=
  λ m, Some (tt, mkMem (BlockStates m) (f (CallerState m))).

(** [std::function<void(const CFGStmt &, const State &)>]; [None] is the
    null function. *)
Definition Handler : Type := option (CFGStmt -> State -> Obs -> Obs).

(** The built-in transfer of [Transfer.h]: it reads the environments of
    other statements through the accessor and rewrites the environment. *)
Variable transfer :
  (Stmt -> option Environment) -> Stmt -> Environment -> option Environment.

(** ** [transferCFGStmt] *)
Definition transferCFGStmt (CFCtx : ControlFlowContext) (CfgStmt : CFGStmt)
    (Analysis : TypeErasedDataflowAnalysis) (St : State)
    (HandleTransferredStmt : Handler) : M State :=
  S ← assertSome (getStmt CfgStmt);                (* assert(S != nullptr) *)
  Env1 ← (if applyBuiltinTransfer Analysis then
            Vec ← readBlockStates;
            assertSome (transfer (getEnvironment CFCtx Vec) S (Env St))
          else mret (Env St));
  let St' := mkState (transferTypeErased Analysis S (Lattice St) Env1).1
                     (transferTypeErased Analysis S (Lattice St) Env1).2 in
  match HandleTransferredStmt with
  | Some Handle => callHandler (Handle CfgStmt St')
  | None => mret tt
  end;;
  mret St'.

(** ** [transferCFGInitializer] *)
Definition transferCFGInitializer (CfgInit : CFGInitializer) (St : State)
    : option State :=
  ThisPointee ← getThisPointeeStorageLocation EnvOps (Env St);
  ThisLoc ← (if isAggregateStorageLocation EnvOps ThisPointee
             then Some ThisPointee else None);       (* cast<> *)
  Initializer ← getInitializer CfgInit;              (* assert(Initializer != nullptr) *)
  InitStmt ← getInit Initializer;                    (* assert(InitStmt != nullptr) *)
  match getStorageLocation EnvOps (Env St) InitStmt SkipPast_Reference with
  | None => Some St
  | Some InitStmtLoc =>
      match getValue EnvOps (Env St) InitStmtLoc with
      | None => Some St
      | Some InitStmtVal =>
          Member ← getMember Initializer;            (* assert(Member != nullptr) *)
          if isReferenceType Member then
            MemberLoc ← getChild EnvOps ThisLoc Member;
            let Ref := ReferenceValue EnvOps InitStmtLoc in
            let Env1 := takeOwnership EnvOps (Env St) Ref in
            Some (mkState (Lattice St) (setValue EnvOps Env1 MemberLoc Ref))
          else
            MemberLoc ← getChild EnvOps ThisLoc Member;
            Some (mkState (Lattice St) (setValue EnvOps (Env St) MemberLoc InitStmtVal))
      end
  end.

(** ** [transferBlock] *)

(** The body of the loop over the elements (the [switch]). *)
Definition transferElement (CFCtx : ControlFlowContext)
    (Analysis : TypeErasedDataflowAnalysis) (HandleTransferredStmt : Handler)
    (Element : CFGElement) (St : State) : M State :=
  match Element with
  | Statement CfgStmt =>
      transferCFGStmt CFCtx CfgStmt Analysis St HandleTransferredStmt
  | Initializer CfgInit =>
      if applyBuiltinTransfer Analysis then
        assertSome (transferCFGInitializer CfgInit St)
      else mret St
  | OtherElement _ => mret St
  end.

Fixpoint transferElements (CFCtx : ControlFlowContext)
    (Analysis : TypeErasedDataflowAnalysis) (HandleTransferredStmt : Handler)
    (Es : list CFGElement) (St : State) : M State :=
  match Es with
  | [] => mret St
  | Element :: Rest =>
      St' ← transferElement CFCtx Analysis HandleTransferredStmt Element St;
      transferElements CFCtx Analysis HandleTransferredStmt Rest St'
  end.

Definition transferBlock (CFCtx : ControlFlowContext) (Block : CFGBlock)
    (InitEnv : Environment) (Analysis : TypeErasedDataflowAnalysis)
    (HandleTransferredStmt : Handler) : M State :=
  Vec ← readBlockStates;
  St ← assertSome (computeBlockInputState CFCtx Vec Block InitEnv Analysis);
  transferElements CFCtx Analysis HandleTransferredStmt (Elements Block) St.

End Engine.

Arguments TypeErasedDataflowAnalysisState : clear implicits.
Arguments TypeErasedDataflowAnalysis : clear implicits.
Arguments EnvironmentOps : clear implicits.
Arguments Mem : clear implicits.
Arguments M : clear implicits.
Arguments Handler : clear implicits.

(** ** The worklist

    [ForwardDataflowWorklist] (with its [PostOrderCFGView]) is declared in
    [DataflowWorklist.h]; the driver uses its constructor and two of its
    methods.  A method that mutates the worklist returns the new one. *)
Record ForwardDataflowWorklistOps (WorklistT : Type) := mkWorklistOps {
  newWorklist : CFG -> WorklistT;
  enqueueSuccessors : WorklistT -> BlockPtr -> WorklistT;
  dequeue : WorklistT -> option BlockPtr * WorklistT    (* null when empty *)
}.
Arguments newWorklist {WorklistT} _ _.
Arguments enqueueSuccessors {WorklistT} _ _ _.
Arguments dequeue {WorklistT} _ _.

(** ** [runTypeErasedDataflowAnalysis] *)

Definition MaxIterations : Z := Z.shiftl 1 16.

(** [++Iterations] on a [uint32_t]. *)
Definition uint32_incr (n : Z) : Z := ((n + 1) mod 2 ^ 32)%Z.

Section Driver.

Context {TypeErasedLattice Environment StorageLocation Value WorklistT : Type}.

Abbreviation State := (TypeErasedDataflowAnalysisState TypeErasedLattice Environment).
Abbreviation Store := (list (option State)).
Abbreviation Analysis_t := (TypeErasedDataflowAnalysis TypeErasedLattice Environment).

Variable EnvOps : EnvironmentOps TypeErasedLattice Environment StorageLocation Value.
Variable SetOrder : DenseSetOrder.
Variable transfer :
  (Stmt -> option Environment) -> Stmt -> Environment -> option Environment.
Variable WorklistOps : ForwardDataflowWorklistOps WorklistT.

(** The variables of the driver that live across iterations.  The driver
    passes no callback, so the memory carries no caller state. *)
Record DriverState := mkDriverState {
  Memory : Mem TypeErasedLattice Environment unit;
  Worklist : WorklistT;
  Iterations : Z
}.

Inductive StepResult :=
| Continue (st : DriverState)          (* the loop goes round again *)
| Return (R : Expected Store)          (* a [return] was executed *)
| Violation.                           (* undefined behaviour or failed assert *)

Inductive Outcome :=
| Returned (R : Expected Store)
| Aborted.

(** Lines 253-256: the test that the state of the block did not change. *)
Definition stateUnchanged (Analysis : Analysis_t)
    (OldBlockState : option State) (NewBlockState : State) : bool :=
  match OldBlockState with
  | Some Old =>
      isEqualTypeErased Analysis (Lattice Old) (Lattice NewBlockState)
      && Env_equivalentTo EnvOps (Env Old) (Env NewBlockState) Analysis
  | None => false
  end.

(** Lines 225-232: what precedes the loop. *)
Definition initialState (CFCtx : ControlFlowContext) (Analysis : Analysis_t)
    (InitEnv : Environment) : option DriverState :=
  let Cfg := getCFG CFCtx in
  let Worklist0 := newWorklist WorklistOps Cfg in
  let Vec : Store := replicate (size Cfg) None in
  let Entry := getBlock Cfg (getEntry Cfg) in
  if decide (getBlockID Entry < length Vec) then
    Some (mkDriverState
            (mkMem (<[getBlockID Entry :=
                        Some (mkState (typeErasedInitialElement Analysis) InitEnv)]> Vec)
                   tt)
            (enqueueSuccessors WorklistOps Worklist0 (getEntry Cfg))
            0%Z)
  else None.

(** Lines 242-269: one evaluation of the loop condition and body. *)
Definition driverStep (CFCtx : ControlFlowContext) (Analysis : Analysis_t)
    (InitEnv : Environment) (st : DriverState) : StepResult :=
  match dequeue WorklistOps (Worklist st) with
  | (None, _) => Return (Success (BlockStates (Memory st)))
  | (Some BlockP, Worklist1) =>
      let Iterations1 := uint32_incr (Iterations st) in
      if (MaxIterations <? Iterations1)%Z then
        Return (Failure (createStringError timed_out
                           "maximum number of iterations reached"))
      else
        let Block := getBlock (getCFG CFCtx) BlockP in
        let ID := getBlockID Block in
        match BlockStates (Memory st) !! ID with
        | None => Violation                       (* reference out of range *)
        | Some _ =>
            match transferBlock EnvOps SetOrder transfer CFCtx Block InitEnv
                    Analysis None (Memory st) with
            | None => Violation
            | Some (NewBlockState, Mem1) =>
                match BlockStates Mem1 !! ID with
                | None => Violation
                | Some OldBlockState =>
                    if stateUnchanged Analysis OldBlockState NewBlockState then
                      Continue (mkDriverState Mem1 Worklist1 Iterations1)
                    else
                      let Mem2 := mkMem (<[ID := Some NewBlockState]> (BlockStates Mem1))
                                        (CallerState Mem1) in
                      if hasNoReturnElement Block then
                        Continue (mkDriverState Mem2 Worklist1 Iterations1)
                      else
                        Continue (mkDriverState Mem2
                                    (enqueueSuccessors WorklistOps Worklist1 BlockP)
                                    Iterations1)
                end
            end
        end
  end.

(** The [while] loop.  [None] only when the fuel runs out. *)
Fixpoint driverLoop (CFCtx : ControlFlowContext) (Analysis : Analysis_t)
    (InitEnv : Environment) (fuel : nat) (st : DriverState) : option Outcome :=
  match fuel with
  | O => None
  | S fuel' =>
      match driverStep CFCtx Analysis InitEnv st with
      | Continue st' => driverLoop CFCtx Analysis InitEnv fuel' st'
      | Return R => Some (Returned R)
      | Violation => Some Aborted
      end
  end.

(** The loop condition is evaluated at most [MaxIterations + 1] times. *)
Definition driverFuel : nat := S (Z.to_nat MaxIterations).

Definition runTypeErasedDataflowAnalysis (CFCtx : ControlFlowContext)
    (Analysis : Analysis_t) (InitEnv : Environment) : option Outcome :=
  match initialState CFCtx Analysis InitEnv with
  | Some st => driverLoop CFCtx Analysis InitEnv driverFuel st
  | None => Some Aborted
  end.

(** The state of the driver after [n] full iterations, if it gets that far. *)
Fixpoint afterIterations (CFCtx : ControlFlowContext) (Analysis : Analysis_t)
    (InitEnv : Environment) (n : nat) (st : DriverState) : option DriverState :=
  match n with
  | O => Some st
  | S n' =>
      match driverStep CFCtx Analysis InitEnv st with
      | Continue st' => afterIterations CFCtx Analysis InitEnv n' st'
      | _ => None
      end
  end.

(** The blocks that the loop dequeues, in order, until it leaves. *)
Fixpoint dequeuedBlocks (CFCtx : ControlFlowContext) (Analysis : Analysis_t)
    (InitEnv : Environment) (fuel : nat) (st : DriverState) : list BlockPtr :=
  match fuel with
  | O => []
  | S fuel' =>
      match (dequeue WorklistOps (Worklist st)).1 with
      | None => []
      | Some BlockP =>
          BlockP ::
          match driverStep CFCtx Analysis InitEnv st with
          | Continue st' => dequeuedBlocks CFCtx Analysis InitEnv fuel' st'
          | _ => []
          end
      end
  end.

End Driver.

(** ** A small analysis, environment, worklist and two graphs

    Concrete instances of the parameters, on which the engine runs. *)

Inductive ExValue := IntVal (n : nat) | RefVal (Loc : nat).

Record ExEnv := mkExEnv {
  ExprToLoc : gmap nat nat;
  LocToVal : gmap nat ExValue;
  ThisPointeeLoc : option nat;
  Owned : list ExValue
}.

#[global] Instance ExValue_eq_dec : EqDecision ExValue.
Proof. solve_decision. Defined.

Abbreviation ExAnalysis_t := (TypeErasedDataflowAnalysis nat ExEnv).

(** Location [0] is the only aggregate; its children are the locations
    [1], [2], ... of its fields. *)
Definition exEnvOps : EnvironmentOps nat ExEnv nat ExValue :=
  mkEnvOps
    (λ (A B : ExEnv) (_ : ExAnalysis_t),
       mkExEnv (ExprToLoc A ∪ ExprToLoc B) (LocToVal A ∪ LocToVal B)
               (ThisPointeeLoc A) (Owned A))
    (λ (A B : ExEnv) (_ : ExAnalysis_t), bool_decide (LocToVal A = LocToVal B))
    ThisPointeeLoc
    (λ E S _, ExprToLoc E !! S)
    (λ E L, LocToVal E !! L)
    (λ E L V, mkExEnv (ExprToLoc E) (<[L := V]> (LocToVal E)) (ThisPointeeLoc E) (Owned E))
    (λ E V, mkExEnv (ExprToLoc E) (LocToVal E) (ThisPointeeLoc E) (V :: Owned E))
    (λ L, bool_decide (L = 0))
    (λ L F, if bool_decide (L = 0) then Some (S (getFieldIndex F)) else None)
    RefVal.

(** The built-in transfer of the examples gives the statement a location
    of its own and an integer value. *)
Definition exTransfer (_ : nat -> option ExEnv) (S : nat) (E : ExEnv) : option ExEnv :=
  Some (mkExEnv (<[S := 100 + S]> (ExprToLoc E)) (<[100 + S := IntVal S]> (LocToVal E))
                (ThisPointeeLoc E) (Owned E)).

Definition exEmptyEnv : ExEnv := mkExEnv ∅ ∅ (Some 0) [].

(** Members are visited in the order of insertion. *)
Definition exSetOrder : DenseSetOrder :=
  mkDenseSetOrder (λ l, l) (λ l, reflexivity l).

(** A counting analysis: the lattice is a number, the join is the
    maximum, a statement adds its key. *)
Definition exCounting : ExAnalysis_t :=
  mkAnalysis 0 Nat.max Nat.eqb (λ S L E, (L + S, E)) true.

(** An analysis that never settles: each statement flips a parity, and
    the join keeps the later argument. *)
Definition exFlipping : ExAnalysis_t :=
  mkAnalysis 0 (λ _ b, b) Nat.eqb (λ _ L E, (1 - L, E)) false.

(** A first-in first-out worklist that does not hold a block twice. *)
Definition exEnqueue (G : CFG) (W : list nat) (B : nat) : list nat :=
  fold_left (λ acc s, match s with
                      | Some p => if bool_decide (p ∈ acc) then acc else acc ++ [p]
                      | None => acc
                      end)
            (succs (getBlock G B)) W.

Definition exWorklistOps : ForwardDataflowWorklistOps (CFG * list nat) :=
  mkWorklistOps (CFG * list nat)
    (λ G, (G, []))
    (λ W B, (W.1, exEnqueue W.1 W.2 B))
    (λ W, match W.2 with
          | [] => (None, W)
          | B :: Rest => (Some B, (W.1, Rest))
          end).

Definition exPlainTerminator : CFGTerminator := mkTerminator None StmtBranch.

Definition exEmptyBlock : CFGBlock := mkBlock 0 [] [] [] false exPlainTerminator.

(** The graph of the comment in [computeBlockInputState], with an entry
    block in front:
    B0 entry; B1 condition; B2 plain branch; B3 branch that builds the
    temporary; B4 temporary-destructor terminator; B5 noreturn
    destructor; B6 what follows; B7 exit.  B4 also has a null edge. *)
Definition exDtorBlocks : list CFGBlock :=
  [ mkBlock 0 [] [] [Some 1] false exPlainTerminator;
    mkBlock 1 [Statement (mkCFGStmt (Some 10))] [Some 0] [Some 2; Some 3] false
            (mkTerminator (Some 10) StmtBranch);
    mkBlock 2 [Statement (mkCFGStmt (Some 20))] [Some 1] [Some 4] false exPlainTerminator;
    mkBlock 3 [Statement (mkCFGStmt (Some 30))] [Some 1] [Some 4] false exPlainTerminator;
    mkBlock 4 [] [Some 2; Some 3; None; Some 2] [Some 5; Some 6] false
            (mkTerminator (Some 30) TemporaryDtorsBranch);
    mkBlock 5 [OtherElement TemporaryDtor] [Some 4] [Some 7] true exPlainTerminator;
    mkBlock 6 [Statement (mkCFGStmt (Some 60));
               Initializer (mkCFGInitializer
                              (Some (mkCtorInit (Some 60) (Some (mkFieldDecl 0 false)))));
               Initializer (mkCFGInitializer
                              (Some (mkCtorInit (Some 60) (Some (mkFieldDecl 1 true)))));
               Initializer (mkCFGInitializer
                              (Some (mkCtorInit (Some 61) (Some (mkFieldDecl 2 false)))))]
            [Some 4] [Some 7] false exPlainTerminator;
    mkBlock 7 [] [Some 6; Some 5] [] false exPlainTerminator ].

Definition exDtorCFG : CFG :=
  mkCFG 8 0 (λ p, nth p exDtorBlocks exEmptyBlock).

Definition exDtorCtx : ControlFlowContext :=
  mkCFCtx exDtorCFG (list_to_map [(10, 1); (20, 2); (30, 3); (60, 6)]).

(** An entry block followed by a block that is its own successor. *)
Definition exLoopBlocks : list CFGBlock :=
  [ mkBlock 0 [] [] [Some 1] false exPlainTerminator;
    mkBlock 1 [Statement (mkCFGStmt (Some 10))] [Some 0; Some 1] [Some 1] false
            exPlainTerminator ].

Definition exLoopCFG : CFG :=
  mkCFG 2 0 (λ p, nth p exLoopBlocks exEmptyBlock).

Definition exLoopCtx : ControlFlowContext :=
  mkCFCtx exLoopCFG (list_to_map [(10, 1)]).

Abbreviation exRun Ctx A :=
  (runTypeErasedDataflowAnalysis exEnvOps exSetOrder exTransfer exWorklistOps
     Ctx A exEmptyEnv).

Abbreviation exInitial Ctx A := (initialState exWorklistOps Ctx A exEmptyEnv).


(** ** The words of the specification, as definitions

    [survives], [contributors], [contributions], [joinStates] and
    [joinAll] are written from the prose of the specification and are
    compared with the functions above in the theorems.
    [terminatorResolves] and [predIDsInRange] spell out what the source
    takes for granted of its input (its asserts and its indexing). *)

Section Wording.

Context {TypeErasedLattice Environment StorageLocation Value : Type}.

Abbreviation State := (TypeErasedDataflowAnalysisState TypeErasedLattice Environment).
Abbreviation Store := (list (option State)).
Abbreviation Analysis_t := (TypeErasedDataflowAnalysis TypeErasedLattice Environment).

Variable EnvOps : EnvironmentOps TypeErasedLattice Environment StorageLocation Value.

(** A predecessor survives when it is not null, is not flagged as having
    a non-returning element, and has a set slot in the store. *)
Definition survives (CFCtx : ControlFlowContext) (BlockStates : Store)
    (Pred : option BlockPtr) : bool :=
  match Pred with
  | None => false
  | Some P =>
      negb (hasNoReturnElement (getBlock (getCFG CFCtx) P))
      && match BlockStates !! getBlockID (getBlock (getCFG CFCtx) P) with
         | Some (Some _) => true
         | _ => false
         end
  end.

(** The exit state that a predecessor has in the store. *)
Definition storedState (CFCtx : ControlFlowContext) (BlockStates : Store)
    (Pred : option BlockPtr) : option State :=
  P ← Pred;
  mjoin (BlockStates !! getBlockID (getBlock (getCFG CFCtx) P)).

(** The surviving predecessors, in the order given, and their states. *)
Definition contributors (CFCtx : ControlFlowContext) (BlockStates : Store)
    (Preds : list (option BlockPtr)) : list (option BlockPtr) :=
  filter (λ P, survives CFCtx BlockStates P) Preds.

Definition contributions (CFCtx : ControlFlowContext) (BlockStates : Store)
    (Preds : list (option BlockPtr)) : list State :=
  omap (storedState CFCtx BlockStates) (contributors CFCtx BlockStates Preds).

(** The join of the plugin on lattices with the join of the environment. *)
Definition joinStates (Analysis : Analysis_t) (Acc PredState : State) : State :=
  mkState (joinTypeErased Analysis (Lattice Acc) (Lattice PredState))
          (Env_join EnvOps (Env Acc) (Env PredState) Analysis).

(** The first state seeds the accumulator, the others are merged into it;
    with no state at all, the initial element and the initial
    environment. *)
Definition joinAll (Analysis : Analysis_t) (InitEnv : Environment)
    (States : list State) : State :=
  match States with
  | [] => mkState (typeErasedInitialElement Analysis) InitEnv
  | First :: Others => fold_left (joinStates Analysis) Others First
  end.

(** The contract of lines 95-98: a block with a temporary-destructor
    terminator has a reachable first successor, and when that successor
    is flagged, the terminator statement has a block. *)
Definition terminatorResolves (CFCtx : ControlFlowContext) (Block : CFGBlock) : bool :=
  if isTemporaryDtorsBranch (getTerminator Block) then
    match head (succs Block) with
    | Some (Some Succ) =>
        if hasNoReturnElement (getBlock (getCFG CFCtx) Succ) then
          match getTerminatorStmt Block with
          | Some TermStmt => bool_decide (is_Some (getStmtToBlock CFCtx !! TermStmt))
          | None => false
          end
        else true
    | _ => false
    end
  else true.

(** The contract of line 111: the identifier of every predecessor whose
    slot is read lies inside a store of [n] slots. *)
Definition predIDsInRange (CFCtx : ControlFlowContext) (n : nat)
    (Preds : list (option BlockPtr)) : bool :=
  forallb (λ Pred, match Pred with
                   | None => true
                   | Some P =>
                       hasNoReturnElement (getBlock (getCFG CFCtx) P)
                       || bool_decide (getBlockID (getBlock (getCFG CFCtx) P) < n)
                   end) Preds.

End Wording.

(** The failure of line 244. *)
Definition timeoutError : StringError :=
  createStringError timed_out "maximum number of iterations reached".

Section CapWording.

Context {TypeErasedLattice Environment StorageLocation Value WorklistT : Type}.

Variable EnvOps : EnvironmentOps TypeErasedLattice Environment StorageLocation Value.
Variable SetOrder : DenseSetOrder.
Variable transfer :
  (Stmt -> option Environment) -> Stmt -> Environment -> option Environment.
Variable WorklistOps : ForwardDataflowWorklistOps WorklistT.

(** The sentence on the iteration cap, as it is worded: when the run
    reports the timeout, the blocks dequeued are as many as the cap. *)
Definition failsAfterCapDequeues (CFCtx : ControlFlowContext)
    (Analysis : TypeErasedDataflowAnalysis TypeErasedLattice Environment)
    (InitEnv : Environment) : Prop :=
  forall st0,
    initialState WorklistOps CFCtx Analysis InitEnv = Some st0 ->
    runTypeErasedDataflowAnalysis EnvOps SetOrder transfer WorklistOps
      CFCtx Analysis InitEnv = Some (Returned (Failure timeoutError)) ->
    Z.of_nat (length (dequeuedBlocks EnvOps SetOrder transfer WorklistOps
                        CFCtx Analysis InitEnv driverFuel st0))
    = MaxIterations.

End CapWording.

(** ** States, stores and steps of the examples *)

Abbreviation ExState := (TypeErasedDataflowAnalysisState nat ExEnv).

Definition exState (n : nat) : ExState := mkState n exEmptyEnv.

(** The graph with the destructor, when B0 to B3 have been evaluated. *)
Definition exDtorStore : list (option ExState) :=
  [Some (exState 0); Some (exState 10); Some (exState 30); Some (exState 40);
   None; None; None; None].

Definition exLoopStore : list (option ExState) :=
  [Some (exState 3); Some (exState 5)].

(** The environment once the built-in transfer has seen statement 60. *)
Definition exEnv60 : ExEnv :=
  mkExEnv (<[60 := 160]> ∅) (<[160 := IntVal 60]> ∅) (Some 0) [].

Definition exInitPlain : CFGInitializer :=
  mkCFGInitializer (Some (mkCtorInit (Some 60) (Some (mkFieldDecl 0 false)))).

Definition exInitRef : CFGInitializer :=
  mkCFGInitializer (Some (mkCtorInit (Some 60) (Some (mkFieldDecl 1 true)))).

Definition exInitUnresolved : CFGInitializer :=
  mkCFGInitializer (Some (mkCtorInit (Some 61) (Some (mkFieldDecl 2 false)))).

(** A callback that keeps a log of what it is called with. *)
Definition exLog : Handler nat ExEnv (list (CFGStmt * ExState)) :=
  Some (λ CfgStmt St Log, Log ++ [(CfgStmt, St)]).

Abbreviation exStep Ctx A :=
  (driverStep exEnvOps exSetOrder exTransfer exWorklistOps Ctx A exEmptyEnv).

Definition exDtorInit : @DriverState nat ExEnv (CFG * list nat) :=
  match exInitial exDtorCtx exCounting with
  | Some st => st
  | None => mkDriverState (mkMem [] tt) (exDtorCFG, []) 0%Z
  end.

Definition exDtorNext : @DriverState nat ExEnv (CFG * list nat) :=
  match exStep exDtorCtx exCounting exDtorInit with
  | Continue st => st
  | _ => exDtorInit
  end.

Definition exLoopInit : @DriverState nat ExEnv (CFG * list nat) :=
  match exInitial exLoopCtx exFlipping with
  | Some st => st
  | None => mkDriverState (mkMem [] tt) (exLoopCFG, []) 0%Z
  end.

(** The lattice elements of the store that a run returns. *)
Definition exLattices (o : option (@Outcome nat ExEnv)) : list (option nat) :=
  match o with
  | Some (Returned (Success Vec)) => map (option_map Lattice) Vec
  | _ => []
  end.

(** ** More definitions for the properties of the engine *)

(** The statement elements of a block, in order. *)
Definition statementsOf (Es : list CFGElement) : list CFGStmt :=
  omap (λ Element, match Element with
                   | Statement CfgStmt => Some CfgStmt
                   | _ => None
                   end) Es.

Definition isStatement (Element : CFGElement) : bool :=
  match Element with Statement _ => true | _ => false end.

(** An environment with nothing in it, a maximum analysis on top of it,
    and a set order that hands the members out backwards. *)
Definition exUnitEnvOps : EnvironmentOps nat unit nat nat :=
  mkEnvOps (λ _ _ _, tt) (λ _ _ _, true) (λ _, Some 0) (λ _ _ _, None)
           (λ _ _, None) (λ E _ _, E) (λ E _, E) (λ _, true) (λ _ _, None) (λ L, L).

Definition exMax : TypeErasedDataflowAnalysis nat unit :=
  mkAnalysis 0 Nat.max Nat.eqb (λ S L E, (L + S, E)) false.

Definition exReverseOrder : DenseSetOrder :=
  mkDenseSetOrder (@rev (option nat)) (λ l, Permutation_sym (Permutation_rev l)).

Definition exUnitStore : list (option (TypeErasedDataflowAnalysisState nat unit)) :=
  [Some (mkState 3 tt); Some (mkState 5 tt)].

(** The store that the counting analysis ends with on the graph with the
    destructor, and a view of the example worklist as a set of pending
    blocks. *)
Definition exDtorResult : list (option ExState) :=
  match exRun exDtorCtx exCounting with
  | Some (Returned (Success Vec)) => Vec
  | _ => []
  end.

Definition exValid (B : nat) : Prop := B < 8.

Definition exGood (W : CFG * list nat) : Prop := W.1 = exDtorCFG.

Definition exPending (W : CFG * list nat) (B : nat) : Prop := B ∈ W.2.

(** ** What convergence is stated with *)

Section ConvergenceWording.

Context {TypeErasedLattice Environment StorageLocation Value WorklistT : Type}.

Variable EnvOps : EnvironmentOps TypeErasedLattice Environment StorageLocation Value.
Variable SetOrder : DenseSetOrder.
Variable transfer :
  (Stmt -> option Environment) -> Stmt -> Environment -> option Environment.
Variable WorklistOps : ForwardDataflowWorklistOps WorklistT.

(** The state that the driver computes for a block over a store: lines
    250-251 on the memory that holds this store. *)
Definition candidateState (CFCtx : ControlFlowContext)
    (Analysis : TypeErasedDataflowAnalysis TypeErasedLattice Environment)
    (InitEnv : Environment)
    (Vec : list (option (TypeErasedDataflowAnalysisState TypeErasedLattice Environment)))
    (BlockP : BlockPtr)
    : option (TypeErasedDataflowAnalysisState TypeErasedLattice Environment) :=
  fst <$> transferBlock EnvOps SetOrder transfer CFCtx
            (getBlock (getCFG CFCtx) BlockP) InitEnv Analysis None (mkMem Vec tt).

(** A graph whose blocks (the pointers in [valid]) have identifiers of
    their own below the number of blocks, and whose predecessor and
    successor edges mirror each other. *)
Record GraphWellFormed (CFCtx : ControlFlowContext) (valid : BlockPtr -> Prop) : Prop := {
  valid_entry : valid (getEntry (getCFG CFCtx));
  valid_succ : forall B C,
    valid B -> Some C ∈ succs (getBlock (getCFG CFCtx) B) -> valid C;
  valid_pred : forall C P,
    valid C -> Some P ∈ preds (getBlock (getCFG CFCtx) C) -> valid P;
  pred_is_succ : forall C P,
    valid C -> Some P ∈ preds (getBlock (getCFG CFCtx) C) ->
    Some C ∈ succs (getBlock (getCFG CFCtx) P);
  blockID_inj : forall B C,
    valid B -> valid C ->
    getBlockID (getBlock (getCFG CFCtx) B) = getBlockID (getBlock (getCFG CFCtx) C) ->
    B = C;
  blockID_lt : forall B,
    valid B -> getBlockID (getBlock (getCFG CFCtx) B) < size (getCFG CFCtx)
}.

(** What the driver needs of a worklist: on the worklists it can hold
    ([good]), a block is [pending] from the moment it is enqueued as a
    successor until it is dequeued, and only then. *)
Record WorklistLaws (CFCtx : ControlFlowContext)
    (good : WorklistT -> Prop) (pending : WorklistT -> BlockPtr -> Prop) : Prop := {
  good_new : good (newWorklist WorklistOps (getCFG CFCtx));
  good_enqueue : forall W B, good W -> good (enqueueSuccessors WorklistOps W B);
  good_dequeue : forall W W' o, good W -> dequeue WorklistOps W = (o, W') -> good W';
  pending_new : forall B, ~ pending (newWorklist WorklistOps (getCFG CFCtx)) B;
  pending_dequeue_None : forall W W' B,
    good W -> dequeue WorklistOps W = (None, W') -> ~ pending W B;
  pending_dequeue_Some : forall W W' B,
    good W -> dequeue WorklistOps W = (Some B, W') -> pending W B;
  pending_dequeue_keeps : forall W W' B C,
    good W -> dequeue WorklistOps W = (Some B, W') ->
    pending W C -> C <> B -> pending W' C;
  pending_dequeue_only : forall W W' B C,
    good W -> dequeue WorklistOps W = (Some B, W') -> pending W' C -> pending W C;
  pending_enqueue_keeps : forall W B C,
    good W -> pending W C -> pending (enqueueSuccessors WorklistOps W B) C;
  pending_enqueue_adds : forall W B C,
    good W -> Some C ∈ succs (getBlock (getCFG CFCtx) B) ->
    pending (enqueueSuccessors WorklistOps W B) C;
  pending_enqueue_only : forall W B C,
    good W -> pending (enqueueSuccessors WorklistOps W B) C ->
    pending W C \/ Some C ∈ succs (getBlock (getCFG CFCtx) B)
}.

(** A block is settled over a store when its slot holds a state that the
    plugin finds equal to what the driver computes for the block. *)
Definition settled (CFCtx : ControlFlowContext)
    (Analysis : TypeErasedDataflowAnalysis TypeErasedLattice Environment)
    (InitEnv : Environment)
    (Vec : list (option (TypeErasedDataflowAnalysisState TypeErasedLattice Environment)))
    (C : BlockPtr) : Prop :=
  exists Stored New,
    Vec !! getBlockID (getBlock (getCFG CFCtx) C) = Some (Some Stored)
    /\ candidateState CFCtx Analysis InitEnv Vec C = Some New
    /\ isEqualTypeErased Analysis (Lattice Stored) (Lattice New) = true
    /\ Env_equivalentTo EnvOps (Env Stored) (Env New) Analysis = true.

(** A block is out of reach over a store when its slot is unset and so
    is the slot of each of its predecessors that is not flagged. *)
Definition outOfReach (CFCtx : ControlFlowContext)
    (Vec : list (option (TypeErasedDataflowAnalysisState TypeErasedLattice Environment)))
    (C : BlockPtr) : Prop :=
  Vec !! getBlockID (getBlock (getCFG CFCtx) C) = Some None
  /\ forall P, Some P ∈ preds (getBlock (getCFG CFCtx) C) ->
       hasNoReturnElement (getBlock (getCFG CFCtx) P) = true
       \/ Vec !! getBlockID (getBlock (getCFG CFCtx) P) = Some None.

(** The invariant of the loop: every block of the graph but the entry is
    pending, settled or out of reach. *)
Definition accounted (CFCtx : ControlFlowContext)
    (Analysis : TypeErasedDataflowAnalysis TypeErasedLattice Environment)
    (InitEnv : Environment)
    (valid : BlockPtr -> Prop) (good : WorklistT -> Prop)
    (pending : WorklistT -> BlockPtr -> Prop)
    (st : @DriverState TypeErasedLattice Environment WorklistT) : Prop :=
  good (Worklist st)
  /\ length (BlockStates (Memory st)) = size (getCFG CFCtx)
  /\ (forall B, pending (Worklist st) B -> valid B)
  /\ (forall C, valid C -> C <> getEntry (getCFG CFCtx) ->
        pending (Worklist st) C
        \/ settled CFCtx Analysis InitEnv (BlockStates (Memory st)) C
        \/ outOfReach CFCtx (BlockStates (Memory st)) C).

End ConvergenceWording.

(** ** The pruned predecessor, the running state and the blocks reached

    [prunedPredecessor] is lines 72-99 read for the block they erase;
    [isPruned], [joinsSurvivingPredecessors], [elementStep], [blockExit]
    and [reached] are written from the prose of the specification and are
    compared with the functions of the engine in the theorems. *)

(** Lines 72-99: the block that the special case erases from the set of
    predecessors, if it erases one: the block that the statement-to-block
    map gives for the terminator statement, when the terminator is a
    temporary-destructor branch and the first successor is flagged as
    non-returning. *)
Definition prunedPredecessor (CFCtx : ControlFlowContext) (Block : CFGBlock)
    : option BlockPtr :=
  if isTemporaryDtorsBranch (getTerminator Block) then
    match head (succs Block) with
    | Some (Some Succ) =>
        if hasNoReturnElement (getBlock (getCFG CFCtx) Succ) then
          TermStmt ← getTerminatorStmt Block;
          getStmtToBlock CFCtx !! TermStmt
        else None
    | _ => None
    end
  else None.

(** A predecessor is pruned when it is that block. *)
Definition isPruned (CFCtx : ControlFlowContext) (Block : CFGBlock)
    (Pred : option BlockPtr) : bool :=
  match Pred, prunedPredecessor CFCtx Block with
  | Some P, Some StmtBlock => bool_decide (P = StmtBlock)
  | _, _ => false
  end.

Section JoinWording.

Context {TypeErasedLattice Environment StorageLocation Value : Type}.

Variable EnvOps : EnvironmentOps TypeErasedLattice Environment StorageLocation Value.
Variable SetOrder : DenseSetOrder.

(** The sentence on the join, as it is worded: the predecessors that
    contribute are those that are not null, are not flagged and have a set
    slot, so that the input state is the join of the states that these
    have in the store. *)
Definition joinsSurvivingPredecessors (CFCtx : ControlFlowContext)
    (BlockStates : list (option (TypeErasedDataflowAnalysisState TypeErasedLattice Environment)))
    (Block : CFGBlock) (InitEnv : Environment)
    (Analysis : TypeErasedDataflowAnalysis TypeErasedLattice Environment) : Prop :=
  computeBlockInputState EnvOps SetOrder CFCtx BlockStates Block InitEnv Analysis
  = Some (joinAll EnvOps Analysis InitEnv
            (contributions CFCtx BlockStates
               (iterate SetOrder (DenseSet_insert_range (preds Block))))).

End JoinWording.

Section TransferWording.

Context {TypeErasedLattice Environment StorageLocation Value Obs : Type}.

Variable EnvOps : EnvironmentOps TypeErasedLattice Environment StorageLocation Value.
Variable SetOrder : DenseSetOrder.
Variable transfer :
  (Stmt -> option Environment) -> Stmt -> Environment -> option Environment.

(** What a computation of the engine leaves, from a running state and
    what the callback has recorded: the store is the one it started on. *)
Definition withStore
    (Vec : list (option (TypeErasedDataflowAnalysisState TypeErasedLattice Environment)))
    (Running : option (TypeErasedDataflowAnalysisState TypeErasedLattice Environment * Obs))
    : option (TypeErasedDataflowAnalysisState TypeErasedLattice Environment
              * Mem TypeErasedLattice Environment Obs) :=
  match Running with
  | Some (St, Caller) => Some (St, mkMem Vec Caller)
  | None => None
  end.

(** One element on the running state and on what the callback has
    recorded: on a statement the built-in transfer when the flag of the
    plugin is set, then the transfer of the plugin, then the callback on
    the statement and the state that results; an initializer under the
    flag only; nothing on any other element. *)
Definition elementStep (CFCtx : ControlFlowContext)
    (Analysis : TypeErasedDataflowAnalysis TypeErasedLattice Environment)
    (HandleTransferredStmt : Handler TypeErasedLattice Environment Obs)
    (Vec : list (option (TypeErasedDataflowAnalysisState TypeErasedLattice Environment)))
    (Running : option (TypeErasedDataflowAnalysisState TypeErasedLattice Environment * Obs))
    (Element : CFGElement)
    : option (TypeErasedDataflowAnalysisState TypeErasedLattice Environment * Obs) :=
  match Running with
  | None => None
  | Some (St, Caller) =>
      match Element with
      | Statement CfgStmt =>
          S ← getStmt CfgStmt;
          Env1 ← (if applyBuiltinTransfer Analysis
                  then transfer (getEnvironment CFCtx Vec) S (Env St)
                  else Some (Env St));
          let Result := transferTypeErased Analysis S (Lattice St) Env1 in
          let St' := mkState Result.1 Result.2 in
          Some (St', match HandleTransferredStmt with
                     | Some Handle => Handle CfgStmt St' Caller
                     | None => Caller
                     end)
      | Initializer CfgInit =>
          if applyBuiltinTransfer Analysis then
            match transferCFGInitializer EnvOps CfgInit St with
            | Some St' => Some (St', Caller)
            | None => None
            end
          else Some (St, Caller)
      | OtherElement _ => Some (St, Caller)
      end
  end.

(** The exit state of a block: the elements from the first to the last,
    each on the state that the one before left, starting from the input
    state of the block. *)
Definition blockExit (CFCtx : ControlFlowContext) (Block : CFGBlock)
    (InitEnv : Environment)
    (Analysis : TypeErasedDataflowAnalysis TypeErasedLattice Environment)
    (HandleTransferredStmt : Handler TypeErasedLattice Environment Obs)
    (m : Mem TypeErasedLattice Environment Obs)
    : option (TypeErasedDataflowAnalysisState TypeErasedLattice Environment * Obs) :=
  match computeBlockInputState EnvOps SetOrder CFCtx (BlockStates m) Block InitEnv
          Analysis with
  | Some St =>
      fold_left (elementStep CFCtx Analysis HandleTransferredStmt (BlockStates m))
                (Elements Block) (Some (St, CallerState m))
  | None => None
  end.

End TransferWording.

(** A block is reached when it is the entry block or a successor, along
    an edge that is reachable, of a reached block that has no
    non-returning element. *)
Inductive reached (CFCtx : ControlFlowContext) : BlockPtr -> Prop :=
| reached_entry : reached CFCtx (getEntry (getCFG CFCtx))
| reached_succ B C :
    reached CFCtx B ->
    hasNoReturnElement (getBlock (getCFG CFCtx) B) = false ->
    Some C ∈ succs (getBlock (getCFG CFCtx) B) ->
    reached CFCtx C.

Section ReachWording.

Context {TypeErasedLattice Environment WorklistT : Type}.

(** What the loop keeps true of the blocks that are reached, on a
    worklist whose pending blocks are known: the slot of the entry block
    is set; a block is pending, and a slot is set, only for a reached
    block; and each successor of a reached block whose slot is set and
    which has no non-returning element is pending or has a set slot. *)
Definition reachInvariant (CFCtx : ControlFlowContext)
    (good : WorklistT -> Prop) (pending : WorklistT -> BlockPtr -> Prop)
    (st : @DriverState TypeErasedLattice Environment WorklistT) : Prop :=
  let Vec := BlockStates (Memory st) in
  let blockID B := getBlockID (getBlock (getCFG CFCtx) B) in
  good (Worklist st)
  /\ (exists St, Vec !! blockID (getEntry (getCFG CFCtx)) = Some (Some St))
  /\ (forall C, pending (Worklist st) C -> reached CFCtx C)
  /\ (forall ID St, Vec !! ID = Some (Some St) ->
        exists C, reached CFCtx C /\ blockID C = ID)
  /\ (forall B C St,
        reached CFCtx B ->
        hasNoReturnElement (getBlock (getCFG CFCtx) B) = false ->
        Vec !! blockID B = Some (Some St) ->
        Some C ∈ succs (getBlock (getCFG CFCtx) B) ->
        pending (Worklist st) C \/ exists St', Vec !! blockID C = Some (Some St')).

End ReachWording.

(** ** A graph with an unreachable first edge, and a block of several
    elements *)






(** A block after B2 with two statements around a scope marker, and an
    initializer that reads the second statement. *)
Definition exSeqBlock : CFGBlock :=
  mkBlock 6 [Statement (mkCFGStmt (Some 60));
             OtherElement ScopeEnd;
             Statement (mkCFGStmt (Some 61));
             Initializer (mkCFGInitializer
                            (Some (mkCtorInit (Some 61) (Some (mkFieldDecl 2 false)))))]
          [Some 2] [Some 7] false exPlainTerminator.

(** What the callback of the examples has recorded, as statements and
    lattice elements. *)
Definition exLogged (Log : list (CFGStmt * ExState)) : list (option nat * nat) :=
  map (λ Entry, (getStmt Entry.1, Lattice Entry.2)) Log.

(** * The M68k code emitter ([M68kMCCodeEmitter.cpp])

    Unsigned integers of a width are numbers wrapped to that width; a
    shift by the width of the (promoted) operand or more, a failed
    [assert] and an operand index out of range are undefined in the
    source and yield [None] here. *)

Section M68kEmitter.
Local Open Scope Z_scope.

Inductive endianness := big | little.

(** Conversion to an unsigned type of [bits] bits, and to [int]. *)
Definition wrap (bits : Z) (z : Z) : Z := z mod 2 ^ bits.

Definition to_int (z : Z) : Z := (z + 2 ^ 31) mod 2 ^ 32 - 2 ^ 31.

(** [sys::getSwappedBytes] on 2, 4 and 8 bytes. *)
Definition ByteSwap_16 (v : Z) : Z :=
  Z.lor (Z.shiftl (Z.land v 0xFF) 8) (Z.land (Z.shiftr v 8) 0xFF).

Definition ByteSwap_32 (v : Z) : Z :=
  Z.lor (Z.lor (Z.lor (Z.shiftl (Z.land v 0xFF) 24)
                      (Z.shiftl (Z.land (Z.shiftr v 8) 0xFF) 16))
               (Z.shiftl (Z.land (Z.shiftr v 16) 0xFF) 8))
        (Z.land (Z.shiftr v 24) 0xFF).

Definition ByteSwap_64 (v : Z) : Z :=
  Z.lor (Z.shiftl (ByteSwap_32 (Z.land v 0xFFFFFFFF)) 32)
        (ByteSwap_32 (Z.land (Z.shiftr v 32) 0xFFFFFFFF)).

Definition swapByteOrder (bytes : Z) (v : Z) : Z :=
  if bytes =? 2 then ByteSwap_16 v
  else if bytes =? 4 then ByteSwap_32 v
  else if bytes =? 8 then ByteSwap_64 v
  else v.

(** [support::endian::byte_swap(value, endian)] on a host of order
    [host]: the bytes are swapped when the two orders differ. *)
Definition byte_swap (host : endianness) (bytes : Z) (value : Z) (endian : endianness) : Z :=
  match host, endian with
  | big, big | little, little => value
  | _, _ => swapByteOrder bytes value
  end.

(** [x << s] on a non-negative [x] promoted to [int]. *)
Definition int_shl (x s : Z) : option Z :=
  if (s <? 32) && (x * 2 ^ s <? 2 ^ 32) then Some (to_int (x * 2 ^ s)) else None.

(** ** [swapWord<value_t>], with [bytes] for [sizeof(value_t)] *)

(** Lines 118-120: one round of the loop. *)
Definition swapWord_round (host : endianness) (bytes Val : Z)
    (NewVal : option Z) (i : Z) : option Z :=
  NewVal ← NewVal;
  let Part := Z.land (Z.shiftr Val (i * 16)) 0xFFFF in
  let Part := byte_swap host 2 Part big in
  Shifted ← int_shl Part (i * 16);
  Some (Z.lor NewVal (wrap (8 * bytes) Shifted)).

Definition swapWord (host : endianness) (bytes Val : Z) : option Z :=
  let NumWords := bytes / 2 in
  if NumWords <=? 1 then Some Val
  else
    let Val := byte_swap host bytes Val big in
    fold_left (swapWord_round host bytes Val) (seqZ 0 NumWords) (Some 0).

(** ** [getBytePosition<Size>] *)
Definition getBytePosition (Size BitPos : Z) : option Z :=
  if negb (Size mod 16 =? 0) then
    Some (wrap 32 (BitPos / 8 + (if Z.land BitPos 15 <? 8 then 1 else -1)))
  else if Z.land BitPos 15 =? 0 then Some (BitPos / 8)
  else None.                                        (* assert *)

(** ** [EmitConstant] *)

(** [isUIntN] of [MathExtras.h]: the value fits in [N] bits; a width of
    zero fails the [assert] of [maxUIntN]. *)
Definition isUIntN (N x : Z) : bool := (64 <=? N) || ((0 <? N) && (x <? 2 ^ N)).

(** The result is the value returned and the new [Buffer]. *)
Definition EmitConstant (Val Size Pad Buffer Offset : Z) : option (Z * Z) :=
  if (wrap 32 (Size + Offset) <=? 64) && isUIntN Size Val then     (* assert *)
    if (Size <? 64) && (Offset <? 64) then                         (* the shifts *)
      let Mask := wrap 64 (wrap 64 (Z.shiftl 1 Size) - 1) in
      let Buffer := Z.lor Buffer (wrap 64 (Z.shiftl (Z.land Val Mask) Offset)) in
      Some (wrap 32 (Size + Pad), Buffer)
    else None
  else None.

End M68kEmitter.

(** ** Operands, instructions and fixups

    [MCExpr], [MCFixupKind] and [SMLoc] are opaque to the emitter. *)

Section M68kOperands.
Local Open Scope Z_scope.

Context {MCExpr MCFixupKind SMLoc : Type}.

Inductive MCOperand :=
  | RegOperand (RegNum : Z)
  | ImmOperand (Imm : Z)
  | ExprOperand (Expr : MCExpr)
  | OtherOperand.

Definition isImm (MCO : MCOperand) : bool :=
  match MCO with ImmOperand _ => true | _ => false end.

Definition isExpr (MCO : MCOperand) : bool :=
  match MCO with ExprOperand _ => true | _ => false end.

(** The accessors assert the kind of the operand. *)
Definition getReg (MCO : MCOperand) : option Z :=
  match MCO with RegOperand r => Some r | _ => None end.

Definition getImm (MCO : MCOperand) : option Z :=
  match MCO with ImmOperand i => Some i | _ => None end.

Record MCInst := mkMCInst {
  getOpcode : Z;
  Operands : list MCOperand;
  getLoc : SMLoc
}.

Definition getOperand (MI : MCInst) (i : Z) : option MCOperand :=
  Operands MI !! Z.to_nat (wrap 32 i).

Record MCFixup := MCFixup_create {
  FixupOffset : Z;
  FixupValue : MCExpr;
  FixupKind : MCFixupKind;
  FixupLoc : SMLoc
}.

(** An [APInt]: its bit width and its 64-bit words, lowest first. *)
Record APInt := mkAPInt {
  getBitWidth : Z;
  getRawData : list Z
}.

End M68kOperands.

Arguments MCOperand : clear implicits.
Arguments MCInst : clear implicits.
Arguments MCFixup : clear implicits.

(** The bead codes of [M68kBeads] ([M68kBaseInfo.h]). *)
Record M68kBeads := mkBeads {
  Bits1 : Z; Bits2 : Z; Bits3 : Z; Bits4 : Z;
  DAReg : Z; DA : Z; Reg : Z; DReg : Z;
  Disp8 : Z; Imm8 : Z; Imm16 : Z; Imm32 : Z; Imm3 : Z;
  Ignore : Z
}.

(** The case labels of the [switch] statements are pairwise distinct. *)
Definition beadCodes (B : M68kBeads) : list Z :=
  [Bits1 B; Bits2 B; Bits3 B; Bits4 B; DAReg B; DA B; Reg B; DReg B;
   Disp8 B; Imm8 B; Imm16 B; Imm32 B; Imm3 B].

(** What the emitter takes from the target description, the TableGen'erated
    tables and the [MCContext]. *)
Record M68kTarget {MCExpr MCFixupKind SMLoc : Type} := mkTarget {
  getLogicalOperandIdx : Z -> Z -> Z;
  hasMultiMIOperands : Z -> Z -> bool;
  (** [Desc.OpInfo[MIOpIdx].OperandType == MCOI::OPERAND_PCREL] *)
  isPCRelOperand : Z -> Z -> bool;
  PCRelDisp : Z; PCRelIndex : Z;
  MemDisp : Z; MemBase : Z; MemIndex : Z; MemOuter : Z;
  getEncodingValue : Z -> Z;
  isAddressRegister : Z -> bool;
  getFixupForSize : Z -> bool -> MCFixupKind;
  createAdd : MCExpr -> MCExpr -> MCExpr;
  MCConstantExpr_create : Z -> MCExpr;
  evaluateAsAbsolute : MCExpr -> option Z;
  (** the bead array of an opcode, with its terminator; [None] is null *)
  getMCInstrBeads : Z -> option (list Z);
  getBinaryCodeForInstr :
    MCInst MCExpr SMLoc -> list (MCFixup MCExpr MCFixupKind SMLoc) ->
    APInt * list (MCFixup MCExpr MCFixupKind SMLoc);
  (** [APInt::operator|=(uint64_t)] *)
  APInt_or : APInt -> Z -> APInt
}.

Arguments M68kTarget : clear implicits.

Section M68kBeadEmitter.
Local Open Scope Z_scope.

Context {MCExpr MCFixupKind SMLoc : Type}.
Variable Beads : M68kBeads.
Variable T : M68kTarget MCExpr MCFixupKind SMLoc.

Abbreviation Inst := (MCInst MCExpr SMLoc).
Abbreviation Fixup := (MCFixup MCExpr MCFixupKind SMLoc).
Abbreviation Operand := (MCOperand MCExpr).

(** [sizeof(select_uint_t<Size>::type)] *)
Definition select_uint_t (Size : Z) : Z :=
  if Size =? 8 then 1 else if Size =? 16 then 2 else if Size =? 32 then 4 else 8.

(** ** [encodeRelocImm<Size>] and [encodePCRelImm<Size>]

    The result is the new [Value] and the new [Fixups]. *)
Definition encodeRelocImm (host : endianness) (Size : Z) (MI : Inst) (OpIdx InsertPos : Z)
    (Value : APInt) (Fixups : list Fixup) : option (APInt * list Fixup) :=
  let bytes := select_uint_t Size in
  MCO ← getOperand MI OpIdx;
  match MCO with
  | ImmOperand Imm =>
      V ← swapWord host bytes (wrap (8 * bytes) Imm);
      Some (APInt_or T Value V, Fixups)
  | ExprOperand Expr =>
      match evaluateAsAbsolute T Expr with
      | Some Addr =>
          V ← swapWord host bytes (wrap (8 * bytes) Addr);
          Some (APInt_or T Value V, Fixups)
      | None =>
          InsertByte ← getBytePosition Size InsertPos;
          Some (Value,
                Fixups ++ [MCFixup_create InsertByte Expr
                             (getFixupForSize T Size false) (getLoc MI)])
      end
  | _ => Some (Value, Fixups)
  end.

Definition encodePCRelImm (host : endianness) (Size : Z) (MI : Inst) (OpIdx InsertPos : Z)
    (Value : APInt) (Fixups : list Fixup) : option (APInt * list Fixup) :=
  MCO ← getOperand MI OpIdx;
  match MCO with
  | ImmOperand Imm =>
      let bytes := select_uint_t Size in
      V ← swapWord host bytes (wrap (8 * bytes) Imm);
      Some (APInt_or T Value V, Fixups)
  | ExprOperand Expr =>
      InsertByte ← getBytePosition Size InsertPos;
      let Expr :=
        if Size <? 16 then
          let LabelOffset :=
            if InsertPos <? 16 then to_int (wrap 32 (InsertByte - 2))
            else if negb (InsertByte mod 2 =? 0) then 1
            else 0 in
          if negb (LabelOffset =? 0)
          then createAdd T Expr (MCConstantExpr_create T LabelOffset)
          else Expr
        else Expr in
      Some (Value,
            Fixups ++ [MCFixup_create InsertByte Expr
                         (getFixupForSize T Size true) (getLoc MI)])
  | _ => Some (Value, Fixups)
  end.

(** ** [getMachineOpValue]; [None] is also [report_fatal_error] *)
Definition getMachineOpValue (Op : Operand) (Value : APInt) : option APInt :=
  match Op with
  | RegOperand RegNum =>
      let Value := APInt_or T Value (getEncodingValue T RegNum) in
      Some (if isAddressRegister T RegNum then APInt_or T Value 8 else Value)
  | ImmOperand Imm => Some (APInt_or T Value (wrap 64 Imm))
  | ExprOperand Expr =>
      Addr ← evaluateAsAbsolute T Expr;
      Some (APInt_or T Value (wrap 64 Addr))
  | OtherOperand => None
  end.

(** ** The bead encoders: the result is the number of bits written with
    the new [Buffer] and, where fixups are added, the new [Fixups] *)

Definition encodeBits (Bead Buffer Offset : Z) : option (Z * Z) :=
  let Code := Z.land Bead 0xF in
  let Num :=
    if Code =? Bits1 Beads then 1
    else if Code =? Bits2 Beads then 2
    else if Code =? Bits3 Beads then 3
    else if Code =? Bits4 Beads then 4
    else 0 in
  let Val := Z.shiftr (Z.land Bead 0xF0) 4 in
  Shifted ← int_shl Val Offset;
  Some (Num, Z.lor Buffer (wrap 64 Shifted)).

(** The fields of a bead byte: its operand number and its [Alt] bit. *)
Definition beadOp (Bead : Z) : Z := Z.shiftr (Z.land Bead 0x70) 4.

Definition beadAlt (Bead : Z) : bool := negb (Z.land Bead 0x80 =? 0).

(** [x << s] on a [uint32_t] and on a [uint64_t]. *)
Definition shl (bits x s : Z) : option Z :=
  if s <? bits then Some (wrap bits (Z.shiftl x s)) else None.

Definition encodeReg (Bead : Z) (MI : Inst) (Buffer Offset : Z) : option (Z * Z) :=
  let Code := Z.land Bead 0xF in
  flags ←
    (if Code =? DAReg Beads then Some (true, true)
     else if Code =? DA Beads then Some (false, true)
     else if (Code =? DReg Beads) || (Code =? Reg Beads) then Some (true, false)
     else None);
  let Reg_ : bool := fst flags in
  let DA_ : bool := snd flags in
  let Op := beadOp Bead in
  let Alt := beadAlt Bead in
  let MIOpIdx := getLogicalOperandIdx T (getOpcode MI) Op in
  let IsPCRel := isPCRelOperand T (getOpcode MI) MIOpIdx in
  MCO ←
    (if hasMultiMIOperands T (getOpcode MI) Op then
       if IsPCRel then
         if Alt then getOperand MI (MIOpIdx + PCRelIndex T) else None
       else getOperand MI (MIOpIdx + (if Alt then MemIndex T else MemBase T))
     else
       if Alt then None else getOperand MI MIOpIdx);
  RegNum ← getReg MCO;
  st ←
    (if Reg_ then
       let Val := getEncodingValue T RegNum in
       V ← shl 32 (Z.land Val 7) Offset;
       Some (Z.lor Buffer V, wrap 32 (Offset + 3), 3)
     else Some (Buffer, Offset, 0));
  let Buffer : Z := st.1.1 in
  let Offset : Z := st.1.2 in
  let Written : Z := st.2 in
  if DA_ then
    V ← shl 64 (if isAddressRegister T RegNum then 1 else 0) Offset;
    Some (Written + 1, Z.lor Buffer V)
  else Some (Written, Buffer).

(** [isIntN] of [MathExtras.h]; a width of zero fails its [assert]. *)
Definition isIntN (N x : Z) : bool :=
  (64 <=? N) || ((0 <? N) && (- 2 ^ (N - 1) <=? x) && (x <? 2 ^ (N - 1))).

(** The [switch] of lines 372-401: [Size], [Pad], [FixOffset], the
    change of [Addendum] and [NoExpr]. *)
Definition immLayout (Type_ ThisByte : Z) : Z * Z * Z * Z * bool :=
  if Type_ =? Disp8 Beads then (8, 0, wrap 32 (ThisByte + 1), 1, false)
  else if Type_ =? Imm8 Beads then (8, 8, ThisByte, 0, false)
  else if Type_ =? Imm16 Beads then (16, 0, ThisByte, 0, false)
  else if Type_ =? Imm32 Beads then (32, 0, ThisByte, 0, false)
  else if Type_ =? Imm3 Beads then (3, 0, 0, 0, true)
  else (0, 0, 0, 0, false).

(** Lines 407-416 and 439: the operand an immediate bead refers to. *)
Definition immOperand (MI : Inst) (Bead : Z) : option Operand :=
  let Op := beadOp Bead in
  let Alt := beadAlt Bead in
  let MIOpIdx := getLogicalOperandIdx T (getOpcode MI) Op in
  let IsPCRel := isPCRelOperand T (getOpcode MI) MIOpIdx in
  if hasMultiMIOperands T (getOpcode MI) Op then
    if IsPCRel then
      if Alt then None else getOperand MI (MIOpIdx + PCRelDisp T)
    else getOperand MI (MIOpIdx + (if Alt then MemOuter T else MemDisp T))
  else getOperand MI MIOpIdx.

Definition encodeImm (ThisByte Bead : Z) (MI : Inst) (Buffer Offset : Z)
    (Fixups : list Fixup) : option (Z * Z * list Fixup) :=
  let ThisWord := ThisByte / 2 in
  let Type_ := Z.land Bead 0xF in
  let Op := beadOp Bead in
  let Alt := beadAlt Bead in
  let MIOpIdx := getLogicalOperandIdx T (getOpcode MI) Op in
  let IsPCRel := isPCRelOperand T (getOpcode MI) MIOpIdx in
  let Addendum := if IsPCRel && (ThisWord =? 0) then -2 else 0 in
  let '(Size, Pad, FixOffset, Add, NoExpr) := immLayout Type_ ThisByte in
  let Addendum := Addendum + Add in
  let Multi := hasMultiMIOperands T (getOpcode MI) Op in
  MCO ← immOperand MI Bead;
  match MCO with
  | ExprOperand Expr =>
      if NoExpr then None
      else
        let Expr :=
          if (if Multi then IsPCRel else true) && negb (Addendum =? 0)
          then createAdd T Expr (MCConstantExpr_create T Addendum)
          else Expr in
        let Fixups :=
          Fixups ++ [MCFixup_create FixOffset Expr
                       (getFixupForSize T Size IsPCRel) (getLoc MI)] in
        r ← EmitConstant 0 Size Pad Buffer Offset;
        Some (r.1, r.2, Fixups)
  | _ =>
      I ← getImm MCO;
      I ← (if (Type_ =? Imm3 Beads) && Alt then
             if I =? 0 then None else Some (Z.rem I 8)
           else if isIntN Size I then Some I else None);
      let Imm := wrap 64 I in
      if Size =? 32 then
        hi ← EmitConstant (Z.land (Z.shiftr Imm 16) 0xFFFF) 16 Pad Buffer Offset;
        let Offset := wrap 32 (Offset + hi.1) in
        lo ← EmitConstant (Z.land Imm 0xFFFF) 16 Pad hi.2 Offset;
        Some (Size, lo.2, Fixups)
      else if Size <? 64 then
        r ← EmitConstant (Z.land Imm (wrap 64 (Z.shiftl 1 Size) - 1)) Size Pad Buffer Offset;
        Some (r.1, r.2, Fixups)
      else None
  end.

(** ** [encodeInstruction] *)

(** [support::endian::write<uint16_t>(OS, V, support::big)] *)
Definition write16 (OS : list Z) (V : Z) : list Z :=
  let V := wrap 16 V in
  OS ++ [Z.shiftr V 8; Z.land V 0xFF].

(** Lines 500-504: at most four rounds on one word. *)
Fixpoint writeWord (rounds : nat) (Word InstSize : Z) (OS : list Z) : Z * list Z :=
  match rounds with
  | O => (InstSize, OS)
  | S rounds =>
      if 0 <? InstSize
      then writeWord rounds (Z.shiftr Word 16) (InstSize - 16) (write16 OS Word)
      else (InstSize, OS)
  end.

(** Lines 499-505. *)
Fixpoint writeData (Data : list Z) (InstSize : Z) (OS : list Z) : list Z :=
  match Data with
  | [] => OS
  | Word :: Data =>
      let '(InstSize, OS) := writeWord 4 Word InstSize OS in
      writeData Data InstSize OS
  end.

Record EmitState := mkEmit {
  Buffer : Z;
  Offset : Z;
  ThisByte : Z;
  OS : list Z;
  Fixups : list Fixup
}.

(** Lines 556-561; the loop makes [Offset / 16] rounds. *)
Fixpoint rotateWords (rounds : nat) (S : EmitState) : EmitState :=
  match rounds with
  | O => S
  | S rounds =>
      if negb (Offset S / 16 =? 0)
      then rotateWords rounds
             (mkEmit (Z.shiftr (Buffer S) 16) (wrap 32 (Offset S - 16))
                     (wrap 32 (ThisByte S + 2)) (write16 (OS S) (Buffer S)) (Fixups S))
      else S
  end.

Definition flush (S : EmitState) : EmitState :=
  rotateWords (Z.to_nat (Offset S / 16)) S.

(** Lines 519-561: one bead; [None] is [llvm_unreachable] or a failed
    assertion of an encoder. *)
Definition encodeBead (MI : Inst) (Bead : Z) (S : EmitState) : option EmitState :=
  let Code := Z.land Bead 0xF in
  if (Code =? 0) && (Z.shiftr Bead 4 =? Ignore Beads) then Some S
  else
    S ←
      (if (Code =? Bits1 Beads) || (Code =? Bits2 Beads)
          || (Code =? Bits3 Beads) || (Code =? Bits4 Beads) then
         r ← encodeBits Bead (Buffer S) (Offset S);
         Some (mkEmit r.2 (wrap 32 (Offset S + r.1)) (ThisByte S) (OS S) (Fixups S))
       else if (Code =? DAReg Beads) || (Code =? DA Beads)
               || (Code =? DReg Beads) || (Code =? Reg Beads) then
         r ← encodeReg Bead MI (Buffer S) (Offset S);
         Some (mkEmit r.2 (wrap 32 (Offset S + r.1)) (ThisByte S) (OS S) (Fixups S))
       else if (Code =? Disp8 Beads) || (Code =? Imm8 Beads) || (Code =? Imm16 Beads)
               || (Code =? Imm32 Beads) || (Code =? Imm3 Beads) then
         r ← encodeImm (ThisByte S) Bead MI (Buffer S) (Offset S) (Fixups S);
         Some (mkEmit r.1.2 (wrap 32 (Offset S + r.1.1)) (ThisByte S) (OS S) r.2)
       else None);
    Some (flush S).

(** Line 518: the beads are read up to the terminator; reading past the
    end of the array is undefined. *)
Fixpoint encodeBeads (MI : Inst) (Array : list Z) (S : EmitState) : option EmitState :=
  match Array with
  | [] => None
  | Bead :: Array =>
      if Bead =? 0 then Some S
      else S ← encodeBead MI Bead S; encodeBeads MI Array S
  end.

Definition encodeInstruction (MI : Inst) (OS0 : list Z) (Fixups0 : list Fixup)
    : option (list Z * list Fixup) :=
  let '(EncodedInst, Fixups0) := getBinaryCodeForInstr T MI Fixups0 in
  if negb (getBitWidth EncodedInst =? 0) then
    Some (writeData (getRawData EncodedInst) (getBitWidth EncodedInst) OS0, Fixups0)
  else
    Array ← getMCInstrBeads T (getOpcode MI);
    match Array with
    | [] => None
    | Bead :: _ =>
        if Bead =? 0 then None
        else
          S ← encodeBeads MI Array (mkEmit 0 0 0 OS0 Fixups0);
          if (Offset S =? 0) && negb (ThisByte S =? 0) && (ThisByte S mod 2 =? 0)
          then Some (OS S, Fixups S)
          else None
    end.

(** The number of bits a bead contributes to the instruction; a control
    bead contributes none. *)
Definition beadBits (Bead : Z) : Z :=
  let Code := Z.land Bead 0xF in
  if Code =? 0 then 0
  else if Code =? Bits1 Beads then 1
  else if Code =? Bits2 Beads then 2
  else if Code =? Bits3 Beads then 3
  else if Code =? Bits4 Beads then 4
  else if Code =? DAReg Beads then 4
  else if Code =? DA Beads then 1
  else if (Code =? DReg Beads) || (Code =? Reg Beads) then 3
  else if Code =? Disp8 Beads then 8
  else if Code =? Imm8 Beads then 16
  else if Code =? Imm16 Beads then 16
  else if Code =? Imm32 Beads then 32
  else if Code =? Imm3 Beads then 3
  else 0.

(** The beads of an array before its terminator. *)
Fixpoint beadsOf (Array : list Z) : list Z :=
  match Array with
  | [] => []
  | Bead :: Array => if Bead =? 0 then [] else Bead :: beadsOf Array
  end.

Definition instructionBits (Array : list Z) : Z :=
  foldr (fun Bead n => beadBits Bead + n) 0 (beadsOf Array).

End M68kBeadEmitter.

(** The first [n] 16-bit words of [V], lowest word first, each word with
    its high byte first. *)
Fixpoint wordBytes (n : nat) (V : Z) : list Z :=
  match n with
  | O => []
  | S n => (V / 256 mod 256)%Z :: (V mod 256)%Z :: wordBytes n (V / 65536)%Z
  end.

(** The four bytes of a 32-bit value, highest first. *)
Definition bigEndian32 (v : Z) : list Z :=
  [v / 16777216 mod 256; v / 65536 mod 256; v / 256 mod 256; v mod 256]%Z.

(** ** A small target for the examples *)

Inductive ExMCExpr :=
  | ExSymbol (name : nat)
  | ExConstant (c : Z)
  | ExAdd (L R : ExMCExpr).

Definition exBeads : M68kBeads := mkBeads 1 2 3 4 5 6 7 8 9 10 11 12 13 1.

Definition exAPInt_or (V : APInt) (x : Z) : APInt :=
  match getRawData V with
  | [] => V
  | w :: r => mkAPInt (getBitWidth V) (Z.lor w x :: r)
  end.

(** Opcodes 0 and 1 have four beads of four bits followed by a 32-bit
    immediate for operand 0 and by a 16-bit immediate for operand 1; no
    instruction of this target uses the [APInt] path. *)
Definition exTarget : M68kTarget ExMCExpr (Z * bool) unit :=
  mkTarget ExMCExpr (Z * bool) unit
    (fun _ Op => Op) (fun _ _ => false) (fun _ _ => false)
    1%Z 1%Z 1%Z 0%Z 2%Z 3%Z
    (fun RegNum => (RegNum mod 8)%Z) (fun RegNum => (8 <=? RegNum)%Z)
    (fun Size IsPCRel => (Size, IsPCRel))
    ExAdd ExConstant
    (fun e => match e with ExConstant c => Some c | _ => None end)
    (fun Opcode =>
       if (Opcode =? 0)%Z then Some [0xA4; 0xB4; 0xC4; 0xD4; 0x0C; 0]%Z
       else if (Opcode =? 1)%Z then Some [0xA4; 0xB4; 0xC4; 0xD4; 0x1B; 0]%Z
       else None)
    (fun _ Fixups => (mkAPInt 0 [], Fixups))
    exAPInt_or.

Definition exInst : MCInst ExMCExpr unit :=
  mkMCInst 0%Z [ImmOperand 0x12345678%Z; ExprOperand (ExSymbol 0); ImmOperand 8%Z] tt.

Definition exInstReloc : MCInst ExMCExpr unit :=
  mkMCInst 1%Z [ImmOperand 0x12345678%Z; ExprOperand (ExSymbol 0); ImmOperand 8%Z] tt.

Definition exEmit : EmitState (MCExpr:=ExMCExpr) (MCFixupKind:=Z * bool) (SMLoc:=unit) :=
  mkEmit 0xABCD1234%Z 32%Z 2%Z [0x4E; 0x71]%Z [].

Definition exEmitStart : EmitState (MCExpr:=ExMCExpr) (MCFixupKind:=Z * bool) (SMLoc:=unit) :=
  mkEmit 0%Z 0%Z 2%Z [0x4E; 0x71]%Z [].

Definition exEmitEmpty : EmitState (MCExpr:=ExMCExpr) (MCFixupKind:=Z * bool) (SMLoc:=unit) :=
  mkEmit 0%Z 0%Z 0%Z [] [].

(** * Properties *)

Section InputState.

Context {TypeErasedLattice Environment StorageLocation Value : Type}.

Abbreviation State := (TypeErasedDataflowAnalysisState TypeErasedLattice Environment).
Abbreviation Store := (list (option State)).
Abbreviation Analysis_t := (TypeErasedDataflowAnalysis TypeErasedLattice Environment).

Variable EnvOps : EnvironmentOps TypeErasedLattice Environment StorageLocation Value.
Variable SetOrder : DenseSetOrder.

Implicit Types (CFCtx : ControlFlowContext) (BlockStates : Store)
  (Analysis : Analysis_t) (Block : CFGBlock) (InitEnv : Environment)
  (Preds : list (option BlockPtr)).

Lemma predIDsInRange_Forall CFCtx n Preds :
  predIDsInRange CFCtx n Preds = true <->
  Forall (λ Pred, match Pred with
                  | None => True
                  | Some P => hasNoReturnElement (getBlock (getCFG CFCtx) P) = false ->
                              getBlockID (getBlock (getCFG CFCtx) P) < n
                  end) Preds.
Proof.
  unfold predIDsInRange. induction Preds as [|[P|] Rest IH]; simpl.
  - split; [constructor | reflexivity].
  - rewrite andb_true_iff, orb_true_iff, bool_decide_eq_true, IH.
    split.
    + intros [[Hn|Hlt] HF]; constructor; try assumption; [congruence | auto].
    + intros HF. inversion HF as [|? ? H1 H2]; subst. split; [|assumption].
      destruct (hasNoReturnElement _); [left; reflexivity | right; auto].
  - rewrite IH. split.
    + intros HF; constructor; auto.
    + intros HF; inversion HF; assumption.
Qed.

Lemma predIDsInRange_subset CFCtx n Preds Preds' :
  (forall Pred, Pred ∈ Preds' -> Pred ∈ Preds) ->
  predIDsInRange CFCtx n Preds = true ->
  predIDsInRange CFCtx n Preds' = true.
Proof.
  rewrite !predIDsInRange_Forall, !Forall_forall. intros Hsub H Pred Hin.
  apply H, Hsub, Hin.
Qed.

Lemma contributions_nil CFCtx BlockStates :
  contributions CFCtx BlockStates [] = [].
Proof. reflexivity. Qed.

Lemma contributions_skip CFCtx BlockStates Pred Rest :
  survives CFCtx BlockStates Pred = false ->
  contributions CFCtx BlockStates (Pred :: Rest) = contributions CFCtx BlockStates Rest.
Proof.
  intros H. unfold contributions, contributors. rewrite filter_cons.
  destruct (decide _) as [Hd|Hd]; [|reflexivity].
  rewrite H in Hd. destruct Hd.
Qed.

Lemma contributions_keep CFCtx BlockStates P St Rest :
  hasNoReturnElement (getBlock (getCFG CFCtx) P) = false ->
  BlockStates !! getBlockID (getBlock (getCFG CFCtx) P) = Some (Some St) ->
  contributions CFCtx BlockStates (Some P :: Rest)
  = St :: contributions CFCtx BlockStates Rest.
Proof.
  intros Hn Hs. unfold contributions, contributors. rewrite filter_cons.
  destruct (decide _) as [Hd|Hd].
  - simpl. rewrite Hs. reflexivity.
  - exfalso. apply Hd. simpl. rewrite Hn, Hs. exact I.
Qed.

(** The loop of lines 103-123 folds the body of the join over the states
    of the surviving predecessors. *)
Lemma joinPredStates_fold CFCtx BlockStates Analysis Preds :
  predIDsInRange CFCtx (length BlockStates) Preds = true ->
  forall Acc,
    joinPredStates EnvOps CFCtx BlockStates Analysis Preds Acc
    = Some (fold_left (joinInto EnvOps Analysis)
                      (contributions CFCtx BlockStates Preds) Acc).
Proof.
  induction Preds as [|[P|] Rest IH]; intros Hr Acc.
  - reflexivity.
  - simpl in Hr. apply andb_true_iff in Hr as [Hhere Hrest].
    simpl. destruct (hasNoReturnElement (getBlock (getCFG CFCtx) P)) eqn:Hn.
    + rewrite contributions_skip by (simpl; rewrite Hn; reflexivity). auto.
    + simpl in Hhere. apply bool_decide_eq_true in Hhere.
      destruct (BlockStates !! getBlockID (getBlock (getCFG CFCtx) P))
        as [[St|]|] eqn:Hs.
      * rewrite (contributions_keep _ _ _ St) by assumption. simpl. auto.
      * rewrite contributions_skip by (simpl; rewrite Hn, Hs; reflexivity). auto.
      * apply lookup_ge_None in Hs. lia.
  - simpl in Hr. simpl. rewrite contributions_skip by reflexivity. auto.
Qed.

Lemma fold_joinInto_Some Analysis States Acc :
  fold_left (joinInto EnvOps Analysis) States (Some Acc)
  = Some (fold_left (joinStates EnvOps Analysis) States Acc).
Proof.
  revert Acc. induction States as [|St Rest IH]; intros Acc; [reflexivity|].
  simpl. apply IH.
Qed.

Lemma fold_joinInto_None Analysis InitEnv States :
  match fold_left (joinInto EnvOps Analysis) States None with
  | Some St => St
  | None => mkState (typeErasedInitialElement Analysis) InitEnv
  end = joinAll EnvOps Analysis InitEnv States.
Proof.
  destruct States as [|St Rest]; [reflexivity|].
  simpl. rewrite fold_joinInto_Some. reflexivity.
Qed.

Lemma elem_of_DenseSet_insert_range Preds Pred :
  Pred ∈ DenseSet_insert_range Preds <-> Pred ∈ Preds.
Proof. unfold DenseSet_insert_range. apply elem_of_remove_dups. Qed.

Lemma elem_of_DenseSet_erase P Preds Pred :
  Pred ∈ DenseSet_erase P Preds <-> Pred ∈ Preds /\ Pred ≠ Some P.
Proof. unfold DenseSet_erase. rewrite list_elem_of_filter. tauto. Qed.

Lemma elem_of_iterate Preds Pred :
  Pred ∈ iterate SetOrder Preds <-> Pred ∈ Preds.
Proof. rewrite (iterate_perm SetOrder Preds). reflexivity. Qed.

Lemma predecessorSet_subset CFCtx Block Preds :
  predecessorSet CFCtx Block = Some Preds ->
  forall Pred, Pred ∈ Preds -> Pred ∈ preds Block.
Proof.
  unfold predecessorSet. intros H Pred Hin.
  destruct (isTemporaryDtorsBranch _).
  - destruct (head (succs Block)) as [[Succ|]|]; simpl in H; try discriminate.
    destruct (hasNoReturnElement _).
    + destruct (getTerminatorStmt Block) as [TermStmt|]; simpl in H; try discriminate.
      destruct (getStmtToBlock CFCtx !! TermStmt) as [StmtBlock|]; simpl in H;
        try discriminate.
      injection H as <-. apply elem_of_DenseSet_erase in Hin as [Hin _].
      now apply elem_of_DenseSet_insert_range.
    + injection H as <-. now apply elem_of_DenseSet_insert_range.
  - injection H as <-. now apply elem_of_DenseSet_insert_range.
Qed.

Lemma predecessorSet_total CFCtx Block :
  terminatorResolves CFCtx Block = true ->
  exists Preds, predecessorSet CFCtx Block = Some Preds.
Proof.
  unfold terminatorResolves, predecessorSet. intros H.
  destruct (isTemporaryDtorsBranch _); [|eauto].
  destruct (head (succs Block)) as [[Succ|]|]; try discriminate. simpl.
  destruct (hasNoReturnElement _); [|eauto].
  destruct (getTerminatorStmt Block) as [TermStmt|]; try discriminate. simpl.
  apply bool_decide_eq_true in H as [StmtBlock ->]. simpl. eauto.
Qed.

(** [computeBlockInputState] is the join of the contributions of the
    members of the predecessor set, taken in the order of iteration. *)
Lemma computeBlockInputState_joinAll CFCtx BlockStates Block InitEnv Analysis Preds :
  predecessorSet CFCtx Block = Some Preds ->
  predIDsInRange CFCtx (length BlockStates) Preds = true ->
  computeBlockInputState EnvOps SetOrder CFCtx BlockStates Block InitEnv Analysis
  = Some (joinAll EnvOps Analysis InitEnv
            (contributions CFCtx BlockStates (iterate SetOrder Preds))).
Proof.
  intros HP Hr. unfold computeBlockInputState. rewrite HP. simpl.
  rewrite joinPredStates_fold.
  - simpl. rewrite <- (fold_joinInto_None Analysis InitEnv).
    destruct (fold_left _ _ _); reflexivity.
  - eapply predIDsInRange_subset; [|exact Hr].
    intros Pred Hin. rewrite elem_of_iterate in Hin. exact Hin.
Qed.

Lemma elem_of_contributors CFCtx BlockStates Preds Pred :
  Pred ∈ contributors CFCtx BlockStates Preds <->
  Pred ∈ Preds /\
  exists P St, Pred = Some P
    /\ hasNoReturnElement (getBlock (getCFG CFCtx) P) = false
    /\ BlockStates !! getBlockID (getBlock (getCFG CFCtx) P) = Some (Some St).
Proof.
  unfold contributors. rewrite list_elem_of_filter. split.
  - intros [Hs Hin]. split; [assumption|].
    destruct Pred as [P|]; simpl in Hs; [|destruct Hs].
    destruct (hasNoReturnElement _) eqn:Hn; simpl in Hs; [destruct Hs|].
    destruct (BlockStates !! _) as [[St|]|] eqn:Hl; simpl in Hs; try destruct Hs.
    exists P, St. repeat split; assumption.
  - intros [Hin (P & St & -> & Hn & Hs)]. split; [|assumption].
    simpl. rewrite Hn, Hs. exact I.
Qed.

Lemma contributions_match CFCtx BlockStates Preds :
  Forall2 (λ Pred St, storedState CFCtx BlockStates Pred = Some St)
          (contributors CFCtx BlockStates Preds)
          (contributions CFCtx BlockStates Preds).
Proof.
  induction Preds as [|Pred Rest IH]; [constructor|].
  destruct (survives CFCtx BlockStates Pred) eqn:Hs.
  - destruct Pred as [P|]; simpl in Hs; [|discriminate].
    apply andb_true_iff in Hs as [Hn Hs].
    apply negb_true_iff in Hn.
    destruct (BlockStates !! getBlockID (getBlock (getCFG CFCtx) P))
      as [[St|]|] eqn:Hl; try discriminate.
    rewrite (contributions_keep _ _ _ St) by assumption.
    unfold contributors in *. rewrite filter_cons.
    destruct (decide _) as [Hd|Hd].
    + constructor; [|exact IH]. simpl. rewrite Hl. reflexivity.
    + exfalso. apply Hd. simpl. rewrite Hn, Hl. exact I.
  - rewrite contributions_skip by assumption.
    unfold contributors in *. rewrite filter_cons.
    destruct (decide _) as [Hd|Hd]; [|exact IH].
    rewrite Hs in Hd. destruct Hd.
Qed.

Lemma joinAll_snoc Analysis InitEnv First Others Last :
  joinAll EnvOps Analysis InitEnv (First :: Others ++ [Last])
  = joinStates EnvOps Analysis (joinAll EnvOps Analysis InitEnv (First :: Others)) Last.
Proof. simpl. rewrite fold_left_app. reflexivity. Qed.

Lemma contributors_none CFCtx BlockStates Preds :
  (forall Pred, Pred ∈ Preds -> survives CFCtx BlockStates Pred = false) ->
  contributors CFCtx BlockStates Preds = [].
Proof.
  intros H. unfold contributors. induction Preds as [|Pred Rest IH]; [reflexivity|].
  rewrite filter_cons. destruct (decide _) as [Hd|Hd].
  - rewrite (H Pred) in Hd by left. destruct Hd.
  - apply IH. intros Q HQ. apply H. now right.
Qed.

(** On a block whose first successor edge and terminator statement
    resolve (lines 95-98) and whose predecessors index the store,
    [computeBlockInputState] yields a state, and when no member of the
    predecessor set survives, that state is the initial lattice element of
    the plugin paired with the initial environment of the caller. *)
Lemma computeBlockInputState_returns CFCtx BlockStates Block InitEnv Analysis :
  terminatorResolves CFCtx Block = true ->
  predIDsInRange CFCtx (length BlockStates) (preds Block) = true ->
  exists St Preds,
    predecessorSet CFCtx Block = Some Preds
    /\ computeBlockInputState EnvOps SetOrder CFCtx BlockStates Block InitEnv Analysis
       = Some St
    /\ ((forall Pred, Pred ∈ Preds -> survives CFCtx BlockStates Pred = false) ->
        St = mkState (typeErasedInitialElement Analysis) InitEnv).
Proof.
  intros HT HR.
  destruct (predecessorSet_total _ _ HT) as [Preds HP].
  assert (HR' : predIDsInRange CFCtx (length BlockStates) Preds = true).
  { eapply predIDsInRange_subset; [|exact HR].
    exact (predecessorSet_subset _ _ _ HP). }
  eexists _, Preds. split; [exact HP|]. split.
  - exact (computeBlockInputState_joinAll _ _ _ _ _ Preds HP HR').
  - intros Hnone. unfold contributions.
    rewrite contributors_none; [reflexivity|].
    intros Pred Hin. apply Hnone. now rewrite elem_of_iterate in Hin.
Qed.

(** C5: for a block whose terminator is a temporary-destructor branch and
    whose first successor is flagged as non-returning, the block that the
    statement-to-block map gives for the terminator statement is not a
    member of the set that is joined (its slot is not even read), while
    every other predecessor stays a member and contributes whenever it
    survives. *)
Theorem temporary_dtor_pruning CFCtx BlockStates Block InitEnv Analysis
    Succ TermStmt StmtBlock :
  isTemporaryDtorsBranch (getTerminator Block) = true ->
  head (succs Block) = Some (Some Succ) ->
  hasNoReturnElement (getBlock (getCFG CFCtx) Succ) = true ->
  getTerminatorStmt Block = Some TermStmt ->
  getStmtToBlock CFCtx !! TermStmt = Some StmtBlock ->
  predIDsInRange CFCtx (length BlockStates)
    (filter (λ Pred, Pred ≠ Some StmtBlock) (preds Block)) = true ->
  exists Preds,
    predecessorSet CFCtx Block = Some Preds
    /\ (forall Pred, Pred ∈ Preds <-> Pred ∈ preds Block /\ Pred ≠ Some StmtBlock)
    /\ computeBlockInputState EnvOps SetOrder CFCtx BlockStates Block InitEnv Analysis
       = Some (joinAll EnvOps Analysis InitEnv
                 (contributions CFCtx BlockStates (iterate SetOrder Preds)))
    /\ (Some StmtBlock ∉ contributors CFCtx BlockStates (iterate SetOrder Preds))
    /\ (forall Pred, Pred ∈ preds Block -> Pred ≠ Some StmtBlock ->
          survives CFCtx BlockStates Pred = true ->
          Pred ∈ contributors CFCtx BlockStates (iterate SetOrder Preds)).
Proof.
  intros HT HS HN HTS HSB HR.
  assert (HP : predecessorSet CFCtx Block
               = Some (DenseSet_erase StmtBlock (DenseSet_insert_range (preds Block)))).
  { unfold predecessorSet. rewrite HT, HS. simpl. rewrite HN, HTS. simpl.
    rewrite HSB. reflexivity. }
  assert (Hmem : forall Pred,
             Pred ∈ DenseSet_erase StmtBlock (DenseSet_insert_range (preds Block))
             <-> Pred ∈ preds Block /\ Pred ≠ Some StmtBlock).
  { intros Pred. rewrite elem_of_DenseSet_erase, elem_of_DenseSet_insert_range.
    reflexivity. }
  eexists. split; [exact HP|]. split; [exact Hmem|]. split; [|split].
  - apply computeBlockInputState_joinAll; [assumption|].
    eapply predIDsInRange_subset; [|exact HR].
    intros Pred Hin. apply Hmem in Hin as [Hin Hne].
    apply list_elem_of_filter. split; assumption.
  - intros Hin. apply elem_of_contributors in Hin as [Hin _].
    rewrite elem_of_iterate in Hin. apply Hmem in Hin as [_ Hne]. now apply Hne.
  - intros Pred Hin Hne Hs. unfold contributors.
    apply list_elem_of_filter. split; [rewrite Hs; exact I|].
    rewrite elem_of_iterate. apply Hmem. split; assumption.
Qed.

(** The loop reads the store only at the identifiers of the members it
    is given. *)
Lemma joinPredStates_ext CFCtx BlockStates BlockStates' Analysis Preds :
  (forall P, Some P ∈ Preds ->
     BlockStates !! getBlockID (getBlock (getCFG CFCtx) P)
     = BlockStates' !! getBlockID (getBlock (getCFG CFCtx) P)) ->
  forall Acc,
    joinPredStates EnvOps CFCtx BlockStates Analysis Preds Acc
    = joinPredStates EnvOps CFCtx BlockStates' Analysis Preds Acc.
Proof.
  induction Preds as [|[P|] Rest IH]; intros Hagree Acc.
  - reflexivity.
  - simpl. rewrite <- (Hagree P) by left.
    assert (HRest : forall Q, Some Q ∈ Rest ->
              BlockStates !! getBlockID (getBlock (getCFG CFCtx) Q)
              = BlockStates' !! getBlockID (getBlock (getCFG CFCtx) Q)).
    { intros Q HQ. apply Hagree. now right. }
    destruct (hasNoReturnElement _); [now apply IH|].
    destruct (BlockStates !! _) as [[St|]|]; [now apply IH|now apply IH|reflexivity].
  - simpl. apply IH. intros Q HQ. apply Hagree. now right.
Qed.

(** In the situation of the pruning, what the slot of the pruned block
    holds does not matter to the input state, as long as no other
    predecessor has the identifier of the pruned block. *)
Lemma pruned_block_slot_irrelevant CFCtx BlockStates Block InitEnv Analysis
    Succ TermStmt StmtBlock Slot :
  isTemporaryDtorsBranch (getTerminator Block) = true ->
  head (succs Block) = Some (Some Succ) ->
  hasNoReturnElement (getBlock (getCFG CFCtx) Succ) = true ->
  getTerminatorStmt Block = Some TermStmt ->
  getStmtToBlock CFCtx !! TermStmt = Some StmtBlock ->
  (forall P, Some P ∈ preds Block -> P <> StmtBlock ->
     getBlockID (getBlock (getCFG CFCtx) P)
     <> getBlockID (getBlock (getCFG CFCtx) StmtBlock)) ->
  computeBlockInputState EnvOps SetOrder CFCtx
    (<[getBlockID (getBlock (getCFG CFCtx) StmtBlock) := Slot]> BlockStates)
    Block InitEnv Analysis
  = computeBlockInputState EnvOps SetOrder CFCtx BlockStates Block InitEnv Analysis.
Proof.
  intros HT HS HN HTS HSB HID.
  unfold computeBlockInputState, predecessorSet.
  rewrite HT, HS. simpl. rewrite HN, HTS. simpl. rewrite HSB. simpl.
  rewrite (joinPredStates_ext CFCtx _ BlockStates); [reflexivity|].
  intros P HP. rewrite elem_of_iterate, elem_of_DenseSet_erase,
    elem_of_DenseSet_insert_range in HP. destruct HP as [HP Hne].
  apply list_lookup_insert_ne. intros Heq. apply (HID P HP); congruence.
Qed.

End InputState.

Section Transfer.

Context {TypeErasedLattice Environment StorageLocation Value Obs : Type}.

Abbreviation State := (TypeErasedDataflowAnalysisState TypeErasedLattice Environment).
Abbreviation Store := (list (option State)).
Abbreviation Analysis_t := (TypeErasedDataflowAnalysis TypeErasedLattice Environment).
Abbreviation Mem_t := (Mem TypeErasedLattice Environment Obs).
Abbreviation Handler_t := (Handler TypeErasedLattice Environment Obs).

Variable EnvOps : EnvironmentOps TypeErasedLattice Environment StorageLocation Value.
Variable SetOrder : DenseSetOrder.
Variable transfer :
  (Stmt -> option Environment) -> Stmt -> Environment -> option Environment.

Implicit Types (CFCtx : ControlFlowContext) (Analysis : Analysis_t)
  (Block : CFGBlock) (InitEnv : Environment) (St : State) (m : Mem_t)
  (HandleTransferredStmt : Handler_t).

Ltac unfold_M := unfold mbind, M_bind, mret, M_ret, assertSome, readBlockStates, callHandler.

Lemma transferCFGStmt_run CFCtx CfgStmt Analysis St HandleTransferredStmt m S :
  getStmt CfgStmt = Some S ->
  transferCFGStmt transfer CFCtx CfgStmt Analysis St HandleTransferredStmt m
  = match (if applyBuiltinTransfer Analysis
           then transfer (getEnvironment CFCtx (BlockStates m)) S (Env St)
           else Some (Env St)) with
    | None => None
    | Some Env1 =>
        let St' := mkState (transferTypeErased Analysis S (Lattice St) Env1).1
                           (transferTypeErased Analysis S (Lattice St) Env1).2 in
        Some (St', match HandleTransferredStmt with
                   | Some Handle =>
                       mkMem (BlockStates m) (Handle CfgStmt St' (CallerState m))
                   | None => m
                   end)
    end.
Proof.
  intros HS. unfold transferCFGStmt. unfold_M. rewrite HS.
  destruct (applyBuiltinTransfer Analysis).
  - destruct (transfer _ S (Env St)) as [Env1|]; [|reflexivity].
    destruct HandleTransferredStmt; reflexivity.
  - destruct HandleTransferredStmt; reflexivity.
Qed.

Lemma transferElements_app CFCtx Analysis HandleTransferredStmt Es1 Es2 St m :
  transferElements EnvOps transfer CFCtx Analysis HandleTransferredStmt (Es1 ++ Es2) St m
  = match transferElements EnvOps transfer CFCtx Analysis HandleTransferredStmt Es1 St m with
    | Some (St1, m1) =>
        transferElements EnvOps transfer CFCtx Analysis HandleTransferredStmt Es2 St1 m1
    | None => None
    end.
Proof.
  revert St m. induction Es1 as [|Element Rest IH]; intros St m; [reflexivity|].
  simpl. unfold mbind, M_bind.
  destruct (transferElement _ _ _ _ _ Element St m) as [[St1 m1]|]; [|reflexivity].
  apply IH.
Qed.

Lemma transferCFGStmt_frame CFCtx CfgStmt Analysis St HandleTransferredStmt m St' m' :
  transferCFGStmt transfer CFCtx CfgStmt Analysis St HandleTransferredStmt m
  = Some (St', m') ->
  BlockStates m' = BlockStates m.
Proof.
  destruct (getStmt CfgStmt) as [S|] eqn:HS.
  - rewrite (transferCFGStmt_run _ _ _ _ _ _ S HS).
    destruct (if applyBuiltinTransfer Analysis then _ else _); [|discriminate].
    simpl. intros [= _ <-]. destruct HandleTransferredStmt; reflexivity.
  - unfold transferCFGStmt. unfold_M. rewrite HS. discriminate.
Qed.

Lemma transferElement_frame CFCtx Analysis HandleTransferredStmt Element St m St' m' :
  transferElement EnvOps transfer CFCtx Analysis HandleTransferredStmt Element St m
  = Some (St', m') ->
  BlockStates m' = BlockStates m.
Proof.
  destruct Element as [CfgStmt|CfgInit|K]; simpl.
  - apply transferCFGStmt_frame.
  - destruct (applyBuiltinTransfer Analysis).
    + unfold assertSome. destruct (transferCFGInitializer _ _ _); [|discriminate].
      now intros [= _ <-].
    + now intros [= _ <-].
  - now intros [= _ <-].
Qed.

Lemma transferElements_frame CFCtx Analysis HandleTransferredStmt Es St m St' m' :
  transferElements EnvOps transfer CFCtx Analysis HandleTransferredStmt Es St m
  = Some (St', m') ->
  BlockStates m' = BlockStates m.
Proof.
  revert St m. induction Es as [|Element Rest IH]; intros St m; simpl.
  - now intros [= _ <-].
  - unfold mbind, M_bind.
    destruct (transferElement _ _ _ _ _ Element St m) as [[St1 m1]|] eqn:H1;
      [|discriminate].
    intros H2. apply IH in H2. apply transferElement_frame in H1. congruence.
Qed.

Lemma transferBlock_run CFCtx Block InitEnv Analysis HandleTransferredStmt m :
  transferBlock EnvOps SetOrder transfer CFCtx Block InitEnv Analysis
    HandleTransferredStmt m
  = match computeBlockInputState EnvOps SetOrder CFCtx (BlockStates m) Block
            InitEnv Analysis with
    | Some St =>
        transferElements EnvOps transfer CFCtx Analysis HandleTransferredStmt
          (Elements Block) St m
    | None => None
    end.
Proof.
  unfold transferBlock. unfold_M.
  destruct (computeBlockInputState _ _ _ _ _ _ _); reflexivity.
Qed.

Lemma transferBlock_frame CFCtx Block InitEnv Analysis HandleTransferredStmt m St' m' :
  transferBlock EnvOps SetOrder transfer CFCtx Block InitEnv Analysis
    HandleTransferredStmt m = Some (St', m') ->
  BlockStates m' = BlockStates m.
Proof.
  rewrite transferBlock_run.
  destruct (computeBlockInputState _ _ _ _ _ _ _); [|discriminate].
  apply transferElements_frame.
Qed.

(** C7: on an initializer element whose receiver, initializer and source
    expression are there, if the storage location of the source
    expression or the value at that location does not resolve in the
    environment, the step ends normally and returns the very state it
    was given; the memory around it is untouched as well. *)
Theorem transferCFGInitializer_unresolved (CfgInit : CFGInitializer) St
    ThisLoc CtorInit InitStmt :
  getThisPointeeStorageLocation EnvOps (Env St) = Some ThisLoc ->
  isAggregateStorageLocation EnvOps ThisLoc = true ->
  getInitializer CfgInit = Some CtorInit ->
  getInit CtorInit = Some InitStmt ->
  (getStorageLocation EnvOps (Env St) InitStmt SkipPast_Reference = None
   \/ exists InitStmtLoc,
        getStorageLocation EnvOps (Env St) InitStmt SkipPast_Reference
        = Some InitStmtLoc
        /\ getValue EnvOps (Env St) InitStmtLoc = None) ->
  transferCFGInitializer EnvOps CfgInit St = Some St
  /\ forall CFCtx Analysis HandleTransferredStmt m,
       transferElement EnvOps transfer CFCtx Analysis HandleTransferredStmt
         (Initializer CfgInit) St m = Some (St, m).
Proof.
  intros HThis HAgg HInit HStmt HUn.
  assert (H : transferCFGInitializer EnvOps CfgInit St = Some St).
  { unfold transferCFGInitializer. rewrite HThis. simpl. rewrite HAgg. simpl.
    rewrite HInit. simpl. rewrite HStmt. simpl.
    destruct HUn as [-> | (InitStmtLoc & -> & ->)]; reflexivity. }
  split; [exact H|].
  intros CFCtx Analysis HandleTransferredStmt m. simpl.
  destruct (applyBuiltinTransfer Analysis); [|reflexivity].
  unfold assertSome. rewrite H. reflexivity.
Qed.

(** C8: on an initializer element whose source location and value
    resolve, the lattice element is kept and the environment is changed
    at the location of the member under the receiver: for a member of
    reference type it is set to a fresh reference value on the source
    location, registered with the environment; otherwise it is set to the
    source value.  With an environment that reads back what was set, the
    member location then holds that value. *)
Theorem transferCFGInitializer_resolved (CfgInit : CFGInitializer) St
    ThisLoc CtorInit InitStmt InitStmtLoc InitStmtVal Member MemberLoc :
  getThisPointeeStorageLocation EnvOps (Env St) = Some ThisLoc ->
  isAggregateStorageLocation EnvOps ThisLoc = true ->
  getInitializer CfgInit = Some CtorInit ->
  getInit CtorInit = Some InitStmt ->
  getStorageLocation EnvOps (Env St) InitStmt SkipPast_Reference = Some InitStmtLoc ->
  getValue EnvOps (Env St) InitStmtLoc = Some InitStmtVal ->
  getMember CtorInit = Some Member ->
  getChild EnvOps ThisLoc Member = Some MemberLoc ->
  exists St',
    transferCFGInitializer EnvOps CfgInit St = Some St'
    /\ Lattice St' = Lattice St
    /\ Env St'
       = (if isReferenceType Member then
            setValue EnvOps
              (takeOwnership EnvOps (Env St) (ReferenceValue EnvOps InitStmtLoc))
              MemberLoc (ReferenceValue EnvOps InitStmtLoc)
          else setValue EnvOps (Env St) MemberLoc InitStmtVal)
    /\ ((forall E L V, getValue EnvOps (setValue EnvOps E L V) L = Some V) ->
        getValue EnvOps (Env St') MemberLoc
        = Some (if isReferenceType Member
                then ReferenceValue EnvOps InitStmtLoc else InitStmtVal)).
Proof.
  intros HThis HAgg HInit HStmt HLoc HVal HMember HChild.
  unfold transferCFGInitializer. rewrite HThis. simpl. rewrite HAgg. simpl.
  rewrite HInit. simpl. rewrite HStmt. simpl. rewrite HLoc, HVal, HMember. simpl.
  destruct (isReferenceType Member); rewrite HChild; simpl;
    (eexists; split; [reflexivity|]; split; [reflexivity|]; split; [reflexivity|]);
    intros HGetSet; simpl; apply HGetSet.
Qed.

End Transfer.

Section DriverProperties.

Context {TypeErasedLattice Environment StorageLocation Value WorklistT : Type}.

Abbreviation State := (TypeErasedDataflowAnalysisState TypeErasedLattice Environment).
Abbreviation Store := (list (option State)).
Abbreviation Analysis_t := (TypeErasedDataflowAnalysis TypeErasedLattice Environment).
Abbreviation DriverState_t := (@DriverState TypeErasedLattice Environment WorklistT).

Variable EnvOps : EnvironmentOps TypeErasedLattice Environment StorageLocation Value.
Variable SetOrder : DenseSetOrder.
Variable transfer :
  (Stmt -> option Environment) -> Stmt -> Environment -> option Environment.
Variable WorklistOps : ForwardDataflowWorklistOps WorklistT.

Variable CFCtx : ControlFlowContext.
Variable Analysis : Analysis_t.
Variable InitEnv : Environment.

Abbreviation step := (driverStep EnvOps SetOrder transfer WorklistOps CFCtx Analysis InitEnv).
Abbreviation loop := (driverLoop EnvOps SetOrder transfer WorklistOps CFCtx Analysis InitEnv).
Abbreviation after := (afterIterations EnvOps SetOrder transfer WorklistOps CFCtx Analysis InitEnv).
Abbreviation dequeued := (dequeuedBlocks EnvOps SetOrder transfer WorklistOps CFCtx Analysis InitEnv).
Abbreviation blockID BlockP := (getBlockID (getBlock (getCFG CFCtx) BlockP)).

Implicit Types (st : DriverState_t) (Vec : Store).

Lemma MaxIterations_value : MaxIterations = 65536%Z.
Proof. reflexivity. Qed.

Lemma uint32_incr_small n :
  (0 <= n <= MaxIterations)%Z -> uint32_incr n = (n + 1)%Z.
Proof.
  rewrite MaxIterations_value. intros H. unfold uint32_incr.
  change (2 ^ 32)%Z with 4294967296%Z. apply Z.mod_small. lia.
Qed.

(** Everything that an iteration which goes round again has done. *)
Lemma driverStep_Continue st st' :
  step st = Continue st' ->
  exists BlockP Worklist1 NewBlockState Mem1 OldBlockState,
    dequeue WorklistOps (Worklist st) = (Some BlockP, Worklist1)
    /\ (uint32_incr (Iterations st) <= MaxIterations)%Z
    /\ Iterations st' = uint32_incr (Iterations st)
    /\ transferBlock EnvOps SetOrder transfer CFCtx (getBlock (getCFG CFCtx) BlockP)
         InitEnv Analysis None (Memory st) = Some (NewBlockState, Mem1)
    /\ BlockStates Mem1 = BlockStates (Memory st)
    /\ BlockStates (Memory st) !! blockID BlockP = Some OldBlockState
    /\ Memory st'
       = (if stateUnchanged EnvOps Analysis OldBlockState NewBlockState then Mem1
          else mkMem (<[blockID BlockP := Some NewBlockState]> (BlockStates Mem1))
                     (CallerState Mem1))
    /\ Worklist st'
       = (if stateUnchanged EnvOps Analysis OldBlockState NewBlockState
             || hasNoReturnElement (getBlock (getCFG CFCtx) BlockP)
          then Worklist1
          else enqueueSuccessors WorklistOps Worklist1 BlockP).
Proof.
  unfold driverStep.
  destruct (dequeue WorklistOps (Worklist st)) as [[BlockP|] Worklist1]; [|discriminate].
  destruct (MaxIterations <? uint32_incr (Iterations st))%Z eqn:Hcap; [discriminate|].
  apply Z.ltb_ge in Hcap.
  destruct (BlockStates (Memory st) !! blockID BlockP) as [Slot|] eqn:Hslot;
    [|discriminate].
  destruct (transferBlock _ _ _ _ _ _ _ _ _) as [[NewBlockState Mem1]|] eqn:Htr;
    [|discriminate].
  pose proof (transferBlock_frame _ _ _ _ _ _ _ _ _ _ _ Htr) as Hframe.
  rewrite Hframe, Hslot.
  intros H. exists BlockP, Worklist1, NewBlockState, Mem1, Slot.
  destruct (stateUnchanged EnvOps Analysis Slot NewBlockState).
  - injection H as <-. split_and!; simpl; rewrite ?Hframe; try reflexivity; assumption.
  - destruct (hasNoReturnElement _); injection H as <-;
      split_and!; simpl; rewrite ?Hframe; try reflexivity; assumption.
Qed.

Lemma stateUnchanged_true OldBlockState NewBlockState :
  stateUnchanged EnvOps Analysis OldBlockState NewBlockState = true <->
  exists Old,
    OldBlockState = Some Old
    /\ isEqualTypeErased Analysis (Lattice Old) (Lattice NewBlockState) = true
    /\ Env_equivalentTo EnvOps (Env Old) (Env NewBlockState) Analysis = true.
Proof.
  unfold stateUnchanged. destruct OldBlockState as [Old|].
  - rewrite andb_true_iff. split.
    + intros [H1 H2]. eauto.
    + intros (Old' & [= <-] & H1 & H2). auto.
  - split; [discriminate|]. intros (Old & H & _). discriminate.
Qed.

(** An iteration keeps the number of slots, keeps set slots set, and
    leaves the slot of the dequeued block set. *)
Lemma driverStep_slots st st' :
  step st = Continue st' ->
  length (BlockStates (Memory st')) = length (BlockStates (Memory st))
  /\ (forall j St, BlockStates (Memory st) !! j = Some (Some St) ->
        exists St', BlockStates (Memory st') !! j = Some (Some St'))
  /\ (forall BlockP, (dequeue WorklistOps (Worklist st)).1 = Some BlockP ->
        exists St', BlockStates (Memory st') !! blockID BlockP = Some (Some St')).
Proof.
  intros H.
  destruct (driverStep_Continue _ _ H)
    as (BlockP & Worklist1 & New & Mem1 & Old & Hdq & _ & _ & _ & Hframe & Hold & Hmem & _).
  assert (Hlt : blockID BlockP < length (BlockStates (Memory st))).
  { eapply lookup_lt_Some; exact Hold. }
  rewrite Hmem, Hdq. simpl.
  destruct (stateUnchanged EnvOps Analysis Old New) eqn:Hun.
  - rewrite Hframe. split_and!; [reflexivity|eauto|].
    intros ? [= <-]. apply stateUnchanged_true in Hun as (O & -> & _). eauto.
  - simpl. rewrite Hframe. split_and!.
    + apply length_insert.
    + intros j St Hj. destruct (decide (j = blockID BlockP)) as [->|Hne].
      * rewrite list_lookup_insert_eq by assumption. eauto.
      * rewrite list_lookup_insert_ne by congruence. eauto.
    + intros ? [= <-]. rewrite list_lookup_insert_eq by assumption. eauto.
Qed.

Lemma driverLoop_Success fuel : forall st Vec,
  loop fuel st = Some (Returned (Success Vec)) ->
  length Vec = length (BlockStates (Memory st))
  /\ (forall j St, BlockStates (Memory st) !! j = Some (Some St) ->
        exists St', Vec !! j = Some (Some St'))
  /\ (forall n st' BlockP,
        after n st = Some st' ->
        (dequeue WorklistOps (Worklist st')).1 = Some BlockP ->
        exists St', Vec !! blockID BlockP = Some (Some St')).
Proof.
  induction fuel as [|fuel IH]; intros st Vec; [discriminate|].
  simpl. destruct (step st) as [st1|R|] eqn:Hstep; [| |discriminate].
  - intros Hloop. destruct (IH _ _ Hloop) as (Hlen & Hset & Hdq).
    destruct (driverStep_slots _ _ Hstep) as (Hlen1 & Hset1 & Hdq1).
    split_and!.
    + congruence.
    + intros j St Hj. destruct (Hset1 _ _ Hj) as [St1 Hj1]. eauto.
    + intros [|n] st' BlockP; simpl.
      * intros [= <-] HB. destruct (Hdq1 _ HB) as [St1 Hj1]. eauto.
      * rewrite Hstep. apply Hdq.
  - intros [= ->]. unfold driverStep in Hstep.
    destruct (dequeue WorklistOps (Worklist st)) as [[BlockP|] Worklist1] eqn:Hd.
    + exfalso. destruct (MaxIterations <? _)%Z; [discriminate|].
      destruct (BlockStates (Memory st) !! _); [|discriminate].
      destruct (transferBlock _ _ _ _ _ _ _ _ _) as [[New Mem1]|]; [|discriminate].
      destruct (BlockStates Mem1 !! _); [|discriminate].
      destruct (stateUnchanged _ _ _ _); [discriminate|].
      destruct (hasNoReturnElement _); discriminate.
    + injection Hstep as <-. split_and!; [reflexivity|eauto|].
      intros [|n] st' BlockP; simpl.
      * intros [= <-]. rewrite Hd. discriminate.
      * unfold driverStep. rewrite Hd. discriminate.
Qed.

Lemma driverLoop_Failure fuel : forall st E,
  loop fuel st = Some (Returned (Failure E)) -> E = timeoutError.
Proof.
  induction fuel as [|fuel IH]; intros st E; [discriminate|].
  simpl. destruct (step st) as [st1|R|] eqn:Hstep; [apply IH| |discriminate].
  intros [= ->]. unfold driverStep in Hstep.
  destruct (dequeue WorklistOps (Worklist st)) as [[BlockP|] Worklist1];
    [|discriminate].
  destruct (MaxIterations <? _)%Z.
  - injection Hstep as <-. reflexivity.
  - destruct (BlockStates (Memory st) !! _); [|discriminate].
    destruct (transferBlock _ _ _ _ _ _ _ _ _) as [[New Mem1]|]; [|discriminate].
    destruct (BlockStates Mem1 !! _); [|discriminate].
    destruct (stateUnchanged _ _ _ _); [discriminate|].
    destruct (hasNoReturnElement _); discriminate.
Qed.

Lemma driverStep_counter st st' :
  (0 <= Iterations st <= MaxIterations)%Z ->
  step st = Continue st' ->
  Iterations st' = (Iterations st + 1)%Z /\ (Iterations st' <= MaxIterations)%Z.
Proof.
  intros Hr H.
  destruct (driverStep_Continue _ _ H)
    as (_ & _ & _ & _ & _ & _ & Hcap & Hit & _).
  rewrite uint32_incr_small in * by assumption. lia.
Qed.

(** The loop leaves within [MaxIterations + 1] evaluations of its
    condition. *)
Lemma driverLoop_total fuel : forall st,
  (0 <= Iterations st <= MaxIterations)%Z ->
  (MaxIterations - Iterations st < Z.of_nat fuel)%Z ->
  exists Out, loop fuel st = Some Out.
Proof.
  induction fuel as [|fuel IH]; intros st Hr Hf; [lia|].
  simpl. destruct (step st) as [st1|R|] eqn:Hstep; [|eauto..].
  destruct (driverStep_counter _ _ Hr Hstep) as [Hit Hle].
  apply IH; lia.
Qed.

Lemma after_counter n : forall st st',
  (0 <= Iterations st <= MaxIterations)%Z ->
  after n st = Some st' ->
  Iterations st' = (Iterations st + Z.of_nat n)%Z
  /\ (Iterations st' <= MaxIterations)%Z.
Proof.
  induction n as [|n IH]; intros st st' Hr.
  - intros [= <-]. lia.
  - cbn [afterIterations]. destruct (step st) as [st1|R|] eqn:Hstep; try discriminate.
    destruct (driverStep_counter _ _ Hr Hstep) as [Hit Hle].
    intros H. apply IH in H; lia.
Qed.

Lemma driverLoop_after n : forall fuel st st',
  after n st = Some st' -> loop (n + fuel) st = loop fuel st'.
Proof.
  induction n as [|n IH]; intros fuel st st'.
  - now intros [= <-].
  - cbn [afterIterations Nat.add driverLoop].
    destruct (step st) as [st1|R|]; try discriminate. apply IH.
Qed.

(** When the loop leaves with the failure, the blocks it has dequeued are
    those of the full iterations up to the cap and one more. *)
Lemma driverLoop_timeout fuel : forall st E,
  (0 <= Iterations st <= MaxIterations)%Z ->
  loop fuel st = Some (Returned (Failure E)) ->
  exists st' BlockP Worklist1,
    after (Z.to_nat (MaxIterations - Iterations st)) st = Some st'
    /\ Iterations st' = MaxIterations
    /\ dequeue WorklistOps (Worklist st') = (Some BlockP, Worklist1)
    /\ Z.of_nat (length (dequeued fuel st))
       = (MaxIterations - Iterations st + 1)%Z.
Proof.
  induction fuel as [|fuel IH]; intros st E Hr; [discriminate|].
  cbn [driverLoop dequeuedBlocks].
  destruct (step st) as [st1|R|] eqn:Hstep; [| |discriminate].
  - intros Hloop.
    destruct (driverStep_counter _ _ Hr Hstep) as [Hit Hle].
    destruct (driverStep_Continue _ _ Hstep)
      as (BlockP & Worklist1 & _ & _ & _ & Hdq & _).
    destruct (IH st1 E ltac:(lia) Hloop) as (st' & B' & W' & Haf & Hmax & Hd' & Hlen).
    exists st', B', W'. rewrite Hdq. cbn [fst length].
    replace (Z.to_nat (MaxIterations - Iterations st))
      with (S (Z.to_nat (MaxIterations - Iterations st1))) by lia.
    cbn [afterIterations]. rewrite Hstep. split_and!; try assumption. lia.
  - intros [= ->]. unfold driverStep in Hstep.
    destruct (dequeue WorklistOps (Worklist st)) as [[BlockP|] Worklist1] eqn:Hd;
      [|discriminate].
    destruct (MaxIterations <? _)%Z eqn:Hcap.
    + apply Z.ltb_lt in Hcap. rewrite uint32_incr_small in Hcap by assumption.
      assert (Heq : Iterations st = MaxIterations) by lia.
      exists st, BlockP, Worklist1. rewrite Heq, Z.sub_diag. cbn.
      split_and!; try reflexivity; assumption.
    + destruct (BlockStates (Memory st) !! _); [|discriminate].
      destruct (transferBlock _ _ _ _ _ _ _ _ _) as [[New Mem1]|]; [|discriminate].
      destruct (BlockStates Mem1 !! _); [|discriminate].
      destruct (stateUnchanged _ _ _ _); [discriminate|].
      destruct (hasNoReturnElement _); discriminate.
Qed.

Lemma driverStep_at_cap st BlockP Worklist1 :
  Iterations st = MaxIterations ->
  dequeue WorklistOps (Worklist st) = (Some BlockP, Worklist1) ->
  step st = Return (Failure timeoutError).
Proof.
  intros Hit Hd. unfold driverStep. rewrite Hd, Hit.
  rewrite uint32_incr_small by (rewrite MaxIterations_value; lia).
  destruct (MaxIterations <? MaxIterations + 1)%Z eqn:Hcap; [reflexivity|].
  apply Z.ltb_ge in Hcap. lia.
Qed.

Lemma initialState_facts st0 :
  initialState WorklistOps CFCtx Analysis InitEnv = Some st0 ->
  Iterations st0 = 0%Z
  /\ length (BlockStates (Memory st0)) = size (getCFG CFCtx)
  /\ BlockStates (Memory st0) !! blockID (getEntry (getCFG CFCtx))
     = Some (Some (mkState (typeErasedInitialElement Analysis) InitEnv)).
Proof.
  unfold initialState. destruct (decide _) as [Hlt|]; [|discriminate].
  intros [= <-]. simpl. split_and!.
  - reflexivity.
  - rewrite length_insert. apply length_replicate.
  - apply list_lookup_insert_eq. exact Hlt.
Qed.

(** An iteration writes no slot but that of the block it dequeued. *)
Lemma driverStep_other_slots st st' BlockP :
  step st = Continue st' ->
  (dequeue WorklistOps (Worklist st)).1 = Some BlockP ->
  forall j, j <> blockID BlockP ->
    BlockStates (Memory st') !! j = BlockStates (Memory st) !! j.
Proof.
  intros H HB.
  destruct (driverStep_Continue _ _ H)
    as (B & Worklist1 & New & Mem1 & Old & Hdq & _ & _ & _ & Hframe & _ & Hmem & _).
  rewrite Hdq in HB. injection HB as ->.
  intros j Hne. rewrite Hmem.
  destruct (stateUnchanged _ _ _ _); simpl; rewrite Hframe; [reflexivity|].
  apply list_lookup_insert_ne. congruence.
Qed.

(** A slot that is set in the store that the loop returns was set when
    the loop was entered, or is the slot of a block dequeued since. *)
Lemma driverLoop_Success_set fuel : forall st Vec,
  loop fuel st = Some (Returned (Success Vec)) ->
  forall ID St, Vec !! ID = Some (Some St) ->
    (exists St0, BlockStates (Memory st) !! ID = Some (Some St0))
    \/ exists n st' BlockP,
         after n st = Some st'
         /\ (dequeue WorklistOps (Worklist st')).1 = Some BlockP
         /\ blockID BlockP = ID.
Proof.
  induction fuel as [|fuel IH]; intros st Vec; [discriminate|].
  cbn [driverLoop]. destruct (step st) as [st1|R|] eqn:Hstep; [| |discriminate].
  - intros Hloop ID St HID.
    destruct (driverStep_Continue _ _ Hstep)
      as (BlockP & Worklist1 & _ & _ & _ & Hdq & _).
    assert (HB : (dequeue WorklistOps (Worklist st)).1 = Some BlockP)
      by (rewrite Hdq; reflexivity).
    destruct (IH _ _ Hloop _ _ HID) as [[St1 HSt1] | (n & st' & B & Haf & HdB & HBID)].
    + destruct (decide (ID = blockID BlockP)) as [->|Hne].
      * right. exists 0, st, BlockP. split_and!; [reflexivity|assumption|reflexivity].
      * left. exists St1.
        rewrite <- (driverStep_other_slots _ _ _ Hstep HB ID Hne). exact HSt1.
    + right. exists (S n), st', B. cbn [afterIterations]. rewrite Hstep.
      split_and!; assumption.
  - intros [= ->] ID St HID. left. unfold driverStep in Hstep.
    destruct (dequeue WorklistOps (Worklist st)) as [[BlockP|] Worklist1].
    + exfalso. destruct (MaxIterations <? _)%Z; [discriminate|].
      destruct (BlockStates (Memory st) !! _); [|discriminate].
      destruct (transferBlock _ _ _ _ _ _ _ _ _) as [[New Mem1]|]; [|discriminate].
      destruct (BlockStates Mem1 !! _); [|discriminate].
      destruct (stateUnchanged _ _ _ _); [discriminate|].
      destruct (hasNoReturnElement _); discriminate.
    + injection Hstep as <-. eauto.
Qed.

Lemma initialState_only_entry st0 :
  initialState WorklistOps CFCtx Analysis InitEnv = Some st0 ->
  forall j St, BlockStates (Memory st0) !! j = Some (Some St) ->
    j = blockID (getEntry (getCFG CFCtx)).
Proof.
  unfold initialState. destruct (decide _) as [Hlt|]; [|discriminate].
  intros [= <-] j St. simpl.
  destruct (decide (j = blockID (getEntry (getCFG CFCtx)))) as [->|Hne];
    [reflexivity|].
  rewrite list_lookup_insert_ne by congruence.
  intros H. apply lookup_replicate in H as [H _]. discriminate.
Qed.

(** The driver itself breaks no contract: on a graph whose block
    identifiers are below the number of blocks, a run can only stop on a
    contract violation inside the transfer of a block. *)
Lemma driverStep_no_violation st :
  (forall BlockP, blockID BlockP < size (getCFG CFCtx)) ->
  (forall BlockP (m : Mem TypeErasedLattice Environment unit),
     length (BlockStates m) = size (getCFG CFCtx) ->
     is_Some (transferBlock EnvOps SetOrder transfer CFCtx
                (getBlock (getCFG CFCtx) BlockP) InitEnv Analysis None m)) ->
  length (BlockStates (Memory st)) = size (getCFG CFCtx) ->
  step st <> Violation.
Proof.
  intros HID Htr Hlen. unfold driverStep.
  destruct (dequeue WorklistOps (Worklist st)) as [[BlockP|] Worklist1]; [|discriminate].
  destruct (MaxIterations <? _)%Z; [discriminate|].
  destruct (lookup_lt_is_Some_2 (BlockStates (Memory st)) (blockID BlockP))
    as [Slot HSlot]; [rewrite Hlen; apply HID|].
  rewrite HSlot.
  destruct (Htr BlockP (Memory st) Hlen) as [[New Mem1] Hrun]. rewrite Hrun.
  rewrite (transferBlock_frame _ _ _ _ _ _ _ _ _ _ _ Hrun), HSlot.
  destruct (stateUnchanged _ _ _ _); [discriminate|].
  destruct (hasNoReturnElement _); discriminate.
Qed.

Lemma driverLoop_no_violation fuel : forall st,
  (forall BlockP, blockID BlockP < size (getCFG CFCtx)) ->
  (forall BlockP (m : Mem TypeErasedLattice Environment unit),
     length (BlockStates m) = size (getCFG CFCtx) ->
     is_Some (transferBlock EnvOps SetOrder transfer CFCtx
                (getBlock (getCFG CFCtx) BlockP) InitEnv Analysis None m)) ->
  length (BlockStates (Memory st)) = size (getCFG CFCtx) ->
  loop fuel st <> Some Aborted.
Proof.
  induction fuel as [|fuel IH]; intros st HID Htr Hlen; [discriminate|].
  cbn [driverLoop]. destruct (step st) as [st1|R|] eqn:Hstep.
  - apply IH; try assumption.
    destruct (driverStep_slots _ _ Hstep) as (Hlen1 & _). congruence.
  - discriminate.
  - destruct (driverStep_no_violation st HID Htr Hlen Hstep).
Qed.

Lemma run_no_violation :
  (forall BlockP, blockID BlockP < size (getCFG CFCtx)) ->
  (forall BlockP (m : Mem TypeErasedLattice Environment unit),
     length (BlockStates m) = size (getCFG CFCtx) ->
     is_Some (transferBlock EnvOps SetOrder transfer CFCtx
                (getBlock (getCFG CFCtx) BlockP) InitEnv Analysis None m)) ->
  runTypeErasedDataflowAnalysis EnvOps SetOrder transfer WorklistOps CFCtx Analysis InitEnv
  <> Some Aborted.
Proof.
  intros HID Htr. unfold runTypeErasedDataflowAnalysis.
  destruct (initialState WorklistOps CFCtx Analysis InitEnv) as [st0|] eqn:Hinit.
  - apply driverLoop_no_violation; try assumption.
    now destruct (initialState_facts _ Hinit) as (_ & Hlen & _).
  - exfalso. unfold initialState in Hinit.
    destruct (decide _) as [|Hge]; [discriminate|].
    apply Hge. rewrite length_replicate. apply HID.
Qed.

Abbreviation run :=
  (runTypeErasedDataflowAnalysis EnvOps SetOrder transfer WorklistOps CFCtx Analysis InitEnv).

Lemma driverFuel_split : driverFuel = Z.to_nat MaxIterations + 1.
Proof. unfold driverFuel. lia. Qed.

(** A run that does not abort returns the timeout failure or a store
    with one slot for each block identifier of the graph, in which the
    slot of the entry block is set and the other set slots are those of
    the blocks that the loop dequeued. *)
Lemma run_returns_dequeued :
  run <> Some Aborted ->
  run = Some (Returned (Failure timeoutError))
  \/ exists Vec st0,
       initialState WorklistOps CFCtx Analysis InitEnv = Some st0
       /\ run = Some (Returned (Success Vec))
       /\ length Vec = size (getCFG CFCtx)
       /\ (exists St, Vec !! blockID (getEntry (getCFG CFCtx)) = Some (Some St))
       /\ (forall ID, Vec !! ID = Some None ->
             ID <> blockID (getEntry (getCFG CFCtx))
             /\ forall n st BlockP,
                  after n st0 = Some st ->
                  (dequeue WorklistOps (Worklist st)).1 = Some BlockP ->
                  blockID BlockP <> ID)
       /\ (forall ID St, Vec !! ID = Some (Some St) ->
             ID = blockID (getEntry (getCFG CFCtx))
             \/ exists n st BlockP,
                  after n st0 = Some st
                  /\ (dequeue WorklistOps (Worklist st)).1 = Some BlockP
                  /\ blockID BlockP = ID).
Proof.
  unfold runTypeErasedDataflowAnalysis.
  destruct (initialState WorklistOps CFCtx Analysis InitEnv) as [st0|] eqn:Hinit;
    [|intros H; now destruct H].
  destruct (initialState_facts _ Hinit) as (Hit & Hlen & Hentry).
  destruct (driverLoop_total driverFuel st0) as [Out HOut].
  { rewrite Hit, MaxIterations_value. lia. }
  { rewrite Hit. unfold driverFuel. lia. }
  rewrite HOut. intros Hna.
  destruct Out as [[Vec|E]|]; [| |now destruct Hna].
  - right. exists Vec, st0.
    destruct (driverLoop_Success _ _ _ HOut) as (HlenV & Hset & Hdq).
    split_and!; [reflexivity|reflexivity|congruence|eauto| |].
    + intros ID Hunset. split.
      * intros ->. destruct (Hset _ _ Hentry) as [St HSt]. congruence.
      * intros n st BlockP Haf HB Heq.
        destruct (Hdq _ _ _ Haf HB) as [St HSt]. rewrite Heq in HSt. congruence.
    + intros ID St HID.
      destruct (driverLoop_Success_set _ _ _ HOut _ _ HID) as [[St0 HSt0]|Hdeq].
      * left. exact (initialState_only_entry _ Hinit _ _ HSt0).
      * right. exact Hdeq.
  - left. rewrite (driverLoop_Failure _ _ _ HOut). reflexivity.
Qed.

(** C2, as amended: the driver adds one to the iteration counter for each
    block it dequeues, so after [n] full iterations the counter is [n];
    it returns the timeout failure when the counter passes the cap of
    65536, which is on the dequeue that follows exactly 65536 fully
    processed blocks, so that a run that fails has dequeued exactly
    65537 blocks; whenever a block is dequeued after 65536 full
    iterations the run fails; and the timeout is the only failure that
    the driver returns. *)
Theorem iteration_cap st0 :
  initialState WorklistOps CFCtx Analysis InitEnv = Some st0 ->
  MaxIterations = 65536%Z
  /\ (forall n st, after n st0 = Some st -> Iterations st = Z.of_nat n)
  /\ (forall E, run = Some (Returned (Failure E)) ->
        E = timeoutError
        /\ Z.of_nat (length (dequeued driverFuel st0)) = (MaxIterations + 1)%Z
        /\ exists st BlockP Worklist1,
             after (Z.to_nat MaxIterations) st0 = Some st
             /\ dequeue WorklistOps (Worklist st) = (Some BlockP, Worklist1))
  /\ (forall st BlockP Worklist1,
        after (Z.to_nat MaxIterations) st0 = Some st ->
        dequeue WorklistOps (Worklist st) = (Some BlockP, Worklist1) ->
        run = Some (Returned (Failure timeoutError))).
Proof.
  intros Hinit.
  destruct (initialState_facts _ Hinit) as (Hit & _ & _).
  assert (Hr : (0 <= Iterations st0 <= MaxIterations)%Z).
  { rewrite Hit, MaxIterations_value. lia. }
  unfold runTypeErasedDataflowAnalysis. rewrite Hinit.
  split_and!.
  - reflexivity.
  - intros n st Haf. destruct (after_counter _ _ _ Hr Haf) as [H _]. lia.
  - intros E HE. split; [exact (driverLoop_Failure _ _ _ HE)|].
    destruct (driverLoop_timeout _ _ _ Hr HE) as (st & BlockP & W1 & Haf & _ & Hd & Hlen).
    rewrite Hit, Z.sub_0_r in *. split; [exact Hlen|]. eauto.
  - intros st BlockP W1 Haf Hd.
    rewrite driverFuel_split, (driverLoop_after _ 1 _ _ Haf).
    destruct (after_counter _ _ _ Hr Haf) as [Hn _].
    cbn [driverLoop]. rewrite (driverStep_at_cap st BlockP W1); [reflexivity| |exact Hd].
    rewrite Hn, Hit. lia.
Qed.

(** C9: in an iteration of the driver that goes round again, the
    worklist is either left as the dequeue left it or extended by the
    successors of the processed block, and it is extended only if the new
    state of the block differs from what its slot held (the slot was
    unset, or the lattice elements are not equal for the plugin, or the
    environments are not equivalent) and the block is not flagged as
    containing a non-returning element; a flagged block leaves the
    worklist as the dequeue left it. *)
Theorem successors_enqueued_on_change st st' :
  step st = Continue st' ->
  exists BlockP Worklist1 NewBlockState Mem1 OldBlockState,
    dequeue WorklistOps (Worklist st) = (Some BlockP, Worklist1)
    /\ transferBlock EnvOps SetOrder transfer CFCtx (getBlock (getCFG CFCtx) BlockP)
         InitEnv Analysis None (Memory st) = Some (NewBlockState, Mem1)
    /\ BlockStates (Memory st) !! blockID BlockP = Some OldBlockState
    /\ Worklist st'
       = (if negb (stateUnchanged EnvOps Analysis OldBlockState NewBlockState)
             && negb (hasNoReturnElement (getBlock (getCFG CFCtx) BlockP))
          then enqueueSuccessors WorklistOps Worklist1 BlockP
          else Worklist1)
    /\ (stateUnchanged EnvOps Analysis OldBlockState NewBlockState = true <->
        exists Old,
          OldBlockState = Some Old
          /\ isEqualTypeErased Analysis (Lattice Old) (Lattice NewBlockState) = true
          /\ Env_equivalentTo EnvOps (Env Old) (Env NewBlockState) Analysis = true)
    /\ (hasNoReturnElement (getBlock (getCFG CFCtx) BlockP) = true ->
        Worklist st' = Worklist1)
    /\ (stateUnchanged EnvOps Analysis OldBlockState NewBlockState = true ->
        Worklist st' = Worklist1).
Proof.
  intros H.
  destruct (driverStep_Continue _ _ H)
    as (BlockP & Worklist1 & New & Mem1 & Old & Hdq & _ & _ & Htr & _ & Hold & _ & HW).
  exists BlockP, Worklist1, New, Mem1, Old.
  split_and!; try assumption.
  - rewrite HW. destruct (stateUnchanged _ _ _ _), (hasNoReturnElement _); reflexivity.
  - apply stateUnchanged_true.
  - intros Hn. rewrite HW, Hn, orb_true_r. reflexivity.
  - intros Hu. rewrite HW, Hu. reflexivity.
Qed.

(** C10: computing the candidate state of a block (the input state and
    the transfer of all the elements, whatever callback is passed) leaves
    the vector of block states as it was; and across an iteration of the
    driver the vector keeps its length, every slot other than that of the
    dequeued block is unchanged, and the vector as a whole is either
    unchanged or changed by the one write of the new state to the slot of
    the dequeued block. *)
Theorem block_states_frame :
  (forall (Obs : Type) (HandleTransferredStmt : Handler TypeErasedLattice Environment Obs)
          (Block : CFGBlock) (m m' : Mem TypeErasedLattice Environment Obs) St',
     transferBlock EnvOps SetOrder transfer CFCtx Block InitEnv Analysis
       HandleTransferredStmt m = Some (St', m') ->
     BlockStates m' = BlockStates m)
  /\ (forall st st',
        step st = Continue st' ->
        exists BlockP Worklist1,
          dequeue WorklistOps (Worklist st) = (Some BlockP, Worklist1)
          /\ length (BlockStates (Memory st')) = length (BlockStates (Memory st))
          /\ (forall j, j <> blockID BlockP ->
                BlockStates (Memory st') !! j = BlockStates (Memory st) !! j)
          /\ (BlockStates (Memory st') = BlockStates (Memory st)
              \/ exists NewBlockState,
                   BlockStates (Memory st')
                   = <[blockID BlockP := Some NewBlockState]> (BlockStates (Memory st)))).
Proof.
  split.
  - intros Obs Handle Block m m' St' H. exact (transferBlock_frame _ _ _ _ _ _ _ _ _ _ _ H).
  - intros st st' H.
    destruct (driverStep_Continue _ _ H)
      as (BlockP & Worklist1 & New & Mem1 & Old & Hdq & _ & _ & _ & Hframe & _ & Hmem & _).
    exists BlockP, Worklist1. rewrite Hmem.
    destruct (stateUnchanged _ _ _ _); simpl; rewrite Hframe.
    + split_and!; [assumption|reflexivity|reflexivity|now left].
    + split_and!; [assumption|apply length_insert| |right; eauto].
      intros j Hne. apply list_lookup_insert_ne. congruence.
Qed.

End DriverProperties.

(** ** The properties on the examples *)

Lemma exCounting_converges :
  exLattices (exRun exDtorCtx exCounting)
  = [Some 0; Some 10; Some 30; Some 40; Some 30; Some 30; Some 90; Some 90].
Proof. vm_compute. reflexivity. Qed.

Lemma exFlipping_times_out :
  exRun exLoopCtx exFlipping = Some (Returned (Failure timeoutError)).
Proof. vm_compute. reflexivity. Qed.

Lemma exLoopInit_initial : exInitial exLoopCtx exFlipping = Some exLoopInit.
Proof. reflexivity. Qed.

Lemma exFlipping_dequeues :
  Z.of_nat (length (dequeuedBlocks exEnvOps exSetOrder exTransfer exWorklistOps
                      exLoopCtx exFlipping exEmptyEnv driverFuel exLoopInit))
  = 65537%Z.
Proof. vm_compute. reflexivity. Qed.

(** The sentence on the cap, as worded, fails on the loop that never
    settles: the run reports the timeout and has dequeued 65537 blocks. *)
Lemma cap_dequeues_counterexample :
  ~ failsAfterCapDequeues exEnvOps exSetOrder exTransfer exWorklistOps
      exLoopCtx exFlipping exEmptyEnv.
Proof.
  intros H. specialize (H exLoopInit exLoopInit_initial exFlipping_times_out).
  rewrite exFlipping_dequeues in H. discriminate H.
Qed.

Lemma iteration_cap_witness :
  exInitial exLoopCtx exFlipping = Some exLoopInit
  /\ Z.of_nat (length (dequeuedBlocks exEnvOps exSetOrder exTransfer exWorklistOps
                         exLoopCtx exFlipping exEmptyEnv driverFuel exLoopInit))
     = (MaxIterations + 1)%Z.
Proof.
  split; [reflexivity|].
  destruct (iteration_cap exEnvOps exSetOrder exTransfer exWorklistOps
              exLoopCtx exFlipping exEmptyEnv exLoopInit eq_refl)
    as (_ & _ & Hfail & _).
  destruct (Hfail timeoutError) as (_ & Hlen & _); [|exact Hlen].
  vm_compute. reflexivity.
Defined.

Lemma temporary_dtor_pruning_witness :
  isTemporaryDtorsBranch (getTerminator (getBlock exDtorCFG 4)) = true
  /\ head (succs (getBlock exDtorCFG 4)) = Some (Some 5)
  /\ hasNoReturnElement (getBlock (getCFG exDtorCtx) 5) = true
  /\ getTerminatorStmt (getBlock exDtorCFG 4) = Some 30
  /\ getStmtToBlock exDtorCtx !! 30 = Some 3
  /\ predIDsInRange exDtorCtx (length exDtorStore)
       (filter (λ Pred, Pred ≠ Some 3) (preds (getBlock exDtorCFG 4))) = true
  /\ computeBlockInputState exEnvOps exSetOrder exDtorCtx exDtorStore
       (getBlock exDtorCFG 4) exEmptyEnv exCounting
     = Some (exState 30).
Proof.
  repeat (split; [reflexivity|]).
  destruct (temporary_dtor_pruning exEnvOps exSetOrder exDtorCtx exDtorStore
              (getBlock exDtorCFG 4) exEmptyEnv exCounting 5 30 3
              eq_refl eq_refl eq_refl eq_refl eq_refl eq_refl)
    as (Preds & HP & _ & HC & _).
  rewrite HC. vm_compute in HP. injection HP as <-. reflexivity.
Defined.

Lemma transferCFGInitializer_unresolved_witness :
  getThisPointeeStorageLocation exEnvOps (Env (mkState 90 exEnv60)) = Some 0
  /\ isAggregateStorageLocation exEnvOps 0 = true
  /\ getInitializer exInitUnresolved
     = Some (mkCtorInit (Some 61) (Some (mkFieldDecl 2 false)))
  /\ getInit (mkCtorInit (Some 61) (Some (mkFieldDecl 2 false))) = Some 61
  /\ getStorageLocation exEnvOps (Env (mkState 90 exEnv60)) 61 SkipPast_Reference = None
  /\ transferCFGInitializer exEnvOps exInitUnresolved (mkState 90 exEnv60)
     = Some (mkState 90 exEnv60).
Proof.
  repeat (split; [reflexivity|]).
  exact (proj1 (transferCFGInitializer_unresolved exEnvOps exTransfer
                  (Obs := unit) exInitUnresolved (mkState 90 exEnv60) 0
                  (mkCtorInit (Some 61) (Some (mkFieldDecl 2 false))) 61
                  eq_refl eq_refl eq_refl eq_refl (or_introl eq_refl))).
Defined.

Lemma transferCFGInitializer_resolved_witness :
  getThisPointeeStorageLocation exEnvOps (Env (mkState 90 exEnv60)) = Some 0
  /\ isAggregateStorageLocation exEnvOps 0 = true
  /\ getInitializer exInitRef
     = Some (mkCtorInit (Some 60) (Some (mkFieldDecl 1 true)))
  /\ getInit (mkCtorInit (Some 60) (Some (mkFieldDecl 1 true))) = Some 60
  /\ getStorageLocation exEnvOps (Env (mkState 90 exEnv60)) 60 SkipPast_Reference
     = Some 160
  /\ getValue exEnvOps (Env (mkState 90 exEnv60)) 160 = Some (IntVal 60)
  /\ getMember (mkCtorInit (Some 60) (Some (mkFieldDecl 1 true)))
     = Some (mkFieldDecl 1 true)
  /\ getChild exEnvOps 0 (mkFieldDecl 1 true) = Some 2
  /\ exists St',
       transferCFGInitializer exEnvOps exInitRef (mkState 90 exEnv60) = Some St'
       /\ Lattice St' = 90
       /\ LocToVal (Env St') !! 2 = Some (RefVal 160)
       /\ Owned (Env St') = [RefVal 160].
Proof.
  repeat (split; [reflexivity|]).
  destruct (transferCFGInitializer_resolved exEnvOps exInitRef (mkState 90 exEnv60) 0
              (mkCtorInit (Some 60) (Some (mkFieldDecl 1 true))) 60 160 (IntVal 60)
              (mkFieldDecl 1 true) 2
              eq_refl eq_refl eq_refl eq_refl eq_refl eq_refl eq_refl eq_refl)
    as (St' & HT & HL & HE & _).
  exists St'. rewrite HE. split_and!; [exact HT|exact HL|reflexivity|reflexivity].
Defined.

Lemma exDtorNext_step : exStep exDtorCtx exCounting exDtorInit = Continue exDtorNext.
Proof. reflexivity. Qed.

Lemma exInitPlain_sets_member :
  transferCFGInitializer exEnvOps exInitPlain (mkState 90 exEnv60)
  = Some (mkState 90 (setValue exEnvOps exEnv60 1 (IntVal 60))).
Proof. reflexivity. Qed.

Lemma exLog_in_order :
  transferBlock exEnvOps exSetOrder exTransfer exLoopCtx
    (mkBlock 1 [Statement (mkCFGStmt (Some 10)); Statement (mkCFGStmt (Some 20))]
             [] [] false exPlainTerminator)
    exEmptyEnv exFlipping exLog (mkMem exLoopStore [])
  = Some (mkState 0 exEmptyEnv,
          mkMem exLoopStore [(mkCFGStmt (Some 10), mkState 1 exEmptyEnv);
                             (mkCFGStmt (Some 20), mkState 0 exEmptyEnv)]).
Proof. reflexivity. Qed.

Lemma successors_enqueued_on_change_witness :
  exStep exDtorCtx exCounting exDtorInit = Continue exDtorNext
  /\ exists BlockP Worklist1,
       dequeue exWorklistOps (Worklist exDtorInit) = (Some BlockP, Worklist1)
       /\ (hasNoReturnElement (getBlock (getCFG exDtorCtx) BlockP) = true ->
           Worklist exDtorNext = Worklist1).
Proof.
  split; [reflexivity|].
  destruct (successors_enqueued_on_change exEnvOps exSetOrder exTransfer
              exWorklistOps exDtorCtx exCounting exEmptyEnv exDtorInit exDtorNext
              eq_refl)
    as (BlockP & Worklist1 & _ & _ & _ & Hdq & _ & _ & _ & _ & Hnr & _).
  exists BlockP, Worklist1. split; assumption.
Defined.

Lemma block_states_frame_witness :
  exStep exDtorCtx exCounting exDtorInit = Continue exDtorNext
  /\ exists BlockP Worklist1,
       dequeue exWorklistOps (Worklist exDtorInit) = (Some BlockP, Worklist1)
       /\ forall j, j <> getBlockID (getBlock (getCFG exDtorCtx) BlockP) ->
            BlockStates (Memory exDtorNext) !! j = BlockStates (Memory exDtorInit) !! j.
Proof.
  split; [reflexivity|].
  destruct (proj2 (block_states_frame exEnvOps exSetOrder exTransfer exWorklistOps
                     exDtorCtx exCounting exEmptyEnv)
              exDtorInit exDtorNext eq_refl)
    as (BlockP & Worklist1 & Hdq & _ & Hother & _).
  exists BlockP, Worklist1. split; assumption.
Defined.

(** * Further properties of the predecessor join *)

Section JoinOrder.

Context {TypeErasedLattice Environment StorageLocation Value : Type}.

Abbreviation State := (TypeErasedDataflowAnalysisState TypeErasedLattice Environment).
Abbreviation Store := (list (option State)).
Abbreviation Analysis_t := (TypeErasedDataflowAnalysis TypeErasedLattice Environment).

Variable EnvOps : EnvironmentOps TypeErasedLattice Environment StorageLocation Value.

Implicit Types (CFCtx : ControlFlowContext) (BlockStates : Store)
  (Analysis : Analysis_t) (Block : CFGBlock) (InitEnv : Environment)
  (Preds : list (option BlockPtr)) (SetOrder : DenseSetOrder).

Lemma predecessorSet_NoDup CFCtx Block Preds :
  predecessorSet CFCtx Block = Some Preds -> NoDup Preds.
Proof.
  unfold predecessorSet, DenseSet_erase, DenseSet_insert_range. intros H.
  assert (HN : NoDup (remove_dups (preds Block))) by apply NoDup_remove_dups.
  destruct (isTemporaryDtorsBranch _); [|now injection H as <-].
  destruct (head (succs Block)) as [[Succ|]|]; simpl in H; try discriminate.
  destruct (hasNoReturnElement _); [|now injection H as <-].
  destruct (getTerminatorStmt Block) as [TermStmt|]; simpl in H; try discriminate.
  destruct (getStmtToBlock CFCtx !! TermStmt) as [StmtBlock|]; simpl in H;
    try discriminate.
  injection H as <-. now apply NoDup_filter.
Qed.

(** X1: a predecessor is joined at most once, however many edges lead
    from it to the block: the members that contribute to the input state
    are pairwise distinct, and there are no more of them than there are
    distinct predecessors. *)
Theorem contributors_NoDup SetOrder CFCtx BlockStates Block Preds :
  predecessorSet CFCtx Block = Some Preds ->
  NoDup (contributors CFCtx BlockStates (iterate SetOrder Preds))
  /\ length (contributions CFCtx BlockStates (iterate SetOrder Preds))
     <= length (remove_dups (preds Block)).
Proof.
  intros HP. pose proof (predecessorSet_NoDup _ _ _ HP) as HN.
  assert (HNI : NoDup (iterate SetOrder Preds)).
  { now rewrite (iterate_perm SetOrder Preds). }
  split.
  - unfold contributors. now apply NoDup_filter.
  - pose proof (contributions_match CFCtx BlockStates (iterate SetOrder Preds)) as HF.
    apply Forall2_length in HF. rewrite <- HF.
    transitivity (length (iterate SetOrder Preds)).
    + unfold contributors. apply length_filter.
    + rewrite (iterate_perm SetOrder Preds).
      apply submseteq_length, NoDup_submseteq; [exact HN|].
      intros Pred Hin. apply elem_of_remove_dups.
      exact (predecessorSet_subset _ _ _ HP _ Hin).
Qed.

(** Folding the join over the states is the same for two orders of the
    states when the join is associative and commutative. *)
Lemma joinAll_Permutation Analysis InitEnv (l1 l2 : list State) :
  (forall a b c, joinStates EnvOps Analysis (joinStates EnvOps Analysis a b) c
                 = joinStates EnvOps Analysis a (joinStates EnvOps Analysis b c)) ->
  (forall a b, joinStates EnvOps Analysis a b = joinStates EnvOps Analysis b a) ->
  l1 ≡ₚ l2 ->
  joinAll EnvOps Analysis InitEnv l1 = joinAll EnvOps Analysis InitEnv l2.
Proof.
  intros Hassoc Hcomm.
  assert (Hrc : forall a x y,
             joinStates EnvOps Analysis (joinStates EnvOps Analysis a x) y
             = joinStates EnvOps Analysis (joinStates EnvOps Analysis a y) x).
  { intros a x y. rewrite !Hassoc. f_equal. apply Hcomm. }
  assert (Hfold : forall (l l' : list State), l ≡ₚ l' ->
             forall a, fold_left (joinStates EnvOps Analysis) l a
                       = fold_left (joinStates EnvOps Analysis) l' a).
  { induction 1 as [|x l l' _ IH|x y l|l l' l'' _ IH1 _ IH2]; intros a; simpl.
    - reflexivity.
    - apply IH.
    - now rewrite Hrc.
    - now rewrite IH1. }
  induction 1 as [|x l l' HP _|x y l|l l' l'' _ IH1 _ IH2].
  - reflexivity.
  - simpl. now apply Hfold.
  - simpl. now rewrite (Hcomm y x).
  - now rewrite IH1.
Qed.

Lemma contributions_Permutation CFCtx BlockStates Preds Preds' :
  Preds ≡ₚ Preds' ->
  contributions CFCtx BlockStates Preds ≡ₚ contributions CFCtx BlockStates Preds'.
Proof.
  intros HP. unfold contributions, contributors. now rewrite HP.
Qed.

(** X2: when the join of states (the lattice join of the plugin with the
    join of the environment) is associative and commutative, the input
    state of a block does not depend on the order in which the set of
    predecessors is iterated. *)
Theorem computeBlockInputState_order_irrelevant SetOrder1 SetOrder2
    CFCtx BlockStates Block InitEnv Analysis :
  (forall a b c, joinStates EnvOps Analysis (joinStates EnvOps Analysis a b) c
                 = joinStates EnvOps Analysis a (joinStates EnvOps Analysis b c)) ->
  (forall a b, joinStates EnvOps Analysis a b = joinStates EnvOps Analysis b a) ->
  predIDsInRange CFCtx (length BlockStates) (preds Block) = true ->
  computeBlockInputState EnvOps SetOrder1 CFCtx BlockStates Block InitEnv Analysis
  = computeBlockInputState EnvOps SetOrder2 CFCtx BlockStates Block InitEnv Analysis.
Proof.
  intros Hassoc Hcomm HR.
  destruct (predecessorSet CFCtx Block) as [Preds|] eqn:HP.
  - assert (HR' : predIDsInRange CFCtx (length BlockStates) Preds = true).
    { eapply predIDsInRange_subset; [|exact HR].
      exact (predecessorSet_subset _ _ _ HP). }
    rewrite (computeBlockInputState_joinAll EnvOps SetOrder1 _ _ _ _ _ Preds HP HR').
    rewrite (computeBlockInputState_joinAll EnvOps SetOrder2 _ _ _ _ _ Preds HP HR').
    f_equal. apply joinAll_Permutation; try assumption.
    apply contributions_Permutation.
    now rewrite (iterate_perm SetOrder1 Preds), (iterate_perm SetOrder2 Preds).
  - unfold computeBlockInputState. rewrite HP. reflexivity.
Qed.

(** X3: at a merge of two distinct predecessors whose slots are both set
    (and neither of which is flagged), the input state is the join of the
    two stored states taken in one of the two orders; which one depends
    on the order of the set alone. *)
Theorem computeBlockInputState_two_preds SetOrder CFCtx BlockStates Block
    InitEnv Analysis P Q StP StQ :
  isTemporaryDtorsBranch (getTerminator Block) = false ->
  preds Block = [Some P; Some Q] ->
  P <> Q ->
  hasNoReturnElement (getBlock (getCFG CFCtx) P) = false ->
  hasNoReturnElement (getBlock (getCFG CFCtx) Q) = false ->
  BlockStates !! getBlockID (getBlock (getCFG CFCtx) P) = Some (Some StP) ->
  BlockStates !! getBlockID (getBlock (getCFG CFCtx) Q) = Some (Some StQ) ->
  computeBlockInputState EnvOps SetOrder CFCtx BlockStates Block InitEnv Analysis
  = Some (joinStates EnvOps Analysis StP StQ)
  \/ computeBlockInputState EnvOps SetOrder CFCtx BlockStates Block InitEnv Analysis
     = Some (joinStates EnvOps Analysis StQ StP).
Proof.
  intros HT Hpreds Hne HnP HnQ HsP HsQ.
  assert (HP : predecessorSet CFCtx Block = Some [Some P; Some Q]).
  { unfold predecessorSet, DenseSet_insert_range. rewrite HT, Hpreds.
    f_equal. cbn. destruct (decide_rel _ _ _) as [Hin|_]; [|reflexivity].
    apply list_elem_of_singleton in Hin. congruence. }
  assert (HR : predIDsInRange CFCtx (length BlockStates) [Some P; Some Q] = true).
  { simpl. rewrite HnP, HnQ. simpl.
    apply lookup_lt_Some in HsP, HsQ.
    rewrite !bool_decide_eq_true_2 by assumption. reflexivity. }
  rewrite (computeBlockInputState_joinAll EnvOps SetOrder _ _ _ _ _ _ HP HR).
  destruct (Permutation_length_2_inv (Permutation_sym (iterate_perm SetOrder [Some P; Some Q])))
    as [-> | ->].
  - left. rewrite (contributions_keep _ _ _ StP) by assumption.
    rewrite (contributions_keep _ _ _ StQ) by assumption. reflexivity.
  - right. rewrite (contributions_keep _ _ _ StQ) by assumption.
    rewrite (contributions_keep _ _ _ StP) by assumption. reflexivity.
Qed.

(** X4: a block with exactly one surviving predecessor takes the stored
    state of that predecessor as it is; no join is applied to it. *)
Theorem computeBlockInputState_single SetOrder CFCtx BlockStates Block
    InitEnv Analysis Preds P St :
  predecessorSet CFCtx Block = Some Preds ->
  predIDsInRange CFCtx (length BlockStates) (preds Block) = true ->
  Some P ∈ Preds ->
  hasNoReturnElement (getBlock (getCFG CFCtx) P) = false ->
  BlockStates !! getBlockID (getBlock (getCFG CFCtx) P) = Some (Some St) ->
  (forall Pred, Pred ∈ Preds -> Pred <> Some P ->
     survives CFCtx BlockStates Pred = false) ->
  computeBlockInputState EnvOps SetOrder CFCtx BlockStates Block InitEnv Analysis
  = Some St.
Proof.
  intros HP HR Hin Hn Hs Hothers.
  assert (HR' : predIDsInRange CFCtx (length BlockStates) Preds = true).
  { eapply predIDsInRange_subset; [|exact HR].
    exact (predecessorSet_subset _ _ _ HP). }
  rewrite (computeBlockInputState_joinAll EnvOps SetOrder _ _ _ _ _ _ HP HR').
  assert (HN : NoDup (iterate SetOrder Preds)).
  { rewrite (iterate_perm SetOrder Preds). exact (predecessorSet_NoDup _ _ _ HP). }
  assert (Hin' : Some P ∈ iterate SetOrder Preds) by now rewrite elem_of_iterate.
  assert (Hothers' : forall Pred, Pred ∈ iterate SetOrder Preds -> Pred <> Some P ->
                       survives CFCtx BlockStates Pred = false).
  { intros Pred HPred. rewrite elem_of_iterate in HPred. now apply Hothers. }
  clear Hin Hothers HR' HP HR.
  induction (iterate SetOrder Preds) as [|Pred Rest IH]; [now apply elem_of_nil in Hin'|].
  apply NoDup_cons in HN as [Hnotin HN].
  destruct (decide (Pred = Some P)) as [->|Hne].
  - rewrite (contributions_keep _ _ _ St) by assumption.
    unfold contributions. rewrite contributors_none; [reflexivity|].
    intros Q HQ. apply Hothers'; [now right|]. intros ->. contradiction.
  - rewrite contributions_skip by (apply Hothers'; [left|assumption]).
    apply IH; try assumption.
    + apply elem_of_cons in Hin' as [Heq|Hin']; [congruence|assumption].
    + intros Q HQ. apply Hothers'. now right.
Qed.

End JoinOrder.

(** * Further properties of the transfer of a block *)

Section Observer.

Context {TypeErasedLattice Environment StorageLocation Value : Type}.

Abbreviation State := (TypeErasedDataflowAnalysisState TypeErasedLattice Environment).
Abbreviation Store := (list (option State)).
Abbreviation Analysis_t := (TypeErasedDataflowAnalysis TypeErasedLattice Environment).

Variable EnvOps : EnvironmentOps TypeErasedLattice Environment StorageLocation Value.
Variable SetOrder : DenseSetOrder.
Variable transfer :
  (Stmt -> option Environment) -> Stmt -> Environment -> option Environment.

Implicit Types (CFCtx : ControlFlowContext) (Analysis : Analysis_t)
  (Block : CFGBlock) (InitEnv : Environment) (St : State).

Lemma transferElement_state_only {Obs1 Obs2 : Type} CFCtx Analysis
    (H1 : Handler TypeErasedLattice Environment Obs1)
    (H2 : Handler TypeErasedLattice Environment Obs2)
    Element St (m1 : Mem TypeErasedLattice Environment Obs1)
    (m2 : Mem TypeErasedLattice Environment Obs2) :
  BlockStates m1 = BlockStates m2 ->
  fst <$> transferElement EnvOps transfer CFCtx Analysis H1 Element St m1
  = fst <$> transferElement EnvOps transfer CFCtx Analysis H2 Element St m2.
Proof.
  intros Hm. destruct Element as [CfgStmt|CfgInit|K]; simpl.
  - destruct (getStmt CfgStmt) as [S|] eqn:HS.
    + rewrite !(transferCFGStmt_run transfer _ _ _ _ _ _ S HS), Hm.
      destruct (if applyBuiltinTransfer Analysis then _ else _); reflexivity.
    + unfold transferCFGStmt, mbind, M_bind, assertSome. rewrite HS. reflexivity.
  - destruct (applyBuiltinTransfer Analysis); [|reflexivity].
    unfold assertSome. destruct (transferCFGInitializer _ _ _); reflexivity.
  - reflexivity.
Qed.

Lemma transferElements_state_only {Obs1 Obs2 : Type} CFCtx Analysis
    (H1 : Handler TypeErasedLattice Environment Obs1)
    (H2 : Handler TypeErasedLattice Environment Obs2) Es :
  forall St (m1 : Mem TypeErasedLattice Environment Obs1)
         (m2 : Mem TypeErasedLattice Environment Obs2),
  BlockStates m1 = BlockStates m2 ->
  fst <$> transferElements EnvOps transfer CFCtx Analysis H1 Es St m1
  = fst <$> transferElements EnvOps transfer CFCtx Analysis H2 Es St m2.
Proof.
  induction Es as [|Element Rest IH]; intros St m1 m2 Hm; [reflexivity|].
  cbn [transferElements]. unfold mbind, M_bind.
  pose proof (transferElement_state_only CFCtx Analysis H1 H2 Element St m1 m2 Hm) as HE.
  destruct (transferElement _ _ _ _ H1 Element St m1) as [[St1 m1']|] eqn:E1;
  destruct (transferElement _ _ _ _ H2 Element St m2) as [[St2 m2']|] eqn:E2;
    simpl in HE; try discriminate; [|reflexivity].
  injection HE as <-. apply IH.
  apply transferElement_frame in E1, E2. congruence.
Qed.

(** X5: the callback is an observer only: the state that [transferBlock]
    returns with a callback, on any state of the caller, is the state it
    returns with the null callback on a memory with the same block
    states, and it fails in the one case exactly when it fails in the
    other. *)
Theorem transferBlock_observer_irrelevant {Obs1 Obs2 : Type} CFCtx Block InitEnv
    Analysis (H1 : Handler TypeErasedLattice Environment Obs1)
    (m1 : Mem TypeErasedLattice Environment Obs1)
    (m2 : Mem TypeErasedLattice Environment Obs2) :
  BlockStates m1 = BlockStates m2 ->
  fst <$> transferBlock EnvOps SetOrder transfer CFCtx Block InitEnv Analysis H1 m1
  = fst <$> transferBlock EnvOps SetOrder transfer CFCtx Block InitEnv Analysis None m2.
Proof.
  intros Hm. rewrite !transferBlock_run, Hm.
  destruct (computeBlockInputState _ _ _ _ _ _ _); [|reflexivity].
  now apply transferElements_state_only.
Qed.

(** X6: with a callback, [transferBlock] calls it once for each statement
    element of the block, in the order of the elements, and for no other
    element: the state of the caller after the block is the callback
    folded over a list of events whose statements are the statement
    elements of the block in order. *)
Theorem transferBlock_callback_trace {Obs : Type} CFCtx Block InitEnv Analysis
    (Handle : CFGStmt -> State -> Obs -> Obs)
    (m m' : Mem TypeErasedLattice Environment Obs) St' :
  transferBlock EnvOps SetOrder transfer CFCtx Block InitEnv Analysis (Some Handle) m
  = Some (St', m') ->
  exists Events : list (CFGStmt * State),
    fst <$> Events = statementsOf (Elements Block)
    /\ CallerState m'
       = fold_left (λ Caller Event, Handle Event.1 Event.2 Caller) Events (CallerState m).
Proof.
  rewrite transferBlock_run.
  destruct (computeBlockInputState _ _ _ _ _ _ _) as [St0|]; [|discriminate].
  generalize (Elements Block) as Es. intros Es. revert St0 m.
  induction Es as [|Element Rest IH]; intros St0 m.
  - intros [= <- <-]. exists []. split; reflexivity.
  - cbn [transferElements]. unfold mbind, M_bind.
    destruct (transferElement _ _ _ _ _ Element St0 m) as [[St1 m1]|] eqn:HE;
      [|discriminate].
    intros HRest. destruct (IH _ _ HRest) as (Events & Hfst & Hcaller).
    destruct Element as [CfgStmt|CfgInit|K]; simpl in HE.
    + destruct (getStmt CfgStmt) as [S|] eqn:HS.
      * rewrite (transferCFGStmt_run transfer _ _ _ _ _ _ S HS) in HE.
        destruct (if applyBuiltinTransfer Analysis then _ else _) as [Env1|];
          [|discriminate].
        simpl in HE. injection HE as <- <-.
        eexists ((CfgStmt, _) :: Events). split.
        -- cbn. now rewrite Hfst.
        -- exact Hcaller.
      * unfold transferCFGStmt, mbind, M_bind, assertSome in HE. rewrite HS in HE.
        discriminate.
    + exists Events. split; [exact Hfst|].
      destruct (applyBuiltinTransfer Analysis).
      * unfold assertSome in HE.
        destruct (transferCFGInitializer _ _ _); [|discriminate].
        now injection HE as _ <-.
      * now injection HE as _ <-.
    + exists Events. split; [exact Hfst|]. now injection HE as _ <-.
Qed.

(** X7: an element that is not a statement never changes the lattice
    element, never touches the memory (neither the block states nor the
    state of the caller), and leaves the whole state as it is when the
    plugin has not asked for the built-in transfer. *)
Theorem transferElement_not_statement {Obs : Type} CFCtx Analysis
    (HandleTransferredStmt : Handler TypeErasedLattice Environment Obs)
    Element St St' (m m' : Mem TypeErasedLattice Environment Obs) :
  isStatement Element = false ->
  transferElement EnvOps transfer CFCtx Analysis HandleTransferredStmt Element St m
  = Some (St', m') ->
  m' = m
  /\ Lattice St' = Lattice St
  /\ (applyBuiltinTransfer Analysis = false -> St' = St).
Proof.
  destruct Element as [CfgStmt|CfgInit|K]; [discriminate| |]; intros _; simpl.
  - destruct (applyBuiltinTransfer Analysis).
    + unfold assertSome.
      destruct (transferCFGInitializer EnvOps CfgInit St) as [St1|] eqn:HI;
        [|discriminate].
      intros [= <- <-]. split_and!; [reflexivity| |discriminate].
      unfold transferCFGInitializer in HI.
      destruct (getThisPointeeStorageLocation _ _) as [ThisPointee|]; [|discriminate].
      simpl in HI. destruct (isAggregateStorageLocation _ _); [|discriminate].
      simpl in HI. destruct (getInitializer CfgInit) as [CtorInit|]; [|discriminate].
      simpl in HI. destruct (getInit CtorInit) as [InitStmt|]; [|discriminate].
      simpl in HI.
      destruct (getStorageLocation _ _ _ _) as [InitStmtLoc|]; [|now injection HI as <-].
      destruct (getValue _ _ _) as [InitStmtVal|]; [|now injection HI as <-].
      destruct (getMember CtorInit) as [Member|]; [|discriminate].
      simpl in HI.
      destruct (isReferenceType Member), (getChild _ _ _); try discriminate;
        now injection HI as <-.
    + intros [= <- <-]. split_and!; reflexivity.
  - intros [= <- <-]. split_and!; reflexivity.
Qed.

End Observer.

(** * Further properties of the driver *)

Section DriverMore.

Context {TypeErasedLattice Environment StorageLocation Value WorklistT : Type}.

Abbreviation State := (TypeErasedDataflowAnalysisState TypeErasedLattice Environment).
Abbreviation Store := (list (option State)).
Abbreviation Analysis_t := (TypeErasedDataflowAnalysis TypeErasedLattice Environment).
Abbreviation DriverState_t := (@DriverState TypeErasedLattice Environment WorklistT).

Variable EnvOps : EnvironmentOps TypeErasedLattice Environment StorageLocation Value.
Variable SetOrder : DenseSetOrder.
Variable transfer :
  (Stmt -> option Environment) -> Stmt -> Environment -> option Environment.
Variable WorklistOps : ForwardDataflowWorklistOps WorklistT.

Variable CFCtx : ControlFlowContext.
Variable Analysis : Analysis_t.
Variable InitEnv : Environment.

Abbreviation step := (driverStep EnvOps SetOrder transfer WorklistOps CFCtx Analysis InitEnv).
Abbreviation loop := (driverLoop EnvOps SetOrder transfer WorklistOps CFCtx Analysis InitEnv).
Abbreviation after := (afterIterations EnvOps SetOrder transfer WorklistOps CFCtx Analysis InitEnv).
Abbreviation dequeued := (dequeuedBlocks EnvOps SetOrder transfer WorklistOps CFCtx Analysis InitEnv).
Abbreviation blockID BlockP := (getBlockID (getBlock (getCFG CFCtx) BlockP)).
Abbreviation run :=
  (runTypeErasedDataflowAnalysis EnvOps SetOrder transfer WorklistOps CFCtx Analysis InitEnv).

Implicit Types (st : DriverState_t) (Vec : Store).

(** X8: once an iteration has processed a block, the environment of every
    statement of that block can be read through [getEnvironment], and it
    is the environment of the state now stored for the block. *)
Theorem getEnvironment_after_step st st' BlockP S :
  step st = Continue st' ->
  (dequeue WorklistOps (Worklist st)).1 = Some BlockP ->
  getStmtToBlock CFCtx !! S = Some BlockP ->
  exists St',
    BlockStates (Memory st') !! blockID BlockP = Some (Some St')
    /\ getEnvironment CFCtx (BlockStates (Memory st')) S = Some (Env St').
Proof.
  intros Hstep HB HS.
  destruct (driverStep_slots _ _ _ _ _ _ _ _ _ Hstep) as (_ & _ & Hdq).
  destruct (Hdq _ HB) as [St' HSt']. exists St'. split; [exact HSt'|].
  unfold getEnvironment. rewrite HS. simpl. rewrite HSt'. reflexivity.
Qed.

(** X9: an iteration changes what [getEnvironment] answers only for the
    statements that lie in a block with the identifier of the block it
    processed; for a statement of any other block, and for a statement
    without a block, the answer is the same before and after. *)
Theorem getEnvironment_step_frame st st' BlockP S :
  step st = Continue st' ->
  (dequeue WorklistOps (Worklist st)).1 = Some BlockP ->
  (forall B, getStmtToBlock CFCtx !! S = Some B -> blockID B <> blockID BlockP) ->
  getEnvironment CFCtx (BlockStates (Memory st')) S
  = getEnvironment CFCtx (BlockStates (Memory st)) S.
Proof.
  intros Hstep HB Hother. unfold getEnvironment.
  destruct (getStmtToBlock CFCtx !! S) as [B|]; [|reflexivity]. simpl.
  rewrite (driverStep_other_slots _ _ _ _ _ _ _ _ _ _ Hstep HB _ (Hother B eq_refl)).
  reflexivity.
Qed.

Lemma driverStep_Return_Success st Vec :
  step st = Return (Success Vec) ->
  (dequeue WorklistOps (Worklist st)).1 = None /\ Vec = BlockStates (Memory st).
Proof.
  unfold driverStep.
  destruct (dequeue WorklistOps (Worklist st)) as [[BlockP|] Worklist1].
  - destruct (MaxIterations <? _)%Z; [discriminate|].
    destruct (BlockStates (Memory st) !! _); [|discriminate].
    destruct (transferBlock _ _ _ _ _ _ _ _ _) as [[New Mem1]|]; [|discriminate].
    destruct (BlockStates Mem1 !! _); [|discriminate].
    destruct (stateUnchanged _ _ _ _); [discriminate|].
    destruct (hasNoReturnElement _); discriminate.
  - intros [= <-]. split; reflexivity.
Qed.

Lemma driverStep_empty st :
  (dequeue WorklistOps (Worklist st)).1 = None ->
  step st = Return (Success (BlockStates (Memory st))).
Proof.
  unfold driverStep. destruct (dequeue WorklistOps (Worklist st)) as [[BlockP|] W1];
    [discriminate|reflexivity].
Qed.

Lemma driverLoop_Success_inv fuel : forall st Vec,
  loop fuel st = Some (Returned (Success Vec)) ->
  exists n st',
    after n st = Some st'
    /\ (dequeue WorklistOps (Worklist st')).1 = None
    /\ BlockStates (Memory st') = Vec
    /\ length (dequeued fuel st) = n.
Proof.
  induction fuel as [|fuel IH]; intros st Vec; [discriminate|].
  cbn [driverLoop dequeuedBlocks].
  destruct (step st) as [st1|R|] eqn:Hstep; [| |discriminate].
  - intros Hloop. destruct (IH _ _ Hloop) as (n & st' & Haf & Hd & HV & Hlen).
    destruct (driverStep_Continue _ _ _ _ _ _ _ _ _ Hstep)
      as (BlockP & Worklist1 & _ & _ & _ & Hdq & _).
    exists (S n), st'. cbn [afterIterations]. rewrite Hstep, Hdq. cbn.
    split_and!; try assumption. now rewrite Hlen.
  - intros [= ->]. apply driverStep_Return_Success in Hstep as [Hd ->].
    exists 0, st. rewrite Hd. split_and!; reflexivity.
Qed.

(** X10: the run returns a store exactly when the worklist is found empty
    after some number of full iterations, and the store it returns is the
    one of that moment; such a run has dequeued as many blocks as it made
    iterations, and at most 65536. *)
Theorem run_success_iff st0 Vec :
  initialState WorklistOps CFCtx Analysis InitEnv = Some st0 ->
  (run = Some (Returned (Success Vec)) <->
   exists n st,
     after n st0 = Some st
     /\ (dequeue WorklistOps (Worklist st)).1 = None
     /\ BlockStates (Memory st) = Vec)
  /\ (run = Some (Returned (Success Vec)) ->
      (Z.of_nat (length (dequeued driverFuel st0)) <= MaxIterations)%Z
      /\ exists st, after (length (dequeued driverFuel st0)) st0 = Some st
                    /\ BlockStates (Memory st) = Vec).
Proof.
  intros Hinit.
  destruct (initialState_facts _ _ _ _ _ Hinit) as (Hit & _ & _).
  assert (Hr : (0 <= Iterations st0 <= MaxIterations)%Z).
  { rewrite Hit, MaxIterations_value. lia. }
  unfold runTypeErasedDataflowAnalysis. rewrite Hinit. split; [split|].
  - intros Hrun. destruct (driverLoop_Success_inv _ _ _ Hrun)
      as (n & st & Haf & Hd & HV & _). eauto.
  - intros (n & st & Haf & Hd & <-).
    destruct (after_counter _ _ _ _ _ _ _ _ _ _ Hr Haf) as [Hn Hle].
    assert (Hk : exists k, driverFuel = n + S k).
    { exists (Z.to_nat MaxIterations - n). unfold driverFuel. lia. }
    destruct Hk as [k ->].
    rewrite (driverLoop_after _ _ _ _ _ _ _ _ _ _ _ Haf). cbn [driverLoop].
    rewrite (driverStep_empty _ Hd). reflexivity.
  - intros Hrun. destruct (driverLoop_Success_inv _ _ _ Hrun)
      as (n & st & Haf & Hd & HV & Hlen).
    destruct (after_counter _ _ _ _ _ _ _ _ _ _ Hr Haf) as [Hn Hle].
    rewrite Hlen. split; [lia|eauto].
Qed.

Lemma driverLoop_slot_untouched fuel j : forall st Vec,
  loop fuel st = Some (Returned (Success Vec)) ->
  Forall (λ BlockP, blockID BlockP <> j) (dequeued fuel st) ->
  Vec !! j = BlockStates (Memory st) !! j.
Proof.
  induction fuel as [|fuel IH]; intros st Vec; [discriminate|].
  cbn [driverLoop dequeuedBlocks].
  destruct (step st) as [st1|R|] eqn:Hstep; [| |discriminate].
  - intros Hloop.
    destruct (driverStep_Continue _ _ _ _ _ _ _ _ _ Hstep)
      as (BlockP & Worklist1 & _ & _ & _ & Hdq & _).
    assert (HB : (dequeue WorklistOps (Worklist st)).1 = Some BlockP)
      by (rewrite Hdq; reflexivity).
    rewrite HB. intros HF. apply Forall_cons in HF as [Hne HF].
    rewrite (IH _ _ Hloop HF).
    apply (driverStep_other_slots _ _ _ _ _ _ _ _ _ _ Hstep HB). congruence.
  - intros [= ->] _. apply driverStep_Return_Success in Hstep as [_ ->]. reflexivity.
Qed.

(** X11: in the store that a run returns, the slot of an identifier that
    no dequeued block has is still what it was before the loop: the seed
    (the initial element with the initial environment) for the entry
    block, unset for any other identifier of the graph. *)
Theorem run_untouched_slots st0 Vec j :
  initialState WorklistOps CFCtx Analysis InitEnv = Some st0 ->
  run = Some (Returned (Success Vec)) ->
  Forall (λ BlockP, blockID BlockP <> j) (dequeued driverFuel st0) ->
  (j = blockID (getEntry (getCFG CFCtx)) ->
   Vec !! j = Some (Some (mkState (typeErasedInitialElement Analysis) InitEnv)))
  /\ (j <> blockID (getEntry (getCFG CFCtx)) -> j < size (getCFG CFCtx) ->
      Vec !! j = Some None).
Proof.
  intros Hinit. unfold runTypeErasedDataflowAnalysis. rewrite Hinit.
  intros Hrun HF. rewrite (driverLoop_slot_untouched _ _ _ _ Hrun HF).
  destruct (initialState_facts _ _ _ _ _ Hinit) as (_ & Hlen & Hentry).
  split.
  - intros ->. exact Hentry.
  - intros Hne Hlt.
    destruct (BlockStates (Memory st0) !! j) as [[St|]|] eqn:Hj.
    + destruct Hne. exact (initialState_only_entry _ _ _ _ _ Hinit _ _ Hj).
    + reflexivity.
    + apply lookup_ge_None in Hj. lia.
Qed.

(** X12: after an iteration, the slot of the block it processed holds a
    state that is, for the plugin, equal to the transfer of the block over
    the store as it was before the iteration: either that very state was
    written, or the slot already held a state with an equal lattice
    element and an equivalent environment and the store was left alone. *)
Theorem driverStep_local_fixpoint st st' BlockP :
  step st = Continue st' ->
  (dequeue WorklistOps (Worklist st)).1 = Some BlockP ->
  exists NewBlockState Mem1 Stored,
    transferBlock EnvOps SetOrder transfer CFCtx (getBlock (getCFG CFCtx) BlockP)
      InitEnv Analysis None (Memory st) = Some (NewBlockState, Mem1)
    /\ BlockStates (Memory st') !! blockID BlockP = Some (Some Stored)
    /\ (Stored = NewBlockState
        \/ (isEqualTypeErased Analysis (Lattice Stored) (Lattice NewBlockState) = true
            /\ Env_equivalentTo EnvOps (Env Stored) (Env NewBlockState) Analysis = true
            /\ BlockStates (Memory st') = BlockStates (Memory st))).
Proof.
  intros Hstep HB.
  destruct (driverStep_Continue _ _ _ _ _ _ _ _ _ Hstep)
    as (B & Worklist1 & New & Mem1 & Old & Hdq & _ & _ & Htr & Hframe & Hold & Hmem & _).
  rewrite Hdq in HB. injection HB as ->.
  exists New, Mem1. rewrite Hmem.
  destruct (stateUnchanged EnvOps Analysis Old New) eqn:Hun.
  - apply stateUnchanged_true in Hun as (O & -> & Heq & Hequiv).
    exists O. rewrite Hframe. split_and!; [exact Htr|exact Hold|]. right. auto.
  - exists New. simpl. rewrite Hframe. split_and!; [exact Htr| |now left].
    apply list_lookup_insert_eq. eapply lookup_lt_Some; exact Hold.
Qed.

End DriverMore.

(** * The store of a run that converges is a fixpoint *)

Section Convergence.

Context {TypeErasedLattice Environment StorageLocation Value WorklistT : Type}.

Abbreviation State := (TypeErasedDataflowAnalysisState TypeErasedLattice Environment).
Abbreviation Store := (list (option State)).
Abbreviation Analysis_t := (TypeErasedDataflowAnalysis TypeErasedLattice Environment).
Abbreviation DriverState_t := (@DriverState TypeErasedLattice Environment WorklistT).

Variable EnvOps : EnvironmentOps TypeErasedLattice Environment StorageLocation Value.
Variable SetOrder : DenseSetOrder.
Variable transfer :
  (Stmt -> option Environment) -> Stmt -> Environment -> option Environment.
Variable WorklistOps : ForwardDataflowWorklistOps WorklistT.

Variable CFCtx : ControlFlowContext.
Variable Analysis : Analysis_t.
Variable InitEnv : Environment.

Variable valid : BlockPtr -> Prop.
Variable good : WorklistT -> Prop.
Variable pending : WorklistT -> BlockPtr -> Prop.

Hypothesis Graph : GraphWellFormed CFCtx valid.
Hypothesis Laws : WorklistLaws WorklistOps CFCtx good pending.
Hypothesis EqualRefl : forall St : State,
  isEqualTypeErased Analysis (Lattice St) (Lattice St) = true
  /\ Env_equivalentTo EnvOps (Env St) (Env St) Analysis = true.
Hypothesis TransferLocal :
  applyBuiltinTransfer Analysis = true ->
  forall acc acc' S E, transfer acc S E = transfer acc' S E.

Abbreviation step := (driverStep EnvOps SetOrder transfer WorklistOps CFCtx Analysis InitEnv).
Abbreviation loop := (driverLoop EnvOps SetOrder transfer WorklistOps CFCtx Analysis InitEnv).
Abbreviation blockID BlockP := (getBlockID (getBlock (getCFG CFCtx) BlockP)).
Abbreviation blockAt BlockP := (getBlock (getCFG CFCtx) BlockP).
Abbreviation candidate :=
  (candidateState EnvOps SetOrder transfer CFCtx Analysis InitEnv).
Abbreviation entry := (getEntry (getCFG CFCtx)).
Abbreviation settled_ := (settled EnvOps SetOrder transfer CFCtx Analysis InitEnv).
Abbreviation outOfReach_ := (@outOfReach TypeErasedLattice Environment CFCtx).
Abbreviation accounted_ :=
  (accounted EnvOps SetOrder transfer CFCtx Analysis InitEnv valid good pending).

Implicit Types (st : DriverState_t) (Vec : Store) (B C P : BlockPtr).

(** The loop over the predecessors reads the slots of the members that
    are not flagged, and no other slot. *)
Lemma joinPredStates_reads Vec Vec' Preds :
  (forall P, Some P ∈ Preds -> hasNoReturnElement (blockAt P) = false ->
     Vec !! blockID P = Vec' !! blockID P) ->
  forall Acc,
    joinPredStates EnvOps CFCtx Vec Analysis Preds Acc
    = joinPredStates EnvOps CFCtx Vec' Analysis Preds Acc.
Proof.
  induction Preds as [|[P|] Rest IH]; intros Hagree Acc.
  - reflexivity.
  - simpl.
    assert (HRest : forall Q, Some Q ∈ Rest -> hasNoReturnElement (blockAt Q) = false ->
              Vec !! blockID Q = Vec' !! blockID Q).
    { intros Q HQ. apply Hagree. now right. }
    destruct (hasNoReturnElement (blockAt P)) eqn:Hn; [now apply IH|].
    rewrite <- (Hagree P) by (first [left | assumption]).
    destruct (Vec !! _) as [[St|]|]; [now apply IH|now apply IH|reflexivity].
  - simpl. apply IH. intros Q HQ. apply Hagree. now right.
Qed.

Lemma computeBlockInputState_reads Vec Vec' Block :
  (forall P, Some P ∈ preds Block -> hasNoReturnElement (blockAt P) = false ->
     Vec !! blockID P = Vec' !! blockID P) ->
  computeBlockInputState EnvOps SetOrder CFCtx Vec Block InitEnv Analysis
  = computeBlockInputState EnvOps SetOrder CFCtx Vec' Block InitEnv Analysis.
Proof.
  intros Hagree. unfold computeBlockInputState.
  destruct (predecessorSet CFCtx Block) as [Preds|] eqn:HP; [|reflexivity]. simpl.
  rewrite (joinPredStates_reads Vec Vec'); [reflexivity|].
  intros P HPin. apply Hagree. rewrite elem_of_iterate in HPin.
  exact (predecessorSet_subset _ _ _ HP _ HPin).
Qed.

Lemma transferElement_local Element St (m1 m2 : Mem TypeErasedLattice Environment unit) :
  fst <$> transferElement EnvOps transfer CFCtx Analysis None Element St m1
  = fst <$> transferElement EnvOps transfer CFCtx Analysis None Element St m2.
Proof.
  destruct Element as [CfgStmt|CfgInit|K]; simpl.
  - destruct (getStmt CfgStmt) as [S|] eqn:HS.
    + rewrite !(transferCFGStmt_run transfer _ _ _ _ _ _ S HS).
      destruct (applyBuiltinTransfer Analysis) eqn:Hflag.
      * rewrite (TransferLocal eq_refl (getEnvironment CFCtx (BlockStates m1))
                   (getEnvironment CFCtx (BlockStates m2))).
        destruct (transfer _ S (Env St)); reflexivity.
      * reflexivity.
    + unfold transferCFGStmt, mbind, M_bind, assertSome. rewrite HS. reflexivity.
  - destruct (applyBuiltinTransfer Analysis); [|reflexivity].
    unfold assertSome. destruct (transferCFGInitializer _ _ _); reflexivity.
  - reflexivity.
Qed.

Lemma transferElements_local Es : forall St (m1 m2 : Mem TypeErasedLattice Environment unit),
  fst <$> transferElements EnvOps transfer CFCtx Analysis None Es St m1
  = fst <$> transferElements EnvOps transfer CFCtx Analysis None Es St m2.
Proof.
  induction Es as [|Element Rest IH]; intros St m1 m2; [reflexivity|].
  cbn [transferElements]. unfold mbind, M_bind.
  pose proof (transferElement_local Element St m1 m2) as HE.
  destruct (transferElement _ _ _ _ _ Element St m1) as [[St1 m1']|];
  destruct (transferElement _ _ _ _ _ Element St m2) as [[St2 m2']|];
    simpl in HE; try discriminate; [|reflexivity].
  injection HE as <-. apply IH.
Qed.

(** What the driver computes for a block depends on the store through
    the slots of the predecessors of the block that are not flagged. *)
Lemma candidate_reads Vec Vec' C :
  (forall P, Some P ∈ preds (blockAt C) -> hasNoReturnElement (blockAt P) = false ->
     Vec !! blockID P = Vec' !! blockID P) ->
  candidate Vec C = candidate Vec' C.
Proof.
  intros Hagree. unfold candidateState. rewrite !transferBlock_run. simpl.
  rewrite (computeBlockInputState_reads Vec Vec' _ Hagree).
  destruct (computeBlockInputState _ _ _ _ _ _ _); [|reflexivity].
  apply transferElements_local.
Qed.

Lemma candidate_of_step st New Mem1 B :
  transferBlock EnvOps SetOrder transfer CFCtx (blockAt B) InitEnv Analysis None
    (Memory st) = Some (New, Mem1) ->
  candidate (BlockStates (Memory st)) B = Some New.
Proof.
  unfold candidateState. destruct (Memory st) as [Vec []]. simpl.
  now intros ->.
Qed.

Lemma initialState_accounted st0 :
  initialState WorklistOps CFCtx Analysis InitEnv = Some st0 -> accounted_ st0.
Proof.
  intros Hinit.
  destruct (initialState_facts _ _ _ _ _ Hinit) as (_ & Hlen & _).
  unfold initialState in Hinit. destruct (decide _) as [Hlt|]; [|discriminate].
  injection Hinit as <-. simpl in *. split_and!.
  - apply (good_enqueue _ _ _ _ Laws), (good_new _ _ _ _ Laws).
  - exact Hlen.
  - intros B HB.
    apply (pending_enqueue_only _ _ _ _ Laws) in HB; [|apply (good_new _ _ _ _ Laws)].
    destruct HB as [HB|HB]; [now apply (pending_new _ _ _ _ Laws) in HB|].
    exact (valid_succ _ _ Graph _ _ (valid_entry _ _ Graph) HB).
  - intros C HC Hne.
    destruct (decide (Some entry ∈ preds (blockAt C))) as [Hin|Hnotin].
    + left. apply (pending_enqueue_adds _ _ _ _ Laws); [apply (good_new _ _ _ _ Laws)|].
      exact (pred_is_succ _ _ Graph _ _ HC Hin).
    + right. right.
      assert (Hunset : forall P, valid P -> P <> entry ->
                (<[blockID entry := Some (mkState (typeErasedInitialElement Analysis) InitEnv)]>
                   (replicate (size (getCFG CFCtx)) None) : Store) !! blockID P = Some None).
      { intros P HP HPne. rewrite list_lookup_insert_ne.
        - apply lookup_replicate. split; [reflexivity|].
          exact (blockID_lt _ _ Graph _ HP).
        - intros Heq. apply HPne. symmetry.
          exact (blockID_inj _ _ Graph _ _ (valid_entry _ _ Graph) HP Heq). }
      split; [now apply Hunset|].
      intros P HP. right. apply Hunset.
      * exact (valid_pred _ _ Graph _ _ HC HP).
      * intros ->. contradiction.
Qed.

Lemma accounted_step st st' :
  accounted_ st -> step st = Continue st' -> accounted_ st'.
Proof.
  intros (Hgood & Hlen & Hvalid & Hacc) Hstep.
  destruct (driverStep_Continue _ _ _ _ _ _ _ _ _ Hstep)
    as (B & W1 & New & Mem1 & Old & Hdq & _ & _ & Htr & Hframe & Hold & Hmem & HW).
  destruct (driverStep_slots _ _ _ _ _ _ _ _ _ Hstep) as (Hlen' & _ & _).
  pose proof (candidate_of_step _ _ _ _ Htr) as Hcand.
  assert (HgoodW1 : good W1) by exact (good_dequeue _ _ _ _ Laws _ _ _ Hgood Hdq).
  assert (HvB : valid B).
  { apply Hvalid. exact (pending_dequeue_Some _ _ _ _ Laws _ _ _ Hgood Hdq). }
  assert (HltB : blockID B < length (BlockStates (Memory st))).
  { eapply lookup_lt_Some; exact Hold. }
  set (Vec := BlockStates (Memory st)) in *.
  destruct (stateUnchanged EnvOps Analysis Old New) eqn:Hun.
  - (* The state did not change: the store is as before. *)
    simpl in HW, Hmem.
    unfold accounted. rewrite HW, Hmem, Hframe. fold Vec. split_and!.
    + exact HgoodW1.
    + exact Hlen.
    + intros X HX. apply Hvalid.
      exact (pending_dequeue_only _ _ _ _ Laws _ _ _ _ Hgood Hdq HX).
    + intros C HC Hne. destruct (decide (C = B)) as [->|HCB].
      * right. left. apply stateUnchanged_true in Hun as (O & -> & Heq & Hequiv).
        exists O, New. split_and!; assumption.
      * destruct (Hacc C HC Hne) as [Hp|Hrest]; [|now right].
        left. exact (pending_dequeue_keeps _ _ _ _ Laws _ _ _ _ Hgood Hdq Hp HCB).
  - (* The state changed: the slot of the block is written. *)
    simpl in HW, Hmem.
    unfold accounted. rewrite HW, Hmem. simpl. rewrite Hframe. fold Vec.
    set (Vec' := <[blockID B := Some New]> Vec).
    assert (Hother : forall P, valid P -> P <> B -> Vec' !! blockID P = Vec !! blockID P).
    { intros P HP HPB. apply list_lookup_insert_ne. intros Heq. apply HPB. symmetry.
      exact (blockID_inj _ _ Graph _ _ HvB HP Heq). }
    split_and!.
    + destruct (hasNoReturnElement (blockAt B)); [exact HgoodW1|].
      now apply (good_enqueue _ _ _ _ Laws).
    + unfold Vec'. rewrite length_insert. exact Hlen.
    + intros X HX. destruct (hasNoReturnElement (blockAt B)).
      * apply Hvalid. exact (pending_dequeue_only _ _ _ _ Laws _ _ _ _ Hgood Hdq HX).
      * apply (pending_enqueue_only _ _ _ _ Laws) in HX; [|exact HgoodW1].
        destruct HX as [HX|HX].
        -- apply Hvalid. exact (pending_dequeue_only _ _ _ _ Laws _ _ _ _ Hgood Hdq HX).
        -- exact (valid_succ _ _ Graph _ _ HvB HX).
    + intros C HC Hne.
      destruct (hasNoReturnElement (blockAt B)) eqn:HnB;
        [|destruct (decide (Some B ∈ preds (blockAt C))) as [Hin|Hnotin]].
      * (* The block is flagged: nobody reads its slot. *)
        assert (Hreads : candidate Vec' C = candidate Vec C).
        { apply candidate_reads. intros P HP HnP.
          apply Hother; [exact (valid_pred _ _ Graph _ _ HC HP)|]. intros ->. congruence. }
        destruct (decide (C = B)) as [->|HCB].
        -- right. left. exists New, New. rewrite Hreads, Hcand.
           split_and!; [|reflexivity|apply EqualRefl|apply EqualRefl].
           unfold Vec'. now apply list_lookup_insert_eq.
        -- destruct (Hacc C HC Hne) as [Hp|[Hs|Ho]].
           ++ left. exact (pending_dequeue_keeps _ _ _ _ Laws _ _ _ _ Hgood Hdq Hp HCB).
           ++ right. left. destruct Hs as (Stored & N & H1 & H2 & H3 & H4).
              exists Stored, N. rewrite Hreads, Hother by assumption.
              split_and!; assumption.
           ++ right. right. destruct Ho as [H1 H2]. split.
              ** now rewrite Hother.
              ** intros P HP. destruct (decide (P = B)) as [->|HPB]; [now left|].
                 destruct (H2 P HP) as [H|H]; [now left|right].
                 rewrite Hother; [exact H| |exact HPB].
                 exact (valid_pred _ _ Graph _ _ HC HP).
      * (* The block is a predecessor that is read: the successor is enqueued. *)
        left. apply (pending_enqueue_adds _ _ _ _ Laws); [exact HgoodW1|].
        exact (pred_is_succ _ _ Graph _ _ HC Hin).
      * (* The block is no predecessor of this one. *)
        assert (Hreads : candidate Vec' C = candidate Vec C).
        { apply candidate_reads. intros P HP HnP.
          apply Hother; [exact (valid_pred _ _ Graph _ _ HC HP)|]. intros ->.
          contradiction. }
        destruct (decide (C = B)) as [->|HCB].
        -- right. left. exists New, New. rewrite Hreads, Hcand.
           split_and!; [|reflexivity|apply EqualRefl|apply EqualRefl].
           unfold Vec'. now apply list_lookup_insert_eq.
        -- destruct (Hacc C HC Hne) as [Hp|[Hs|Ho]].
           ++ left. apply (pending_enqueue_keeps _ _ _ _ Laws); [exact HgoodW1|].
              exact (pending_dequeue_keeps _ _ _ _ Laws _ _ _ _ Hgood Hdq Hp HCB).
           ++ right. left. destruct Hs as (Stored & N & H1 & H2 & H3 & H4).
              exists Stored, N. rewrite Hreads, Hother by assumption.
              split_and!; assumption.
           ++ right. right. destruct Ho as [H1 H2]. split.
              ** now rewrite Hother.
              ** intros P HP. destruct (decide (P = B)) as [->|HPB]; [contradiction|].
                 destruct (H2 P HP) as [H|H]; [now left|right].
                 rewrite Hother; [exact H| |exact HPB].
                 exact (valid_pred _ _ Graph _ _ HC HP).
Qed.

Lemma accounted_loop fuel : forall st Vec,
  accounted_ st ->
  loop fuel st = Some (Returned (Success Vec)) ->
  forall C, valid C -> C <> entry -> settled_ Vec C \/ outOfReach_ Vec C.
Proof.
  induction fuel as [|fuel IH]; intros st Vec Hacc; [discriminate|].
  cbn [driverLoop]. destruct (step st) as [st1|R|] eqn:Hstep; [| |discriminate].
  - apply IH. exact (accounted_step _ _ Hacc Hstep).
  - intros [= ->] C HC Hne.
    apply driverStep_Return_Success in Hstep as [Hd ->].
    destruct Hacc as (Hgood & _ & _ & Hacc).
    destruct (Hacc C HC Hne) as [Hp|Hrest]; [|exact Hrest].
    destruct (dequeue WorklistOps (Worklist st)) as [o W'] eqn:Hdq.
    simpl in Hd. subst o.
    destruct (pending_dequeue_None _ _ _ _ Laws _ _ C Hgood Hdq Hp).
Qed.

(** X13: on a graph whose edges mirror each other and whose blocks have
    identifiers of their own, with a worklist that keeps what is enqueued
    until it is dequeued, a plugin whose equality accepts a state against
    itself and a built-in transfer that does not look at other blocks,
    the store of a run that converges is a fixpoint: every block but the
    entry either holds a state that the plugin finds equal to the
    transfer of the block over that very store, or is unset together with
    all its predecessors that are not flagged. *)
Theorem run_converged_fixpoint Vec :
  runTypeErasedDataflowAnalysis EnvOps SetOrder transfer WorklistOps CFCtx Analysis InitEnv
  = Some (Returned (Success Vec)) ->
  forall C, valid C -> C <> entry ->
    (exists Stored New,
       Vec !! blockID C = Some (Some Stored)
       /\ candidate Vec C = Some New
       /\ isEqualTypeErased Analysis (Lattice Stored) (Lattice New) = true
       /\ Env_equivalentTo EnvOps (Env Stored) (Env New) Analysis = true)
    \/ (Vec !! blockID C = Some None
        /\ forall P, Some P ∈ preds (blockAt C) ->
             hasNoReturnElement (blockAt P) = true \/ Vec !! blockID P = Some None).
Proof.
  unfold runTypeErasedDataflowAnalysis.
  destruct (initialState WorklistOps CFCtx Analysis InitEnv) as [st0|] eqn:Hinit;
    [|discriminate].
  intros Hrun C HC Hne.
  exact (accounted_loop _ _ _ (initialState_accounted _ Hinit) Hrun C HC Hne).
Qed.

End Convergence.

(** ** The further properties on the examples *)

Lemma contributors_NoDup_witness :
  predecessorSet exDtorCtx (getBlock exDtorCFG 4) = Some [None; Some 2]
  /\ NoDup (contributors exDtorCtx exDtorStore (iterate exSetOrder [None; Some 2]))
  /\ length (contributions exDtorCtx exDtorStore (iterate exSetOrder [None; Some 2]))
     <= length (remove_dups (preds (getBlock exDtorCFG 4))).
Proof.
  split; [reflexivity|].
  exact (contributors_NoDup exSetOrder exDtorCtx exDtorStore (getBlock exDtorCFG 4)
           [None; Some 2] eq_refl).
Defined.

Lemma exMax_join_assoc (a b c : TypeErasedDataflowAnalysisState nat unit) :
  joinStates exUnitEnvOps exMax (joinStates exUnitEnvOps exMax a b) c
  = joinStates exUnitEnvOps exMax a (joinStates exUnitEnvOps exMax b c).
Proof. unfold joinStates. simpl. f_equal. symmetry. apply Nat.max_assoc. Qed.

Lemma exMax_join_comm (a b : TypeErasedDataflowAnalysisState nat unit) :
  joinStates exUnitEnvOps exMax a b = joinStates exUnitEnvOps exMax b a.
Proof. unfold joinStates. simpl. f_equal. apply Nat.max_comm. Qed.

Lemma computeBlockInputState_order_irrelevant_witness :
  predIDsInRange exLoopCtx (length exUnitStore) (preds (getBlock exLoopCFG 1)) = true
  /\ computeBlockInputState exUnitEnvOps exSetOrder exLoopCtx exUnitStore
       (getBlock exLoopCFG 1) tt exMax
     = computeBlockInputState exUnitEnvOps exReverseOrder exLoopCtx exUnitStore
         (getBlock exLoopCFG 1) tt exMax.
Proof.
  split; [reflexivity|].
  exact (computeBlockInputState_order_irrelevant exUnitEnvOps exSetOrder exReverseOrder
           exLoopCtx exUnitStore (getBlock exLoopCFG 1) tt exMax
           exMax_join_assoc exMax_join_comm eq_refl).
Defined.

Lemma computeBlockInputState_two_preds_witness :
  isTemporaryDtorsBranch (getTerminator (getBlock exLoopCFG 1)) = false
  /\ preds (getBlock exLoopCFG 1) = [Some 0; Some 1]
  /\ 0 <> 1
  /\ hasNoReturnElement (getBlock (getCFG exLoopCtx) 0) = false
  /\ hasNoReturnElement (getBlock (getCFG exLoopCtx) 1) = false
  /\ exLoopStore !! getBlockID (getBlock (getCFG exLoopCtx) 0) = Some (Some (exState 3))
  /\ exLoopStore !! getBlockID (getBlock (getCFG exLoopCtx) 1) = Some (Some (exState 5))
  /\ (computeBlockInputState exEnvOps exReverseOrder exLoopCtx exLoopStore
        (getBlock exLoopCFG 1) exEmptyEnv exCounting
      = Some (joinStates exEnvOps exCounting (exState 3) (exState 5))
      \/ computeBlockInputState exEnvOps exReverseOrder exLoopCtx exLoopStore
           (getBlock exLoopCFG 1) exEmptyEnv exCounting
         = Some (joinStates exEnvOps exCounting (exState 5) (exState 3))).
Proof.
  repeat (split; [first [reflexivity | discriminate]|]).
  exact (computeBlockInputState_two_preds exEnvOps exReverseOrder exLoopCtx exLoopStore
           (getBlock exLoopCFG 1) exEmptyEnv exCounting 0 1 (exState 3) (exState 5)
           eq_refl eq_refl ltac:(discriminate) eq_refl eq_refl eq_refl eq_refl).
Defined.

Lemma exDtor_only_two_survives Pred :
  Pred ∈ [None; Some 2] -> Pred <> Some 2 -> survives exDtorCtx exDtorStore Pred = false.
Proof.
  intros Hin Hne. apply elem_of_cons in Hin as [->|Hin]; [reflexivity|].
  apply list_elem_of_singleton in Hin. contradiction.
Qed.

Lemma computeBlockInputState_single_witness :
  predecessorSet exDtorCtx (getBlock exDtorCFG 4) = Some [None; Some 2]
  /\ predIDsInRange exDtorCtx (length exDtorStore) (preds (getBlock exDtorCFG 4)) = true
  /\ Some 2 ∈ [None; Some 2]
  /\ hasNoReturnElement (getBlock (getCFG exDtorCtx) 2) = false
  /\ exDtorStore !! getBlockID (getBlock (getCFG exDtorCtx) 2) = Some (Some (exState 30))
  /\ computeBlockInputState exEnvOps exReverseOrder exDtorCtx exDtorStore
       (getBlock exDtorCFG 4) exEmptyEnv exCounting
     = Some (exState 30).
Proof.
  assert (Hin : Some 2 ∈ [None; Some 2]) by (right; left).
  repeat (split; [first [reflexivity | exact Hin]|]).
  exact (computeBlockInputState_single exEnvOps exReverseOrder exDtorCtx exDtorStore
           (getBlock exDtorCFG 4) exEmptyEnv exCounting [None; Some 2] 2 (exState 30)
           eq_refl eq_refl Hin eq_refl eq_refl exDtor_only_two_survives).
Defined.

Lemma transferBlock_observer_irrelevant_witness :
  BlockStates (mkMem exDtorStore ([] : list (CFGStmt * ExState)))
  = BlockStates (mkMem exDtorStore tt)
  /\ fst <$> transferBlock exEnvOps exSetOrder exTransfer exDtorCtx
               (getBlock exDtorCFG 2) exEmptyEnv exCounting exLog (mkMem exDtorStore [])
     = fst <$> transferBlock exEnvOps exSetOrder exTransfer exDtorCtx
                 (getBlock exDtorCFG 2) exEmptyEnv exCounting None (mkMem exDtorStore tt).
Proof.
  split; [reflexivity|].
  exact (transferBlock_observer_irrelevant exEnvOps exSetOrder exTransfer exDtorCtx
           (getBlock exDtorCFG 2) exEmptyEnv exCounting exLog
           (mkMem exDtorStore []) (mkMem exDtorStore tt) eq_refl).
Defined.

Lemma transferBlock_callback_trace_witness :
  exists St' m',
    transferBlock exEnvOps exSetOrder exTransfer exDtorCtx (getBlock exDtorCFG 2)
      exEmptyEnv exCounting
      (Some (λ CfgStmt St (Log : list (CFGStmt * ExState)), Log ++ [(CfgStmt, St)]))
      (mkMem exDtorStore []) = Some (St', m')
    /\ exists Events : list (CFGStmt * ExState),
         fst <$> Events = [mkCFGStmt (Some 20)]
         /\ CallerState m'
            = fold_left (λ Caller Event, Caller ++ [(Event.1, Event.2)]) Events [].
Proof.
  destruct (transferBlock exEnvOps exSetOrder exTransfer exDtorCtx (getBlock exDtorCFG 2)
              exEmptyEnv exCounting
              (Some (λ CfgStmt St (Log : list (CFGStmt * ExState)), Log ++ [(CfgStmt, St)]))
              (mkMem exDtorStore [])) as [[St' m']|] eqn:H;
    [|vm_compute in H; discriminate].
  exists St', m'. split; [reflexivity|].
  exact (transferBlock_callback_trace exEnvOps exSetOrder exTransfer exDtorCtx
           (getBlock exDtorCFG 2) exEmptyEnv exCounting _ _ _ _ H).
Defined.

Lemma transferElement_not_statement_witness :
  isStatement (Initializer exInitRef) = false
  /\ exists St' m',
       transferElement exEnvOps exTransfer exDtorCtx exCounting exLog
         (Initializer exInitRef) (mkState 90 exEnv60) (mkMem exDtorStore [])
       = Some (St', m')
       /\ m' = mkMem exDtorStore []
       /\ Lattice St' = 90.
Proof.
  split; [reflexivity|].
  destruct (transferElement exEnvOps exTransfer exDtorCtx exCounting exLog
              (Initializer exInitRef) (mkState 90 exEnv60) (mkMem exDtorStore []))
    as [[St' m']|] eqn:H; [|vm_compute in H; discriminate].
  exists St', m'. split; [reflexivity|].
  destruct (transferElement_not_statement exEnvOps exTransfer exDtorCtx exCounting exLog
              (Initializer exInitRef) (mkState 90 exEnv60) St' (mkMem exDtorStore []) m'
              eq_refl H) as (Hm & HL & _).
  split; assumption.
Defined.

Lemma getEnvironment_after_step_witness :
  exStep exDtorCtx exCounting exDtorInit = Continue exDtorNext
  /\ (dequeue exWorklistOps (Worklist exDtorInit)).1 = Some 1
  /\ getStmtToBlock exDtorCtx !! 10 = Some 1
  /\ exists St',
       BlockStates (Memory exDtorNext) !! getBlockID (getBlock (getCFG exDtorCtx) 1)
       = Some (Some St')
       /\ getEnvironment exDtorCtx (BlockStates (Memory exDtorNext)) 10 = Some (Env St').
Proof.
  repeat (split; [reflexivity|]).
  exact (getEnvironment_after_step exEnvOps exSetOrder exTransfer exWorklistOps
           exDtorCtx exCounting exEmptyEnv exDtorInit exDtorNext 1 10
           eq_refl eq_refl eq_refl).
Defined.

Lemma exDtor_stmt20_elsewhere B :
  getStmtToBlock exDtorCtx !! 20 = Some B ->
  getBlockID (getBlock (getCFG exDtorCtx) B) <> getBlockID (getBlock (getCFG exDtorCtx) 1).
Proof. intros [= <-]. discriminate. Qed.

Lemma getEnvironment_step_frame_witness :
  exStep exDtorCtx exCounting exDtorInit = Continue exDtorNext
  /\ (dequeue exWorklistOps (Worklist exDtorInit)).1 = Some 1
  /\ getEnvironment exDtorCtx (BlockStates (Memory exDtorNext)) 20
     = getEnvironment exDtorCtx (BlockStates (Memory exDtorInit)) 20.
Proof.
  repeat (split; [reflexivity|]).
  exact (getEnvironment_step_frame exEnvOps exSetOrder exTransfer exWorklistOps
           exDtorCtx exCounting exEmptyEnv exDtorInit exDtorNext 1 20
           eq_refl eq_refl exDtor_stmt20_elsewhere).
Defined.

Lemma exDtorResult_run :
  exRun exDtorCtx exCounting = Some (Returned (Success exDtorResult)).
Proof. vm_compute. reflexivity. Qed.

Lemma exDtorInit_initial : exInitial exDtorCtx exCounting = Some exDtorInit.
Proof. reflexivity. Qed.

Lemma run_success_iff_witness :
  exInitial exDtorCtx exCounting = Some exDtorInit
  /\ exists n st,
       afterIterations exEnvOps exSetOrder exTransfer exWorklistOps exDtorCtx exCounting
         exEmptyEnv n exDtorInit = Some st
       /\ (dequeue exWorklistOps (Worklist st)).1 = None
       /\ BlockStates (Memory st) = exDtorResult.
Proof.
  split; [reflexivity|].
  exact (proj1 (proj1 (run_success_iff exEnvOps exSetOrder exTransfer exWorklistOps
                         exDtorCtx exCounting exEmptyEnv exDtorInit exDtorResult
                         exDtorInit_initial))
               exDtorResult_run).
Defined.

Lemma exDtor_entry_not_dequeued :
  Forall (λ BlockP, getBlockID (getBlock (getCFG exDtorCtx) BlockP) <> 0)
    (dequeuedBlocks exEnvOps exSetOrder exTransfer exWorklistOps exDtorCtx exCounting
       exEmptyEnv driverFuel exDtorInit).
Proof.
  apply Forall_forall. intros B HB.
  assert (Hlist : dequeuedBlocks exEnvOps exSetOrder exTransfer exWorklistOps exDtorCtx
                    exCounting exEmptyEnv driverFuel exDtorInit = [1; 2; 3; 4; 5; 6; 7])
    by (vm_compute; reflexivity).
  rewrite Hlist in HB.
  repeat (apply elem_of_cons in HB as [->|HB]; [discriminate|]).
  now apply elem_of_nil in HB.
Qed.

Lemma run_untouched_slots_witness :
  exInitial exDtorCtx exCounting = Some exDtorInit
  /\ exRun exDtorCtx exCounting = Some (Returned (Success exDtorResult))
  /\ exDtorResult !! 0 = Some (Some (mkState 0 exEmptyEnv)).
Proof.
  split; [reflexivity|]. split; [exact exDtorResult_run|].
  exact (proj1 (run_untouched_slots exEnvOps exSetOrder exTransfer exWorklistOps
                  exDtorCtx exCounting exEmptyEnv exDtorInit exDtorResult 0
                  exDtorInit_initial exDtorResult_run exDtor_entry_not_dequeued)
               eq_refl).
Defined.

Lemma driverStep_local_fixpoint_witness :
  exStep exDtorCtx exCounting exDtorInit = Continue exDtorNext
  /\ (dequeue exWorklistOps (Worklist exDtorInit)).1 = Some 1
  /\ exists NewBlockState Mem1,
       transferBlock exEnvOps exSetOrder exTransfer exDtorCtx (getBlock (getCFG exDtorCtx) 1)
         exEmptyEnv exCounting None (Memory exDtorInit) = Some (NewBlockState, Mem1).
Proof.
  repeat (split; [reflexivity|]).
  destruct (driverStep_local_fixpoint exEnvOps exSetOrder exTransfer exWorklistOps
              exDtorCtx exCounting exEmptyEnv exDtorInit exDtorNext 1 eq_refl eq_refl)
    as (New & Mem1 & _ & Htr & _).
  exists New, Mem1. exact Htr.
Defined.

Ltac members H :=
  repeat (apply elem_of_cons in H as [H|H];
          [first [discriminate H | injection H as ->] |]);
  try (now apply elem_of_nil in H).

Lemma exDtorGraph : GraphWellFormed exDtorCtx exValid.
Proof.
  unfold exValid. split; simpl.
  - lia.
  - intros B C HB HC.
    do 8 (destruct B as [|B]; [simpl in HC; members HC; lia|]). lia.
  - intros C P HC HP.
    do 8 (destruct C as [|C]; [simpl in HP; members HP; lia|]). lia.
  - intros C P HC HP.
    do 8 (destruct C as [|C]; [simpl in HP; members HP; simpl; set_solver|]). lia.
  - intros B C HB HC.
    do 8 (destruct B as [|B]; [do 8 (destruct C as [|C]; [simpl; lia|]); lia|]). lia.
  - intros B HB.
    do 8 (destruct B as [|B]; [simpl; lia|]). lia.
Qed.

Lemma elem_of_exEnqueue G W B C :
  C ∈ exEnqueue G W B <-> C ∈ W \/ Some C ∈ succs (getBlock G B).
Proof.
  unfold exEnqueue. generalize (succs (getBlock G B)) as l. intros l. revert W.
  induction l as [|s l IH]; intros W; simpl.
  - rewrite elem_of_nil. tauto.
  - rewrite IH, elem_of_cons. destruct s as [p|].
    + destruct (bool_decide (p ∈ W)) eqn:Hp.
      * apply bool_decide_eq_true in Hp. split; [tauto|].
        intros [H|[[= ->]|H]]; tauto.
      * rewrite elem_of_app, list_elem_of_singleton. split.
        -- intros [[H| ->]|H]; tauto.
        -- intros [H|[[= ->]|H]]; tauto.
    + split; [tauto|]. intros [H|[H|H]]; [tauto|discriminate|tauto].
Qed.

Lemma exDtorLaws : WorklistLaws exWorklistOps exDtorCtx exGood exPending.
Proof.
  unfold exGood, exPending. split; simpl.
  - reflexivity.
  - intros W B HW. exact HW.
  - intros [G W] W' o HW. simpl in *. destruct W as [|B Rest]; now intros [= _ <-].
  - intros B HB. now apply elem_of_nil in HB.
  - intros [G W] W' B HW. simpl. destruct W as [|B' Rest]; [|discriminate].
    intros _ HB. now apply elem_of_nil in HB.
  - intros [G W] W' B HW. simpl. destruct W as [|B' Rest]; [discriminate|].
    intros [= -> _]. left.
  - intros [G W] W' B C HW. simpl. destruct W as [|B' Rest]; [discriminate|].
    intros [= -> <-] HC Hne. simpl. apply elem_of_cons in HC as [->|HC]; [contradiction|exact HC].
  - intros [G W] W' B C HW. simpl. destruct W as [|B' Rest]; [discriminate|].
    intros [= -> <-] HC. simpl in HC. now right.
  - intros [G W] B C HW HC. simpl in *. apply elem_of_exEnqueue. now left.
  - intros [G W] B C HW HC. simpl in *. subst G. apply elem_of_exEnqueue. now right.
  - intros [G W] B C HW HC. simpl in *. subst G. now apply elem_of_exEnqueue in HC.
Qed.

Lemma exCounting_equal_refl (St : ExState) :
  isEqualTypeErased exCounting (Lattice St) (Lattice St) = true
  /\ Env_equivalentTo exEnvOps (Env St) (Env St) exCounting = true.
Proof.
  split; simpl; [apply Nat.eqb_refl|now apply bool_decide_eq_true_2].
Qed.

Lemma exTransfer_local :
  applyBuiltinTransfer exCounting = true ->
  forall (acc acc' : nat -> option ExEnv) S E, exTransfer acc S E = exTransfer acc' S E.
Proof. reflexivity. Qed.

Lemma run_converged_fixpoint_witness :
  GraphWellFormed exDtorCtx exValid
  /\ WorklistLaws exWorklistOps exDtorCtx exGood exPending
  /\ exRun exDtorCtx exCounting = Some (Returned (Success exDtorResult))
  /\ exValid 6
  /\ 6 <> getEntry (getCFG exDtorCtx)
  /\ ((exists Stored New,
         exDtorResult !! getBlockID (getBlock (getCFG exDtorCtx) 6) = Some (Some Stored)
         /\ candidateState exEnvOps exSetOrder exTransfer exDtorCtx exCounting exEmptyEnv
              exDtorResult 6 = Some New
         /\ isEqualTypeErased exCounting (Lattice Stored) (Lattice New) = true
         /\ Env_equivalentTo exEnvOps (Env Stored) (Env New) exCounting = true)
      \/ (exDtorResult !! getBlockID (getBlock (getCFG exDtorCtx) 6) = Some None
          /\ forall P, Some P ∈ preds (getBlock (getCFG exDtorCtx) 6) ->
               hasNoReturnElement (getBlock (getCFG exDtorCtx) P) = true
               \/ exDtorResult !! getBlockID (getBlock (getCFG exDtorCtx) P) = Some None)).
Proof.
  assert (HV : exValid 6) by (unfold exValid; lia).
  assert (HE : 6 <> getEntry (getCFG exDtorCtx)) by discriminate.
  split; [exact exDtorGraph|]. split; [exact exDtorLaws|].
  split; [exact exDtorResult_run|]. split; [exact HV|]. split; [exact HE|].
  exact (run_converged_fixpoint exEnvOps exSetOrder exTransfer exWorklistOps exDtorCtx
           exCounting exEmptyEnv exValid exGood exPending exDtorGraph exDtorLaws
           exCounting_equal_refl exTransfer_local exDtorResult exDtorResult_run 6 HV HE).
Defined.

(** * The input state: the unreachable first edge and the pruned block *)

Section InputStateEdges.

Context {TypeErasedLattice Environment StorageLocation Value : Type}.

Abbreviation State := (TypeErasedDataflowAnalysisState TypeErasedLattice Environment).
Abbreviation Store := (list (option State)).
Abbreviation Analysis_t := (TypeErasedDataflowAnalysis TypeErasedLattice Environment).

Variable EnvOps : EnvironmentOps TypeErasedLattice Environment StorageLocation Value.
Variable SetOrder : DenseSetOrder.

Implicit Types (CFCtx : ControlFlowContext) (Block : CFGBlock) (BlockStates : Store)
  (Pred : option BlockPtr) (Preds : list (option BlockPtr)).

(** The set that is joined holds the predecessors of the block but the
    pruned one. *)
Lemma predecessorSet_members CFCtx Block Preds :
  predecessorSet CFCtx Block = Some Preds ->
  forall Pred, Pred ∈ Preds <-> Pred ∈ preds Block /\ isPruned CFCtx Block Pred = false.
Proof.
  unfold predecessorSet, isPruned, prunedPredecessor. intros H Pred.
  destruct (isTemporaryDtorsBranch (getTerminator Block)).
  - destruct (head (succs Block)) as [[Succ|]|]; simpl in H; try discriminate.
    destruct (hasNoReturnElement (getBlock (getCFG CFCtx) Succ)).
    + destruct (getTerminatorStmt Block) as [TermStmt|]; simpl in *; [|discriminate].
      destruct (getStmtToBlock CFCtx !! TermStmt) as [StmtBlock|]; simpl in *;
        [|discriminate].
      injection H as <-.
      rewrite elem_of_DenseSet_erase, elem_of_DenseSet_insert_range.
      destruct Pred as [P|].
      * rewrite bool_decide_eq_false. split; intros [H1 H2]; (split; [exact H1|]);
          congruence.
      * split; intros [H1 _]; (split; [exact H1|]); [reflexivity|discriminate].
    + injection H as <-. rewrite elem_of_DenseSet_insert_range.
      destruct Pred; tauto.
  - injection H as <-. rewrite elem_of_DenseSet_insert_range. destruct Pred; tauto.
Qed.

(** With no predecessor that is kept and survives, the input state is
    the initial element of the plugin with the initial environment of the
    caller. *)
Lemma computeBlockInputState_initial CFCtx BlockStates Block InitEnv (Analysis : Analysis_t) :
  terminatorResolves CFCtx Block = true ->
  predIDsInRange CFCtx (length BlockStates)
    (filter (λ Pred, isPruned CFCtx Block Pred = false) (preds Block)) = true ->
  (forall Pred, Pred ∈ preds Block -> isPruned CFCtx Block Pred = false ->
     survives CFCtx BlockStates Pred = false) ->
  computeBlockInputState EnvOps SetOrder CFCtx BlockStates Block InitEnv Analysis
  = Some (mkState (typeErasedInitialElement Analysis) InitEnv).
Proof.
  intros HT HR Hnone.
  destruct (predecessorSet_total _ _ HT) as [Preds HP].
  pose proof (predecessorSet_members _ _ _ HP) as Hmem.
  rewrite (computeBlockInputState_joinAll EnvOps SetOrder _ _ _ _ _ Preds HP).
  - unfold contributions. rewrite contributors_none; [reflexivity|].
    intros Pred Hin. rewrite elem_of_iterate in Hin. apply Hmem in Hin as [H1 H2].
    now apply Hnone.
  - eapply predIDsInRange_subset; [|exact HR].
    intros Pred Hin. apply list_elem_of_filter. apply Hmem in Hin as [H1 H2]. now split.
Qed.


(** C4, as amended: the set that is joined holds each predecessor of
    the block once, but for the block that the temporary-destructor
    special case prunes; a predecessor contributes if and only if it is
    not that block, is not null, is not flagged as containing a
    non-returning element and has a set slot in the store; the input state
    is the join of the states that the contributing predecessors have in
    the store, the first seeding the accumulator and each later one merged
    into it by the lattice join of the plugin and the join of the
    environment. *)
Theorem computeBlockInputState_join CFCtx BlockStates Block InitEnv (Analysis : Analysis_t) :
  terminatorResolves CFCtx Block = true ->
  predIDsInRange CFCtx (length BlockStates)
    (filter (λ Pred, isPruned CFCtx Block Pred = false) (preds Block)) = true ->
  exists Preds,
    predecessorSet CFCtx Block = Some Preds
    /\ NoDup Preds
    /\ (forall Pred,
          Pred ∈ Preds <-> Pred ∈ preds Block /\ isPruned CFCtx Block Pred = false)
    /\ (forall Pred, Pred ∈ preds Block ->
          (Pred ∈ contributors CFCtx BlockStates (iterate SetOrder Preds) <->
           isPruned CFCtx Block Pred = false
           /\ exists P St, Pred = Some P
                /\ hasNoReturnElement (getBlock (getCFG CFCtx) P) = false
                /\ BlockStates !! getBlockID (getBlock (getCFG CFCtx) P) = Some (Some St)))
    /\ NoDup (contributors CFCtx BlockStates (iterate SetOrder Preds))
    /\ Forall2 (λ Pred St, storedState CFCtx BlockStates Pred = Some St)
         (contributors CFCtx BlockStates (iterate SetOrder Preds))
         (contributions CFCtx BlockStates (iterate SetOrder Preds))
    /\ computeBlockInputState EnvOps SetOrder CFCtx BlockStates Block InitEnv Analysis
       = Some (joinAll EnvOps Analysis InitEnv
                 (contributions CFCtx BlockStates (iterate SetOrder Preds)))
    /\ (forall First Others Last,
          joinAll EnvOps Analysis InitEnv (First :: Others ++ [Last])
          = mkState
              (joinTypeErased Analysis
                 (Lattice (joinAll EnvOps Analysis InitEnv (First :: Others)))
                 (Lattice Last))
              (Env_join EnvOps
                 (Env (joinAll EnvOps Analysis InitEnv (First :: Others)))
                 (Env Last) Analysis)).
Proof.
  intros HT HR.
  destruct (predecessorSet_total _ _ HT) as [Preds HP].
  pose proof (predecessorSet_members _ _ _ HP) as Hmem.
  pose proof (predecessorSet_NoDup _ _ _ HP) as Hnd.
  exists Preds. split_and!.
  - exact HP.
  - exact Hnd.
  - exact Hmem.
  - intros Pred Hin. rewrite elem_of_contributors, elem_of_iterate, Hmem. tauto.
  - unfold contributors. apply NoDup_filter.
    now rewrite (iterate_perm SetOrder Preds).
  - apply contributions_match.
  - apply computeBlockInputState_joinAll; [exact HP|].
    eapply predIDsInRange_subset; [|exact HR].
    intros Pred Hin. apply list_elem_of_filter. apply Hmem in Hin as [H1 H2]. now split.
  - intros. apply joinAll_snoc.
Qed.

End InputStateEdges.


(** The sentence on the join, as worded, fails at B4 of the graph with
    the destructor: B3 is a predecessor of B4 that is not null, is not
    flagged and has a set slot, yet the input state of B4 is the state of
    B2 alone. *)
Lemma pruned_predecessor_counterexample :
  ~ joinsSurvivingPredecessors exEnvOps exSetOrder exDtorCtx exDtorStore
      (getBlock exDtorCFG 4) exEmptyEnv exCounting.
Proof.
  unfold joinsSurvivingPredecessors. intros H.
  apply (f_equal (fmap (M := option) Lattice)) in H. vm_compute in H. discriminate H.
Qed.

Lemma computeBlockInputState_join_witness :
  terminatorResolves exDtorCtx (getBlock exDtorCFG 4) = true
  /\ predIDsInRange exDtorCtx (length exDtorStore)
       (filter (λ Pred, isPruned exDtorCtx (getBlock exDtorCFG 4) Pred = false)
               (preds (getBlock exDtorCFG 4))) = true
  /\ survives exDtorCtx exDtorStore (Some 3) = true
  /\ isPruned exDtorCtx (getBlock exDtorCFG 4) (Some 3) = true
  /\ predecessorSet exDtorCtx (getBlock exDtorCFG 4) = Some [None; Some 2]
  /\ computeBlockInputState exEnvOps exSetOrder exDtorCtx exDtorStore
       (getBlock exDtorCFG 4) exEmptyEnv exCounting
     = Some (exState 30).
Proof.
  do 5 (split; [reflexivity|]).
  destruct (computeBlockInputState_join exEnvOps exSetOrder exDtorCtx exDtorStore
              (getBlock exDtorCFG 4) exEmptyEnv exCounting eq_refl eq_refl)
    as (Preds & HP & _ & _ & _ & _ & _ & HC & _).
  rewrite HC. vm_compute in HP. injection HP as <-. reflexivity.
Defined.

(** * The transfer of a block as a fold over its elements *)

Section TransferOrder.

Context {TypeErasedLattice Environment StorageLocation Value Obs : Type}.

Abbreviation State := (TypeErasedDataflowAnalysisState TypeErasedLattice Environment).
Abbreviation Store := (list (option State)).
Abbreviation Analysis_t := (TypeErasedDataflowAnalysis TypeErasedLattice Environment).
Abbreviation Mem_t := (Mem TypeErasedLattice Environment Obs).
Abbreviation Handler_t := (Handler TypeErasedLattice Environment Obs).

Variable EnvOps : EnvironmentOps TypeErasedLattice Environment StorageLocation Value.
Variable SetOrder : DenseSetOrder.
Variable transfer :
  (Stmt -> option Environment) -> Stmt -> Environment -> option Environment.

Implicit Types (CFCtx : ControlFlowContext) (Analysis : Analysis_t)
  (Block : CFGBlock) (InitEnv : Environment) (St : State) (m : Mem_t)
  (HandleTransferredStmt : Handler_t).

Lemma transferElement_step CFCtx Analysis HandleTransferredStmt Element St m :
  transferElement EnvOps transfer CFCtx Analysis HandleTransferredStmt Element St m
  = withStore (BlockStates m)
      (elementStep EnvOps transfer CFCtx Analysis HandleTransferredStmt (BlockStates m)
         (Some (St, CallerState m)) Element).
Proof.
  destruct m as [Vec Caller].
  destruct Element as [CfgStmt|CfgInit|K]; simpl.
  - destruct (getStmt CfgStmt) as [S|] eqn:HS.
    + rewrite (transferCFGStmt_run transfer _ _ _ _ _ _ S HS). simpl.
      destruct (if applyBuiltinTransfer Analysis then _ else _); [|reflexivity].
      simpl. destruct HandleTransferredStmt; reflexivity.
    + unfold transferCFGStmt, mbind, M_bind, assertSome. rewrite HS. reflexivity.
  - destruct (applyBuiltinTransfer Analysis); [|reflexivity].
    unfold assertSome. destruct (transferCFGInitializer _ _ _); reflexivity.
  - reflexivity.
Qed.

Lemma fold_elementStep_None CFCtx Analysis HandleTransferredStmt Vec Es :
  fold_left (elementStep EnvOps transfer CFCtx Analysis HandleTransferredStmt Vec) Es None
  = None.
Proof. induction Es as [|Element Rest IH]; [reflexivity|exact IH]. Qed.

Lemma transferElements_fold CFCtx Analysis HandleTransferredStmt Es : forall St m,
  transferElements EnvOps transfer CFCtx Analysis HandleTransferredStmt Es St m
  = withStore (BlockStates m)
      (fold_left (elementStep EnvOps transfer CFCtx Analysis HandleTransferredStmt
                    (BlockStates m))
                 Es (Some (St, CallerState m))).
Proof.
  induction Es as [|Element Rest IH]; intros St m.
  - destruct m; reflexivity.
  - cbn [transferElements fold_left]. unfold mbind, M_bind.
    rewrite transferElement_step.
    destruct (elementStep _ _ _ _ _ _ _ Element) as [[St1 Caller1]|]; simpl.
    + rewrite IH. reflexivity.
    + now rewrite fold_elementStep_None.
Qed.

Lemma transferElements_last CFCtx Analysis HandleTransferredStmt Es Element St m :
  transferElements EnvOps transfer CFCtx Analysis HandleTransferredStmt
    (Es ++ [Element]) St m
  = match transferElements EnvOps transfer CFCtx Analysis HandleTransferredStmt Es St m with
    | Some (St1, m1) =>
        transferElement EnvOps transfer CFCtx Analysis HandleTransferredStmt Element St1 m1
    | None => None
    end.
Proof.
  rewrite transferElements_app.
  destruct (transferElements _ _ _ _ _ Es St m) as [[St1 m1]|]; [|reflexivity].
  simpl. unfold mbind, M_bind, mret, M_ret.
  destruct (transferElement _ _ _ _ _ Element St1 m1) as [[St2 m2]|]; reflexivity.
Qed.

(** C6: [transferBlock] yields the exit state of the block: starting
    from the input state it runs the elements from the first to the last
    on one running state, each on the state that the one before left (the
    last element on what all those before it left), and a block with no
    element leaves with its input state; on a statement element the
    built-in transfer runs first exactly when the flag of the plugin is
    set, then the transfer of the plugin, then the callback (when there
    is one) on the statement and the state that results; an initializer
    element is looked at only under the flag, any other element is passed
    over, and the store is the same at the end. *)
Theorem transferBlock_in_order CFCtx Block InitEnv Analysis HandleTransferredStmt m :
  transferBlock EnvOps SetOrder transfer CFCtx Block InitEnv Analysis
    HandleTransferredStmt m
  = match blockExit EnvOps SetOrder transfer CFCtx Block InitEnv Analysis
            HandleTransferredStmt m with
    | Some (St, Caller) => Some (St, mkMem (BlockStates m) Caller)
    | None => None
    end
  /\ (Elements Block = [] ->
      transferBlock EnvOps SetOrder transfer CFCtx Block InitEnv Analysis
        HandleTransferredStmt m
      = match computeBlockInputState EnvOps SetOrder CFCtx (BlockStates m) Block
                InitEnv Analysis with
        | Some St => Some (St, m)
        | None => None
        end)
  /\ (forall Es Element St m0,
        transferElements EnvOps transfer CFCtx Analysis HandleTransferredStmt
          (Es ++ [Element]) St m0
        = match transferElements EnvOps transfer CFCtx Analysis HandleTransferredStmt
                  Es St m0 with
          | Some (St1, m1) =>
              transferElement EnvOps transfer CFCtx Analysis HandleTransferredStmt
                Element St1 m1
          | None => None
          end)
  /\ (forall St m0,
        transferElements EnvOps transfer CFCtx Analysis HandleTransferredStmt [] St m0
        = Some (St, m0))
  /\ (forall CfgStmt S St m0,
        getStmt CfgStmt = Some S ->
        transferElement EnvOps transfer CFCtx Analysis HandleTransferredStmt
          (Statement CfgStmt) St m0
        = match (if applyBuiltinTransfer Analysis
                 then transfer (getEnvironment CFCtx (BlockStates m0)) S (Env St)
                 else Some (Env St)) with
          | None => None
          | Some Env1 =>
              let St' := mkState (transferTypeErased Analysis S (Lattice St) Env1).1
                                 (transferTypeErased Analysis S (Lattice St) Env1).2 in
              Some (St', match HandleTransferredStmt with
                         | Some Handle =>
                             mkMem (BlockStates m0) (Handle CfgStmt St' (CallerState m0))
                         | None => m0
                         end)
          end)
  /\ (forall CfgInit St m0,
        transferElement EnvOps transfer CFCtx Analysis HandleTransferredStmt
          (Initializer CfgInit) St m0
        = if applyBuiltinTransfer Analysis then
            match transferCFGInitializer EnvOps CfgInit St with
            | Some St' => Some (St', m0)
            | None => None
            end
          else Some (St, m0))
  /\ (forall K St m0,
        transferElement EnvOps transfer CFCtx Analysis HandleTransferredStmt
          (OtherElement K) St m0 = Some (St, m0)).
Proof.
  split_and!.
  - rewrite transferBlock_run. unfold blockExit.
    destruct (computeBlockInputState _ _ _ _ _ _ _) as [St|]; [|reflexivity].
    apply transferElements_fold.
  - intros HE. rewrite transferBlock_run, HE.
    destruct (computeBlockInputState _ _ _ _ _ _ _); reflexivity.
  - intros. apply transferElements_last.
  - reflexivity.
  - intros CfgStmt S St m0 HS. simpl. now apply transferCFGStmt_run.
  - intros CfgInit St m0. simpl. destruct (applyBuiltinTransfer Analysis); [|reflexivity].
    unfold assertSome. destruct (transferCFGInitializer _ _ _); reflexivity.
  - reflexivity.
Qed.

End TransferOrder.

(** The block of four elements after B2: the callback sees statement 60
    with the running state at 90 and then statement 61 with it at 151,
    and the initializer that follows finds the value that statement 61
    left. *)
Lemma transferBlock_in_order_witness :
  Elements exSeqBlock
  = [Statement (mkCFGStmt (Some 60)); OtherElement ScopeEnd;
     Statement (mkCFGStmt (Some 61));
     Initializer (mkCFGInitializer
                    (Some (mkCtorInit (Some 61) (Some (mkFieldDecl 2 false)))))]
  /\ computeBlockInputState exEnvOps exSetOrder exDtorCtx exDtorStore exSeqBlock
       exEmptyEnv exCounting = Some (exState 30)
  /\ exists St Log,
       transferBlock exEnvOps exSetOrder exTransfer exDtorCtx exSeqBlock exEmptyEnv
         exCounting exLog (mkMem exDtorStore []) = Some (St, mkMem exDtorStore Log)
       /\ Lattice St = 151
       /\ exLogged Log = [(Some 60, 90); (Some 61, 151)]
       /\ LocToVal (Env St) !! 3 = Some (IntVal 61).
Proof.
  split; [reflexivity|]. split; [reflexivity|].
  destruct (transferBlock_in_order exEnvOps exSetOrder exTransfer exDtorCtx exSeqBlock
              exEmptyEnv exCounting exLog (mkMem exDtorStore [])) as (Hrun & _).
  rewrite Hrun.
  destruct (blockExit exEnvOps exSetOrder exTransfer exDtorCtx exSeqBlock exEmptyEnv
              exCounting exLog (mkMem exDtorStore [])) as [[St Log]|] eqn:HB;
    [|discriminate HB].
  exists St, Log. injection HB as <- <-. repeat split; reflexivity.
Defined.

(** * The driver: the unreachable first edge and the blocks reached *)

Section DriverEdges.

Context {TypeErasedLattice Environment StorageLocation Value WorklistT : Type}.

Abbreviation State := (TypeErasedDataflowAnalysisState TypeErasedLattice Environment).
Abbreviation Store := (list (option State)).
Abbreviation Analysis_t := (TypeErasedDataflowAnalysis TypeErasedLattice Environment).
Abbreviation DriverState_t := (@DriverState TypeErasedLattice Environment WorklistT).

Variable EnvOps : EnvironmentOps TypeErasedLattice Environment StorageLocation Value.
Variable SetOrder : DenseSetOrder.
Variable transfer :
  (Stmt -> option Environment) -> Stmt -> Environment -> option Environment.
Variable WorklistOps : ForwardDataflowWorklistOps WorklistT.

Variable CFCtx : ControlFlowContext.
Variable Analysis : Analysis_t.
Variable InitEnv : Environment.

Abbreviation step := (driverStep EnvOps SetOrder transfer WorklistOps CFCtx Analysis InitEnv).
Abbreviation loop := (driverLoop EnvOps SetOrder transfer WorklistOps CFCtx Analysis InitEnv).
Abbreviation after := (afterIterations EnvOps SetOrder transfer WorklistOps CFCtx Analysis InitEnv).
Abbreviation run :=
  (runTypeErasedDataflowAnalysis EnvOps SetOrder transfer WorklistOps CFCtx Analysis InitEnv).
Abbreviation blockID BlockP := (getBlockID (getBlock (getCFG CFCtx) BlockP)).
Abbreviation blockAt BlockP := (getBlock (getCFG CFCtx) BlockP).
Abbreviation entry := (getEntry (getCFG CFCtx)).

Implicit Types (st : DriverState_t) (Vec : Store) (B C : BlockPtr).



Variable good : WorklistT -> Prop.
Variable pending : WorklistT -> BlockPtr -> Prop.

Hypothesis Laws : WorklistLaws WorklistOps CFCtx good pending.
Hypothesis EntryReturns : hasNoReturnElement (blockAt entry) = false.
Hypothesis ReachedIDs : forall B C,
  reached CFCtx B -> reached CFCtx C -> blockID B = blockID C -> B = C.

Abbreviation invariant :=
  (@reachInvariant TypeErasedLattice Environment WorklistT CFCtx good pending).

Lemma reachInvariant_initial st0 :
  initialState WorklistOps CFCtx Analysis InitEnv = Some st0 -> invariant st0.
Proof.
  intros Hinit.
  destruct (initialState_facts _ _ _ _ _ Hinit) as (_ & _ & Hentry).
  pose proof (initialState_only_entry _ _ _ _ _ Hinit) as Honly.
  assert (HW : Worklist st0
               = enqueueSuccessors WorklistOps (newWorklist WorklistOps (getCFG CFCtx)) entry).
  { unfold initialState in Hinit. destruct (decide _); [|discriminate].
    now injection Hinit as <-. }
  assert (Hnew : good (newWorklist WorklistOps (getCFG CFCtx))) by apply Laws.
  unfold reachInvariant. rewrite HW. split_and!.
  - now apply Laws.
  - eauto.
  - intros C HC. apply (pending_enqueue_only _ _ _ _ Laws _ _ _ Hnew) in HC as [HC|HC].
    + now apply (pending_new _ _ _ _ Laws) in HC.
    + exact (reached_succ _ _ _ (reached_entry _) EntryReturns HC).
  - intros ID St HID. exists entry. split; [constructor|].
    symmetry. exact (Honly _ _ HID).
  - intros B C St HB _ Hset HC. left.
    assert (B = entry) as ->.
    { apply ReachedIDs; [exact HB|constructor|exact (Honly _ _ Hset)]. }
    now apply (pending_enqueue_adds _ _ _ _ Laws).
Qed.

Lemma reachInvariant_step st st' :
  invariant st -> step st = Continue st' -> invariant st'.
Proof.
  intros (Hgood & Hentry & Hpend & Hset & Hclosed) Hstep.
  destruct (driverStep_Continue _ _ _ _ _ _ _ _ _ Hstep)
    as (B & W1 & New & Mem1 & Old & Hdq & _ & _ & _ & Hframe & Hold & Hmem & HW).
  destruct (driverStep_slots _ _ _ _ _ _ _ _ _ Hstep) as (_ & Hmono & _).
  assert (HgoodW1 : good W1) by exact (good_dequeue _ _ _ _ Laws _ _ _ Hgood Hdq).
  assert (HpB : pending (Worklist st) B)
    by exact (pending_dequeue_Some _ _ _ _ Laws _ _ _ Hgood Hdq).
  assert (HrB : reached CFCtx B) by now apply Hpend.
  assert (HltB : blockID B < length (BlockStates (Memory st))).
  { eapply lookup_lt_Some; exact Hold. }
  assert (Hkeep : forall C, pending (Worklist st) C -> C <> B ->
                    pending (Worklist st') C).
  { intros C HC Hne.
    pose proof (pending_dequeue_keeps _ _ _ _ Laws _ _ _ _ Hgood Hdq HC Hne) as HC1.
    rewrite HW. destruct (_ || _); [exact HC1|].
    now apply (pending_enqueue_keeps _ _ _ _ Laws). }
  assert (HsetB : exists St, BlockStates (Memory st') !! blockID B = Some (Some St)).
  { destruct (driverStep_slots _ _ _ _ _ _ _ _ _ Hstep) as (_ & _ & Hdeq).
    apply Hdeq. now rewrite Hdq. }
  unfold reachInvariant. split_and!.
  - rewrite HW. destruct (_ || _); [exact HgoodW1|]. now apply Laws.
  - destruct Hentry as [St HSt]. exact (Hmono _ _ HSt).
  - intros C. rewrite HW.
    destruct (stateUnchanged EnvOps Analysis Old New); simpl.
    + intros HC. apply Hpend.
      exact (pending_dequeue_only _ _ _ _ Laws _ _ _ _ Hgood Hdq HC).
    + destruct (hasNoReturnElement (blockAt B)) eqn:Hflag.
      * intros HC. apply Hpend.
        exact (pending_dequeue_only _ _ _ _ Laws _ _ _ _ Hgood Hdq HC).
      * intros HC.
        apply (pending_enqueue_only _ _ _ _ Laws _ _ _ HgoodW1) in HC as [HC|HC].
        -- apply Hpend. exact (pending_dequeue_only _ _ _ _ Laws _ _ _ _ Hgood Hdq HC).
        -- exact (reached_succ _ _ _ HrB Hflag HC).
  - intros ID St. rewrite Hmem.
    destruct (stateUnchanged EnvOps Analysis Old New).
    + rewrite Hframe. apply Hset.
    + simpl. rewrite Hframe.
      destruct (decide (ID = blockID B)) as [->|Hne].
      * intros _. now exists B.
      * rewrite list_lookup_insert_ne by congruence. apply Hset.
  - intros B' C St HrB' Hflag' Hset' HC.
    assert (Hwas : (exists St0, BlockStates (Memory st) !! blockID B' = Some (Some St0))
                   \/ (B' = B
                       /\ stateUnchanged EnvOps Analysis Old New = false)).
    { rewrite Hmem in Hset'.
      destruct (stateUnchanged EnvOps Analysis Old New).
      - left. rewrite Hframe in Hset'. eauto.
      - simpl in Hset'. rewrite Hframe in Hset'.
        destruct (decide (blockID B' = blockID B)) as [Heq|Hne].
        + right. split; [|reflexivity]. now apply ReachedIDs.
        + left. rewrite list_lookup_insert_ne in Hset' by congruence. eauto. }
    destruct Hwas as [[St0 Hwas]|[-> Hchanged]].
    + destruct (Hclosed _ _ _ HrB' Hflag' Hwas HC) as [Hp|[St1 HSt1]].
      * destruct (decide (C = B)) as [->|Hne]; [right; exact HsetB|].
        left. now apply Hkeep.
      * right. exact (Hmono _ _ HSt1).
    + left. rewrite HW, Hchanged, Hflag'. simpl.
      now apply (pending_enqueue_adds _ _ _ _ Laws).
Qed.

Lemma reachInvariant_after n : forall st st',
  invariant st -> after n st = Some st' -> invariant st'.
Proof.
  induction n as [|n IH]; intros st st' Hinv; simpl.
  - now intros [= <-].
  - destruct (step st) as [st1|R|] eqn:Hstep; try discriminate.
    apply IH. exact (reachInvariant_step _ _ Hinv Hstep).
Qed.

(** Away from the broken contracts, the store that a run returns has one
    slot for each block identifier of the graph, and its set slots are
    those of the reached blocks, the entry block among them: an unset slot
    is the slot of no reached block. *)
Lemma run_sets_reached_blocks Vec :
  run = Some (Returned (Success Vec)) ->
  length Vec = size (getCFG CFCtx)
  /\ (exists St, Vec !! blockID entry = Some (Some St))
  /\ (forall C, reached CFCtx C -> exists St, Vec !! blockID C = Some (Some St))
  /\ (forall ID, Vec !! ID = Some None -> forall C, reached CFCtx C -> blockID C <> ID)
  /\ (forall ID St, Vec !! ID = Some (Some St) ->
        exists C, reached CFCtx C /\ blockID C = ID).
Proof.
  unfold runTypeErasedDataflowAnalysis.
  destruct (initialState WorklistOps CFCtx Analysis InitEnv) as [st0|] eqn:Hinit;
    [|discriminate].
  intros Hloop.
  destruct (initialState_facts _ _ _ _ _ Hinit) as (_ & Hlen & _).
  destruct (driverLoop_Success _ _ _ _ _ _ _ _ _ _ Hloop) as (HlenV & _ & _).
  destruct (driverLoop_Success_inv _ _ _ _ _ _ _ _ _ _ Hloop)
    as (n & st' & Haf & Hd & <- & _).
  destruct (reachInvariant_after _ _ _ (reachInvariant_initial _ Hinit) Haf)
    as (Hgood & Hentry & _ & Hset & Hclosed).
  assert (Hnone : forall C, ~ pending (Worklist st') C).
  { intros C. destruct (dequeue WorklistOps (Worklist st')) as [o W'] eqn:Hdq.
    simpl in Hd. subst o.
    exact (pending_dequeue_None _ _ _ _ Laws _ _ _ Hgood Hdq). }
  assert (Hall : forall C, reached CFCtx C ->
            exists St, BlockStates (Memory st') !! blockID C = Some (Some St)).
  { intros C HC. induction HC as [|B C HB IH Hflag HC]; [exact Hentry|].
    destruct IH as [St HSt].
    destruct (Hclosed _ _ _ HB Hflag HSt HC) as [Hp|HS]; [|exact HS].
    now apply Hnone in Hp. }
  split_and!.
  - congruence.
  - exact Hentry.
  - exact Hall.
  - intros ID Hunset C HC Heq. destruct (Hall _ HC) as [St HSt]. congruence.
  - exact Hset.
Qed.

End DriverEdges.


(** The graph with the destructor has a worklist that keeps the laws
    and blocks with identifiers of their own: the run on it sets the slot
    of every block that is reached. *)
Lemma exDtor_reached_set :
  exists Vec,
    exRun exDtorCtx exCounting = Some (Returned (Success Vec))
    /\ length Vec = 8
    /\ forall C, reached exDtorCtx C -> exists St, Vec !! C = Some (Some St).
Proof.
  exists exDtorResult. split; [exact exDtorResult_run|].
  destruct (run_sets_reached_blocks exEnvOps exSetOrder exTransfer exWorklistOps
              exDtorCtx exCounting exEmptyEnv exGood exPending exDtorLaws eq_refl)
    with (Vec := exDtorResult) as (Hlen & _ & Hall & _).
  - intros B C HB HC.
    assert (Hlt : forall D, reached exDtorCtx D -> D < 8).
    { intros D HD. induction HD as [|D1 D2 HD1 IH _ HD2]; [simpl; lia|].
      exact (valid_succ _ _ exDtorGraph _ _ IH HD2). }
    exact (blockID_inj _ _ exDtorGraph _ _ (Hlt _ HB) (Hlt _ HC)).
  - exact exDtorResult_run.
  - split; [exact Hlen|]. intros C HC.
    assert (Hlt : C < 8).
    { induction HC as [|D1 D2 HD1 IH _ HD2]; [simpl; lia|].
      exact (valid_succ _ _ exDtorGraph _ _ IH HD2). }
    destruct (Hall C HC) as [St HSt]. exists St.
    do 8 (destruct C as [|C]; [exact HSt|]). lia.
Qed.

(** * The M68k code emitter: words, byte positions and constants *)

Section M68kWords.
Local Open Scope Z_scope.

Lemma land_mask (v n : Z) : 0 <= n -> Z.land v (2 ^ n - 1) = v mod 2 ^ n.
Proof. intros. rewrite <- Z.land_ones by lia. f_equal. rewrite Z.ones_equiv. lia. Qed.

Lemma lor_disjoint (a b k : Z) :
  0 <= k -> 0 <= b < 2 ^ k -> a mod 2 ^ k = 0 -> Z.lor a b = a + b.
Proof.
  intros Hk Hb Ha.
  assert (Hland : Z.land a b = 0).
  { apply Z.bits_inj'. intros n Hn. rewrite Z.land_spec, Z.bits_0.
    destruct (Z.lt_ge_cases n k) as [Hlt|Hge].
    - assert (Hbit : Z.testbit (a mod 2 ^ k) n = Z.testbit a n)
        by (apply Z.mod_pow2_bits_low; lia).
      rewrite Ha, Z.bits_0 in Hbit. rewrite <- Hbit. reflexivity.
    - assert (Hbit : Z.testbit (b mod 2 ^ k) n = false)
        by (apply Z.mod_pow2_bits_high; lia).
      rewrite Z.mod_small in Hbit by lia. rewrite Hbit. apply andb_false_r. }
  rewrite <- Z.lxor_lor by exact Hland.
  symmetry. apply Z.add_nocarry_lxor. exact Hland.
Qed.

Lemma land_255 v : Z.land v 255 = v mod 256.
Proof. exact (land_mask v 8 ltac:(lia)). Qed.
Lemma land_65535 v : Z.land v 65535 = v mod 65536.
Proof. exact (land_mask v 16 ltac:(lia)). Qed.
Lemma land_15 v : Z.land v 15 = v mod 16.
Proof. exact (land_mask v 4 ltac:(lia)). Qed.

Lemma wrap_to_int y : wrap 32 (to_int y) = wrap 32 y.
Proof.
  unfold wrap, to_int. change (2 ^ 32) with 4294967296. change (2 ^ 31) with 2147483648.
  Z.div_mod_to_equations. lia.
Qed.

Ltac arith :=
  rewrite ?land_255, ?land_65535, ?land_15, ?Z.shiftr_div_pow2, ?Z.shiftl_mul_pow2 by lia.

Lemma ByteSwap_16_arith v : ByteSwap_16 v = v mod 256 * 256 + v / 256 mod 256.
Proof.
  unfold ByteSwap_16. arith. change (2 ^ 8) with 256.
  apply (lor_disjoint _ _ 8); [lia| change (2^8) with 256; Z.div_mod_to_equations; lia ..].
Qed.

Lemma ByteSwap_32_arith v :
  ByteSwap_32 v = v mod 256 * 16777216 + v / 256 mod 256 * 65536
                  + v / 65536 mod 256 * 256 + v / 16777216 mod 256.
Proof.
  unfold ByteSwap_32. arith.
  change (2 ^ 8) with 256. change (2 ^ 16) with 65536. change (2 ^ 24) with 16777216.
  rewrite (lor_disjoint (_ * 16777216) (_ * 65536) 24)
    by (change (2 ^ 24) with 16777216; Z.div_mod_to_equations; lia).
  rewrite (lor_disjoint (_ + _) (_ * 256) 16)
    by (change (2 ^ 16) with 65536; Z.div_mod_to_equations; lia).
  rewrite (lor_disjoint _ _ 8) by (change (2 ^ 8) with 256; Z.div_mod_to_equations; lia).
  reflexivity.
Qed.


Lemma int_shl_word (p i : Z) :
  0 <= p < 65536 -> i = 0 \/ i = 1 ->
  int_shl p (i * 16) ≫= (λ Shifted, Some (wrap (8 * 4) Shifted))
  = Some (p * 2 ^ (i * 16)).
Proof.
  intros Hp Hi. unfold int_shl.
  assert (Hlt : p * 2 ^ (i * 16) < 2 ^ 32).
  { destruct Hi as [-> | ->]; [change (2 ^ (0 * 16)) with 1|change (2 ^ (1 * 16)) with 65536];
      change (2 ^ 32) with 4294967296; lia. }
  assert (Hge : 0 <= p * 2 ^ (i * 16)).
  { destruct Hi as [-> | ->]; [change (2 ^ (0 * 16)) with 1|change (2 ^ (1 * 16)) with 65536]; lia. }
  replace (i * 16 <? 32) with true by (symmetry; apply Z.ltb_lt; lia).
  replace (p * 2 ^ (i * 16) <? 2 ^ 32) with true by (symmetry; apply Z.ltb_lt; lia).
  cbn [andb mbind option_bind]. change (8 * 4) with 32.
  rewrite wrap_to_int. unfold wrap. rewrite Z.mod_small by lia. reflexivity.
Qed.

Lemma byte_swap_16_range host p : 0 <= p < 65536 -> 0 <= byte_swap host 2 p big < 65536.
Proof.
  intros Hp. destruct host; cbn [byte_swap]; [lia|].
  change (swapByteOrder 2 p) with (ByteSwap_16 p). rewrite ByteSwap_16_arith.
  Z.div_mod_to_equations. lia.
Qed.

Lemma swapWord_round_32 host Val acc i :
  i = 0 \/ i = 1 ->
  swapWord_round host 4 Val (Some acc) i
  = Some (Z.lor acc (byte_swap host 2 (Val / 2 ^ (i * 16) mod 65536) big * 2 ^ (i * 16))).
Proof.
  intros Hi. unfold swapWord_round. cbn [mbind option_bind].
  rewrite land_65535, Z.shiftr_div_pow2 by lia.
  pose proof (byte_swap_16_range host (Val / 2 ^ (i * 16) mod 65536)
                ltac:(Z.div_mod_to_equations; lia)) as Hr.
  pose proof (int_shl_word _ i Hr Hi) as Hs.
  destruct (int_shl _ _) as [Shifted|]; cbn [mbind option_bind] in Hs |- *; [|discriminate].
  injection Hs as ->. reflexivity.
Qed.


Lemma bytes_of (v : Z) : 0 <= v < 4294967296 ->
  exists b0 b1 b2 b3,
    (0 <= b0 < 256 /\ 0 <= b1 < 256 /\ 0 <= b2 < 256 /\ 0 <= b3 < 256) /\
    v = b0 + 256 * b1 + 65536 * b2 + 16777216 * b3.
Proof.
  intros Hv. exists (v mod 256), (v / 256 mod 256), (v / 65536 mod 256), (v / 16777216).
  Z.div_mod_to_equations. lia.
Qed.

Ltac dm := Z.div_mod_to_equations; lia.

Lemma swapWord_32 host v : 0 <= v < 2 ^ 32 ->
  swapWord host 4 v
  = Some (match host with big => v | little => v mod 2 ^ 16 * 2 ^ 16 + v / 2 ^ 16 end).
Proof.
  intros Hv. change (2 ^ 32) with 4294967296 in Hv.
  change (2 ^ 16) with 65536.
  unfold swapWord. change (4 / 2 <=? 1) with false. cbv iota.
  change (seqZ 0 (4 / 2)) with [0; 1]. cbn [fold_left].
  rewrite !swapWord_round_32 by auto. f_equal.
  change (2 ^ (0 * 16)) with 1. change (2 ^ (1 * 16)) with 65536.
  rewrite Z.lor_0_l, Z.lor_comm, Z.div_1_r.
  destruct host; cbn [byte_swap].
  - rewrite (lor_disjoint _ _ 16) by (change (2 ^ 16) with 65536; dm).
    dm.
  - change (swapByteOrder 4 v) with (ByteSwap_32 v).
    change (swapByteOrder 2) with ByteSwap_16.
    rewrite ByteSwap_32_arith.
    destruct (bytes_of v Hv) as (b0 & b1 & b2 & b3 & Hb & ->).
    set (V := b0 + 256 * b1 + 65536 * b2 + 16777216 * b3).
    assert (E0 : V mod 256 = b0) by (subst V; dm).
    assert (E1 : V / 256 mod 256 = b1) by (subst V; dm).
    assert (E2 : V / 65536 mod 256 = b2) by (subst V; dm).
    assert (E3 : V / 16777216 mod 256 = b3) by (subst V; dm).
    assert (E4 : V mod 65536 = b0 + 256 * b1) by (subst V; dm).
    assert (E5 : V / 65536 = b2 + 256 * b3) by (subst V; dm).
    rewrite E0, E1, E2, E3, E4, E5. clearbody V. clear E0 E1 E2 E3 E4 E5.
    set (S := b0 * 16777216 + b1 * 65536 + b2 * 256 + b3).
    assert (F0 : S mod 65536 = b2 * 256 + b3) by (subst S; dm).
    assert (F1 : S / 65536 mod 65536 = b0 * 256 + b1) by (subst S; dm).
    rewrite F0, F1. clearbody S. clear F0 F1.
    rewrite !ByteSwap_16_arith.
    assert (G0 : (b2 * 256 + b3) mod 256 = b3) by dm.
    assert (G1 : (b2 * 256 + b3) / 256 mod 256 = b2) by dm.
    assert (G2 : (b0 * 256 + b1) mod 256 = b1) by dm.
    assert (G3 : (b0 * 256 + b1) / 256 mod 256 = b0) by dm.
    rewrite G0, G1, G2, G3.
    rewrite (lor_disjoint _ _ 16) by (change (2 ^ 16) with 65536; try dm; lia).
    lia.
Qed.

Lemma swapWord_narrow host bytes v : bytes = 1 \/ bytes = 2 -> swapWord host bytes v = Some v.
Proof. intros [-> | ->]; reflexivity. Qed.

(** X14: on a 32-bit value [swapWord] exchanges the two 16-bit words on a
    little-endian host, keeping the bytes of each word in place, and
    changes nothing on a big-endian host. *)
Theorem swapWord_exchanges_words (host : endianness) (v : Z) :
  0 <= v < 2 ^ 32 ->
  swapWord host 4 v
  = Some (match host with
          | big => v
          | little => v mod 2 ^ 16 * 2 ^ 16 + v / 2 ^ 16
          end).
Proof. exact (swapWord_32 host v). Qed.

(** X15: on values of one, two or four bytes [swapWord] returns a value of
    the same width, and applying it twice gives the value back. *)
Theorem swapWord_involutive (host : endianness) (bytes v : Z) :
  bytes = 1 \/ bytes = 2 \/ bytes = 4 ->
  0 <= v < 2 ^ (8 * bytes) ->
  exists w, swapWord host bytes v = Some w /\
            0 <= w < 2 ^ (8 * bytes) /\
            swapWord host bytes w = Some v.
Proof.
  intros Hb Hv. destruct Hb as [-> | [-> | ->]].
  - exists v. rewrite swapWord_narrow by auto. auto.
  - exists v. rewrite swapWord_narrow by auto. auto.
  - change (2 ^ (8 * 4)) with (2 ^ 32) in *. rewrite (swapWord_32 host v Hv).
    destruct host.
    + exists v. split; [reflexivity|]. split; [exact Hv|]. apply (swapWord_32 big v Hv).
    + change (2 ^ 32) with 4294967296 in *. change (2 ^ 16) with 65536.
      assert (Hw : 0 <= v mod 65536 * 65536 + v / 65536 < 4294967296) by dm.
      eexists. split; [reflexivity|]. split; [exact Hw|].
      change 4294967296 with (2 ^ 32) in Hw.
      rewrite (swapWord_32 little _ Hw). f_equal. change (2 ^ 16) with 65536. dm.
Qed.

(** X16: instantiated at an 8-byte type, [swapWord] always leaves defined
    behaviour: its third round shifts a 16-bit part, promoted to a 32-bit
    [int], by 32 bits. *)
Theorem swapWord_64_undefined (host : endianness) (v : Z) :
  swapWord host 8 v = None.
Proof.
  unfold swapWord. change (8 / 2 <=? 1) with false. cbv iota.
  change (seqZ 0 (8 / 2)) with [0; 1; 2; 3]. cbn [fold_left].
  set (V := byte_swap host 8 v big).
  destruct (swapWord_round host 8 V (swapWord_round host 8 V (Some 0) 0) 1) as [acc|];
    reflexivity.
Qed.

(** X17: for a field that is not a whole number of words,
    [getBytePosition] gives the other byte of the 16-bit word that holds
    the bit: the same word, the opposite byte, without wrap-around. *)
Theorem getBytePosition_other_byte (Size BitPos : Z) :
  Size mod 16 <> 0 ->
  0 <= BitPos < 2 ^ 32 ->
  exists r, getBytePosition Size BitPos = Some r /\
            r = Z.lxor (BitPos / 8) 1 /\
            r / 2 = BitPos / 16 /\
            r mod 2 = 1 - BitPos / 8 mod 2.
Proof.
  intros HS HB. change (2 ^ 32) with 4294967296 in HB.
  unfold getBytePosition.
  replace (Size mod 16 =? 0) with false by (symmetry; apply Z.eqb_neq; exact HS).
  cbn [negb]. rewrite land_15. unfold wrap. change (2 ^ 32) with 4294967296.
  eexists. split; [reflexivity|].
  assert (Hx : forall k, 0 <= k -> Z.lxor k 1 = if k mod 2 =? 0 then k + 1 else k - 1).
  { intros k Hk. destruct (Z.eqb_spec (k mod 2) 0) as [He|Ho].
    - symmetry. apply Z.add_nocarry_lxor.
      change 1 with (Z.ones 1). rewrite Z.land_ones by lia. exact He.
    - assert (Hk1 : (k - 1) mod 2 = 0) by dm.
      replace k with ((k - 1) + 1) at 1 by lia.
      rewrite (Z.add_nocarry_lxor (k - 1) 1)
        by (change 1 with (Z.ones 1); rewrite Z.land_ones by lia; exact Hk1).
      rewrite Z.lxor_assoc, Z.lxor_nilpotent, Z.lxor_0_r. reflexivity. }
  rewrite Hx by dm.
  destruct (Z.ltb_spec (BitPos mod 16) 8) as [Hlt|Hge];
    destruct (Z.eqb_spec (BitPos / 8 mod 2) 0) as [He|Ho]; try dm.
  all: split; [|split]; dm.
Qed.

Lemma lor_lt_pow2 (a b n : Z) :
  0 <= a < 2 ^ n -> 0 <= b < 2 ^ n -> 0 <= Z.lor a b < 2 ^ n.
Proof.
  intros Ha Hb.
  assert (Hn : 0 <= n).
  { destruct (Z.lt_ge_cases n 0) as [Hneg|]; [|lia].
    rewrite Z.pow_neg_r in Ha by lia. lia. }
  assert (Hnn : 0 <= Z.lor a b) by (apply Z.lor_nonneg; lia).
  split; [exact Hnn|].
  destruct (Z.eq_dec (Z.lor a b) 0) as [-> | Hz]; [lia|].
  apply Z.log2_lt_pow2; [lia|].
  rewrite Z.log2_lor by lia.
  assert (La : Z.log2 a < n).
  { destruct (Z.eq_dec a 0) as [-> | ]; [change (Z.log2 0) with 0|apply Z.log2_lt_pow2]; try lia.
    destruct (Z.eq_dec n 0) as [-> | ]; [|lia]. simpl in Hb. 
    assert (b = 0) by lia. subst b. rewrite Z.lor_0_r in Hz. lia. }
  assert (Lb : Z.log2 b < n).
  { destruct (Z.eq_dec b 0) as [-> | ]; [change (Z.log2 0) with 0|apply Z.log2_lt_pow2]; try lia.
    destruct (Z.eq_dec n 0) as [-> | ]; [|lia]. simpl in Ha.
    assert (a = 0) by lia. subst a. rewrite Z.lor_0_l in Hz. lia. }
  lia.
Qed.

Lemma testbit_above (v n k : Z) : 0 <= v < 2 ^ k -> k <= n -> Z.testbit v n = false.
Proof.
  intros Hv Hn.
  assert (Hk : 0 <= k).
  { destruct (Z.lt_ge_cases k 0) as [Hneg|]; [|lia].
    rewrite Z.pow_neg_r in Hv by lia. lia. }
  rewrite <- (Z.mod_small v (2 ^ k)) by lia.
  apply Z.mod_pow2_bits_high. lia.
Qed.

Lemma EmitConstant_value (Val Size Pad Buffer Offset : Z) :
  0 < Size -> 0 <= Offset -> Size + Offset <= 64 -> Size < 64 ->
  0 <= Pad -> Size + Pad < 2 ^ 32 ->
  0 <= Val < 2 ^ Size ->
  EmitConstant Val Size Pad Buffer Offset
  = Some (Size + Pad, Z.lor Buffer (Z.shiftl Val Offset)).
Proof.
  intros HS HO HSO HS64 HP HSP HV. unfold EmitConstant, isUIntN, wrap.
  change (2 ^ 32) with 4294967296 in *.
  rewrite (Z.mod_small (Size + Offset)) by lia.
  replace (Size + Offset <=? 64) with true by (symmetry; apply Z.leb_le; lia).
  replace (0 <? Size) with true by (symmetry; apply Z.ltb_lt; lia).
  replace (Val <? 2 ^ Size) with true by (symmetry; apply Z.ltb_lt; lia).
  rewrite orb_true_r. cbn [andb].
  replace (Size <? 64) with true by (symmetry; apply Z.ltb_lt; lia).
  replace (Offset <? 64) with true by (symmetry; apply Z.ltb_lt; lia).
  cbn [andb].
  rewrite (Z.mod_small (Size + Pad)) by lia.
  assert (Hpow : 1 <= 2 ^ Size < 2 ^ 64).
  { split; [pose proof (Z.pow_pos_nonneg 2 Size); lia|apply Z.pow_lt_mono_r; lia]. }
  rewrite Z.shiftl_1_l. rewrite (Z.mod_small (2 ^ Size)) by lia.
  rewrite (Z.mod_small (2 ^ Size - 1)) by lia.
  rewrite land_mask by lia. rewrite (Z.mod_small Val) by lia.
  rewrite (Z.mod_small (Z.shiftl Val Offset)); [reflexivity|].
  rewrite Z.shiftl_mul_pow2 by lia.
  assert (Hle : 2 ^ (Size + Offset) <= 2 ^ 64) by (apply Z.pow_le_mono_r; lia).
  rewrite Z.pow_add_r in Hle by lia.
  pose proof (Z.pow_pos_nonneg 2 Offset ltac:(lia) HO). nia.
Qed.

(** X18: when its assertion holds, [EmitConstant] returns [Size + Pad],
    keeps [Buffer] within 64 bits, and changes no bit of [Buffer]
    outside the field of [Size] bits at [Offset]; inside the field it
    only sets bits. *)
Theorem EmitConstant_frame (Val Size Pad Buffer Offset : Z) :
  0 < Size -> 0 <= Offset -> Size + Offset <= 64 -> Size < 64 ->
  0 <= Pad -> Size + Pad < 2 ^ 32 ->
  0 <= Val < 2 ^ Size ->
  0 <= Buffer < 2 ^ 64 ->
  exists Buffer',
    EmitConstant Val Size Pad Buffer Offset = Some (Size + Pad, Buffer') /\
    0 <= Buffer' < 2 ^ 64 /\
    (forall n, 0 <= n -> ~ (Offset <= n < Offset + Size) ->
               Z.testbit Buffer' n = Z.testbit Buffer n) /\
    (forall n, Z.testbit Buffer n = true -> Z.testbit Buffer' n = true).
Proof.
  intros HS HO HSO HS64 HP HSP HV HB.
  rewrite EmitConstant_value by assumption.
  eexists. split; [reflexivity|]. split; [|split].
  - apply lor_lt_pow2; [exact HB|].
    rewrite Z.shiftl_mul_pow2 by lia.
    assert (Hle : 2 ^ (Size + Offset) <= 2 ^ 64) by (apply Z.pow_le_mono_r; lia).
    rewrite Z.pow_add_r in Hle by lia.
    pose proof (Z.pow_pos_nonneg 2 Offset ltac:(lia) HO). nia.
  - intros n Hn Hout. rewrite Z.lor_spec, Z.shiftl_spec by lia.
    destruct (Z.lt_ge_cases n Offset) as [Hlt|Hge].
    + rewrite (Z.testbit_neg_r Val) by lia. apply orb_false_r.
    + rewrite (testbit_above Val (n - Offset) Size) by lia. apply orb_false_r.
  - intros n Hbit. rewrite Z.lor_spec, Hbit. reflexivity.
Qed.

Lemma field_read_back (Val Size Buffer Offset : Z) :
  0 <= Offset -> 0 <= Val < 2 ^ Size ->
  (forall n, Offset <= n < Offset + Size -> Z.testbit Buffer n = false) ->
  Z.land (Z.shiftr (Z.lor Buffer (Z.shiftl Val Offset)) Offset) (Z.ones Size) = Val.
Proof.
  intros HO HV Hclear.
  assert (HS : 0 <= Size).
  { destruct (Z.lt_ge_cases Size 0) as [Hneg|]; [|lia].
    rewrite Z.pow_neg_r in HV by lia. lia. }
  apply Z.bits_inj'. intros n Hn.
  rewrite Z.land_spec, Z.shiftr_spec, Z.lor_spec, Z.shiftl_spec by lia.
  replace (n + Offset - Offset) with n by lia.
  destruct (Z.lt_ge_cases n Size) as [Hlt|Hge].
  - rewrite Z.ones_spec_low by lia. rewrite Hclear by lia.
    rewrite andb_true_r. reflexivity.
  - rewrite Z.ones_spec_high by lia. rewrite andb_false_r.
    symmetry. apply (testbit_above Val n Size); lia.
Qed.

(** X19: a constant written by [EmitConstant] into a field of [Buffer]
    that was clear is read back from that field unchanged. *)
Theorem EmitConstant_read_back (Val Size Pad Buffer Offset : Z) :
  0 < Size -> 0 <= Offset -> Size + Offset <= 64 -> Size < 64 ->
  0 <= Pad -> Size + Pad < 2 ^ 32 ->
  0 <= Val < 2 ^ Size ->
  (forall n, Offset <= n < Offset + Size -> Z.testbit Buffer n = false) ->
  exists Buffer',
    EmitConstant Val Size Pad Buffer Offset = Some (Size + Pad, Buffer') /\
    Z.land (Z.shiftr Buffer' Offset) (Z.ones Size) = Val.
Proof.
  intros HS HO HSO HS64 HP HSP HV Hclear.
  rewrite EmitConstant_value by assumption.
  eexists. split; [reflexivity|].
  apply field_read_back; assumption.
Qed.

Lemma getBytePosition_arith (Size BitPos : Z) :
  Size mod 16 <> 0 -> 0 <= BitPos < 2 ^ 32 ->
  getBytePosition Size BitPos
  = Some (if BitPos mod 16 <? 8 then BitPos / 8 + 1 else BitPos / 8 - 1).
Proof.
  intros HS HB. change (2 ^ 32) with 4294967296 in HB. unfold getBytePosition.
  replace (Size mod 16 =? 0) with false by (symmetry; apply Z.eqb_neq; exact HS).
  cbn [negb]. rewrite land_15. unfold wrap. change (2 ^ 32) with 4294967296.
  f_equal. destruct (Z.ltb_spec (BitPos mod 16) 8); dm.
Qed.

End M68kWords.

Section M68kWordsExamples.
Local Open Scope Z_scope.

Lemma swapWord_exchanges_words_witness :
  0 <= 0x1234ABCD < 2 ^ 32
  /\ swapWord little 4 0x1234ABCD = Some 0xABCD1234.
Proof.
  split; [lia|].
  exact (swapWord_exchanges_words little 0x1234ABCD ltac:(lia)).
Defined.

Lemma swapWord_involutive_witness :
  (4 = 1 \/ 4 = 2 \/ 4 = 4)
  /\ 0 <= 0x1234ABCD < 2 ^ (8 * 4)
  /\ exists w, swapWord little 4 0x1234ABCD = Some w /\
               0 <= w < 2 ^ (8 * 4) /\
               swapWord little 4 w = Some 0x1234ABCD.
Proof.
  split; [right; right; reflexivity|]. split; [lia|].
  exact (swapWord_involutive little 4 0x1234ABCD
           ltac:(right; right; reflexivity) ltac:(lia)).
Defined.

Lemma getBytePosition_other_byte_witness :
  8 mod 16 <> 0
  /\ 0 <= 24 < 2 ^ 32
  /\ exists r, getBytePosition 8 24 = Some r /\
               r = Z.lxor (24 / 8) 1 /\
               r / 2 = 24 / 16 /\
               r mod 2 = 1 - 24 / 8 mod 2.
Proof.
  split; [discriminate|]. split; [lia|].
  exact (getBytePosition_other_byte 8 24 ltac:(discriminate) ltac:(lia)).
Defined.

Lemma EmitConstant_frame_witness :
  0 < 8 /\ 0 <= 4 /\ 8 + 4 <= 64 /\ 8 < 64 /\ 0 <= 8 /\ 8 + 8 < 2 ^ 32
  /\ 0 <= 0xAB < 2 ^ 8
  /\ 0 <= 0xF < 2 ^ 64
  /\ exists Buffer',
       EmitConstant 0xAB 8 8 0xF 4 = Some (8 + 8, Buffer') /\
       0 <= Buffer' < 2 ^ 64 /\
       (forall n, 0 <= n -> ~ (4 <= n < 4 + 8) ->
                  Z.testbit Buffer' n = Z.testbit 0xF n) /\
       (forall n, Z.testbit 0xF n = true -> Z.testbit Buffer' n = true).
Proof.
  repeat (split; [lia|]).
  exact (EmitConstant_frame 0xAB 8 8 0xF 4 ltac:(lia) ltac:(lia) ltac:(lia) ltac:(lia)
           ltac:(lia) ltac:(lia) ltac:(lia) ltac:(lia)).
Defined.

Lemma exClearField (n : Z) : 16 <= n < 16 + 16 -> Z.testbit 0xBEEF n = false.
Proof.
  intros Hn. apply (testbit_above 0xBEEF n 16); lia.
Qed.

Lemma EmitConstant_read_back_witness :
  0 < 16 /\ 0 <= 16 /\ 16 + 16 <= 64 /\ 16 < 64 /\ 0 <= 0 /\ 16 + 0 < 2 ^ 32
  /\ 0 <= 0x1234 < 2 ^ 16
  /\ (forall n, 16 <= n < 16 + 16 -> Z.testbit 0xBEEF n = false)
  /\ exists Buffer',
       EmitConstant 0x1234 16 0 0xBEEF 16 = Some (16 + 0, Buffer') /\
       Z.land (Z.shiftr Buffer' 16) (Z.ones 16) = 0x1234.
Proof.
  repeat (split; [lia|]). split; [exact exClearField|].
  exact (EmitConstant_read_back 0x1234 16 0 0xBEEF 16 ltac:(lia) ltac:(lia) ltac:(lia)
           ltac:(lia) ltac:(lia) ltac:(lia) ltac:(lia) exClearField).
Defined.

End M68kWordsExamples.

(** * The M68k code emitter: beads, immediates and instruction words *)

Section M68kEmission.
Local Open Scope Z_scope.

Context {MCExpr MCFixupKind SMLoc : Type}.
Variable Beads : M68kBeads.
Variable T : M68kTarget MCExpr MCFixupKind SMLoc.

Ltac dm := Z.div_mod_to_equations; lia.

Lemma write16_bytes (OS : list Z) (V : Z) :
  write16 OS V = OS ++ [V / 256 mod 256; V mod 256].
Proof.
  unfold write16, wrap. change (2 ^ 16) with 65536.
  rewrite Z.shiftr_div_pow2 by lia. change (2 ^ 8) with 256.
  rewrite land_255. do 3 f_equal; dm.
Qed.

Lemma rotateWords_words (k : nat) (S : EmitState (MCExpr:=MCExpr) (MCFixupKind:=MCFixupKind) (SMLoc:=SMLoc)) :
  Offset S / 16 = Z.of_nat k ->
  0 <= Offset S < 2 ^ 32 ->
  0 <= ThisByte S -> ThisByte S + 2 * Z.of_nat k < 2 ^ 32 ->
  rotateWords k S
  = mkEmit (Buffer S / 2 ^ (16 * Z.of_nat k)) (Offset S mod 16)
           (ThisByte S + 2 * Z.of_nat k) (OS S ++ wordBytes k (Buffer S)) (Fixups S).
Proof.
  revert S. induction k as [|k IH]; intros S Hk HO HT HT2.
  - cbn [rotateWords wordBytes]. change (2 ^ (16 * Z.of_nat 0)) with 1.
    rewrite Z.div_1_r, Z.add_0_r, app_nil_r.
    replace (Offset S mod 16) with (Offset S) by (change (Z.of_nat 0) with 0 in Hk; dm).
    destruct S; reflexivity.
  - cbn [rotateWords wordBytes].
    replace (Offset S / 16 =? 0) with false by (symmetry; apply Z.eqb_neq; lia).
    cbn [negb]. change (2 ^ 32) with 4294967296 in *.
    assert (HO16 : 16 <= Offset S) by dm.
    rewrite IH; cbn [Buffer Offset ThisByte OS Fixups]; unfold wrap;
      change (2 ^ 32) with 4294967296;
      rewrite ?(Z.mod_small (Offset S - 16)), ?(Z.mod_small (ThisByte S + 2)) by lia;
      try lia; try dm.
    rewrite write16_bytes, Z.shiftr_div_pow2 by lia.
    rewrite <- app_assoc. cbn [app].
    f_equal; try lia; try dm.
    rewrite Zdiv.Zdiv_Zdiv by (apply Z.pow_nonneg; lia).
    rewrite <- Z.pow_add_r by lia. do 2 f_equal. lia.
Qed.

Lemma length_wordBytes (n : nat) (V : Z) : length (wordBytes n V) = (2 * n)%nat.
Proof.
  revert V. induction n as [|n IH]; intros V; [reflexivity|].
  cbn [wordBytes length]. rewrite IH. lia.
Qed.

(** X20: the loop that rotates instruction words (lines 556-561) writes
    the [Offset / 16] complete words of [Buffer], lowest word first and
    each word high byte first, removes them from [Buffer], advances
    [ThisByte] by two per word and leaves fewer than 16 bits pending. *)
Theorem flush_emits_words (S : EmitState (MCExpr:=MCExpr) (MCFixupKind:=MCFixupKind) (SMLoc:=SMLoc)) :
  0 <= Offset S < 2 ^ 32 ->
  0 <= ThisByte S -> ThisByte S + 2 * (Offset S / 16) < 2 ^ 32 ->
  let n := Offset S / 16 in
  flush S
  = mkEmit (Buffer S / 2 ^ (16 * n)) (Offset S mod 16) (ThisByte S + 2 * n)
           (OS S ++ wordBytes (Z.to_nat n) (Buffer S)) (Fixups S)
  /\ 0 <= Offset (flush S) < 16
  /\ length (OS (flush S)) = (length (OS S) + 2 * Z.to_nat n)%nat.
Proof.
  intros HO HT HT2 n.
  assert (Hn : 0 <= n) by (subst n; dm).
  assert (Heq : flush S
    = mkEmit (Buffer S / 2 ^ (16 * n)) (Offset S mod 16) (ThisByte S + 2 * n)
             (OS S ++ wordBytes (Z.to_nat n) (Buffer S)) (Fixups S)).
  { unfold flush. fold n.
    rewrite rotateWords_words; rewrite ?Z2Nat.id by lia; try reflexivity; try assumption. }
  split; [exact Heq|]. rewrite Heq. cbn [Offset OS]. split; [dm|].
  rewrite length_app, length_wordBytes. reflexivity.
Qed.



(** The case labels are pairwise distinct and none is the control code. *)
Hypothesis Hcodes : NoDup (0 :: beadCodes Beads).

Lemma codes_distinct :
  forall i j a b, (0 :: beadCodes Beads) !! i = Some a -> (0 :: beadCodes Beads) !! j = Some b ->
                  i <> j -> a <> b.
Proof.
  intros i j a b Hi Hj Hij Hab. subst b.
  apply Hij. eapply NoDup_lookup; eauto.
Qed.

Ltac code_neq i j :=
  apply (codes_distinct i j); [reflexivity | reflexivity | discriminate].

Lemma Imm32_layout (ThisByte : Z) :
  immLayout Beads (Imm32 Beads) ThisByte = (32, 0, ThisByte, 0, false).
Proof.
  unfold immLayout.
  replace (Imm32 Beads =? Disp8 Beads) with false
    by (symmetry; apply Z.eqb_neq; code_neq 12%nat 9%nat).
  replace (Imm32 Beads =? Imm8 Beads) with false
    by (symmetry; apply Z.eqb_neq; code_neq 12%nat 10%nat).
  replace (Imm32 Beads =? Imm16 Beads) with false
    by (symmetry; apply Z.eqb_neq; code_neq 12%nat 11%nat).
  rewrite Z.eqb_refl. reflexivity.
Qed.

Lemma isIntN_32 (I : Z) : - 2 ^ 31 <= I < 2 ^ 31 -> isIntN 32 I = true.
Proof.
  intros HI. unfold isIntN. change (32 - 1) with 31.
  replace (- 2 ^ 31 <=? I) with true by (symmetry; apply Z.leb_le; lia).
  replace (I <? 2 ^ 31) with true by (symmetry; apply Z.ltb_lt; lia).
  reflexivity.
Qed.

Lemma encodeImm_Imm32_value (ThisByte Bead : Z) (MI : MCInst MCExpr SMLoc)
    (Buffer Offset I : Z) (Fixups : list (MCFixup MCExpr MCFixupKind SMLoc)) :
  Z.land Bead 0xF = Imm32 Beads ->
  immOperand T MI Bead = Some (ImmOperand I) ->
  - 2 ^ 31 <= I < 2 ^ 31 ->
  0 <= Offset -> Offset + 32 <= 64 ->
  let v := I mod 2 ^ 32 in
  encodeImm Beads T ThisByte Bead MI Buffer Offset Fixups
  = Some (32,
          Z.lor (Z.lor Buffer (Z.shiftl (v / 65536) Offset))
                (Z.shiftl (v mod 65536) (Offset + 16)),
          Fixups).
Proof.
  intros HT HOp HI HO HO2 v. unfold encodeImm.
  rewrite HT, Imm32_layout, HOp. cbn [mbind option_bind getImm].
  replace (Imm32 Beads =? Imm3 Beads) with false
    by (symmetry; apply Z.eqb_neq; code_neq 12%nat 13%nat).
  cbn [andb]. rewrite isIntN_32 by exact HI. cbn [mbind option_bind].
  change (32 =? 32) with true. cbv iota.
  rewrite land_65535, Z.shiftr_div_pow2, land_65535 by lia.
  change (2 ^ 16) with 65536. unfold wrap. change (2 ^ 64) with 18446744073709551616.
  assert (Hhi : (I mod 18446744073709551616) / 65536 mod 65536 = v / 65536).
  { subst v. change (2 ^ 32) with 4294967296. change (2 ^ 31) with 2147483648 in HI. dm. }
  assert (Hlo : (I mod 18446744073709551616) mod 65536 = v mod 65536).
  { subst v. change (2 ^ 32) with 4294967296. dm. }
  rewrite Hhi, Hlo.
  assert (Hv : 0 <= v < 4294967296) by (subst v; change (2 ^ 32) with 4294967296; dm).
  rewrite (EmitConstant_value (v / 65536) 16 0 Buffer Offset)
    by (change (2 ^ 32) with 4294967296; change (2 ^ 16) with 65536; try lia; dm).
  cbn [mbind option_bind fst snd]. change (2 ^ 32) with 4294967296.
  rewrite (Z.mod_small (Offset + (16 + 0))) by lia.
  rewrite (EmitConstant_value (v mod 65536) 16 0 _ (Offset + (16 + 0)))
    by (change (2 ^ 32) with 4294967296; change (2 ^ 16) with 65536; try lia; dm).
  cbn [mbind option_bind fst snd]. replace (Offset + (16 + 0)) with (Offset + 16) by lia.
  reflexivity.
Qed.


Ltac code_index a k :=
  first [ unify a 0; k 0%nat
        | unify a (Bits1 Beads); k 1%nat | unify a (Bits2 Beads); k 2%nat
        | unify a (Bits3 Beads); k 3%nat | unify a (Bits4 Beads); k 4%nat
        | unify a (DAReg Beads); k 5%nat | unify a (DA Beads); k 6%nat
        | unify a (Reg Beads); k 7%nat | unify a (DReg Beads); k 8%nat
        | unify a (Disp8 Beads); k 9%nat | unify a (Imm8 Beads); k 10%nat
        | unify a (Imm16 Beads); k 11%nat | unify a (Imm32 Beads); k 12%nat
        | unify a (Imm3 Beads); k 13%nat ].

Ltac code_eqb :=
  repeat match goal with
  | |- context [?a =? ?a] => rewrite (Z.eqb_refl a)
  | |- context [?a =? ?b] =>
      code_index a ltac:(fun i => code_index b ltac:(fun j =>
        let H := fresh in
        assert (H : (a =? b) = false) by (apply Z.eqb_neq; code_neq i j);
        rewrite H; clear H))
  end.

(** X21: at a word boundary, a bead of type [Imm32] whose operand is an
    immediate of 32 bits is emitted as the four bytes of the immediate
    from the highest to the lowest (lines 469-473 with the rotation of
    lines 556-561), and the emitter is at a word boundary again. *)
Theorem encodeBead_Imm32_big_endian (MI : MCInst MCExpr SMLoc) (Bead I : Z)
    (S : EmitState (MCExpr:=MCExpr) (MCFixupKind:=MCFixupKind) (SMLoc:=SMLoc)) :
  Z.land Bead 0xF = Imm32 Beads ->
  immOperand T MI Bead = Some (ImmOperand I) ->
  - 2 ^ 31 <= I < 2 ^ 31 ->
  Buffer S = 0 -> Offset S = 0 ->
  0 <= ThisByte S -> ThisByte S + 4 < 2 ^ 32 ->
  encodeBead Beads T MI Bead S
  = Some (mkEmit 0 0 (ThisByte S + 4) (OS S ++ bigEndian32 (I mod 2 ^ 32)) (Fixups S)).
Proof.
  intros HT HOp HI HB HO HTB HTB2. unfold encodeBead.
  rewrite HT, HB, HO. code_eqb. cbn [andb orb].
  rewrite (encodeImm_Imm32_value _ _ _ _ _ I _ HT HOp HI) by lia.
  cbn [mbind option_bind fst snd]. f_equal.
  set (v := I mod 2 ^ 32).
  assert (Hv : 0 <= v < 4294967296) by (subst v; change (2 ^ 32) with 4294967296; dm).
  clearbody v. clear HI HOp.
  rewrite Z.lor_0_l, Z.shiftl_0_r, Z.shiftl_mul_pow2 by lia.
  change (2 ^ (0 + 16)) with 65536.
  rewrite Z.lor_comm, (lor_disjoint _ _ 16) by (change (2 ^ 16) with 65536; dm).
  unfold flush. cbn [Offset]. change (wrap 32 (0 + 32)) with 32.
  change (Z.to_nat (32 / 16)) with 2%nat.
  rewrite rotateWords_words; cbn [Buffer Offset ThisByte OS Fixups];
    change (2 ^ 32) with 4294967296 in *; try reflexivity; try lia.
  change (Z.of_nat 2) with 2. change (2 ^ (16 * 2)) with 4294967296.
  change (32 mod 16) with 0.
  f_equal; try dm. f_equal. unfold bigEndian32. cbn [wordBytes].
  destruct (bytes_of v Hv) as (b0 & b1 & b2 & b3 & Hb & ->).
  set (V := b0 + 256 * b1 + 65536 * b2 + 16777216 * b3).
  assert (E0 : V mod 65536 = b0 + 256 * b1) by (subst V; dm).
  assert (E1 : V / 65536 = b2 + 256 * b3) by (subst V; dm).
  assert (E2 : V / 16777216 mod 256 = b3) by (subst V; dm).
  assert (E3 : V / 256 mod 256 = b1) by (subst V; dm).
  assert (E4 : V mod 256 = b0) by (subst V; dm).
  rewrite E0, E1, E2, E3, E4. clearbody V.
  set (W := (b0 + 256 * b1) * 65536 + (b2 + 256 * b3)).
  assert (F0 : W / 256 mod 256 = b3) by (subst W; dm).
  assert (F1 : W mod 256 = b2) by (subst W; dm).
  assert (F2 : W / 65536 = b0 + 256 * b1) by (subst W; dm).
  rewrite F0, F1, F2.
  assert (G0 : (b0 + 256 * b1) / 256 mod 256 = b1) by dm.
  assert (G1 : (b0 + 256 * b1) mod 256 = b0) by dm.
  assert (G2 : (b2 + 256 * b3) mod 256 = b2) by dm.
  rewrite G0, G1, G2. reflexivity.
Qed.


Lemma EmitConstant_zero (Size Pad Buffer Offset : Z) :
  0 < Size -> 0 <= Offset -> Size + Offset <= 64 -> Size < 64 ->
  0 <= Pad -> Size + Pad < 2 ^ 32 ->
  EmitConstant 0 Size Pad Buffer Offset = Some (Size + Pad, Buffer).
Proof.
  intros. rewrite EmitConstant_value; try assumption.
  - rewrite Z.shiftl_0_l, Z.lor_0_r. reflexivity.
  - split; [lia|]. apply Z.pow_pos_nonneg; lia.
Qed.

(** X22: for an operand that is an expression, a bead of type [Disp8],
    [Imm8], [Imm16] or [Imm32] leaves [Buffer] as it is (zeros are
    written), reports the width of the bead, and appends exactly one
    fixup: at [ThisByte], or at [ThisByte + 1] for [Disp8], for the
    expression itself or the expression plus a constant of -2, -1 or 1. *)
Theorem encodeImm_expression (ThisByte Bead : Z) (MI : MCInst MCExpr SMLoc)
    (Buffer Offset : Z) (Fixups : list (MCFixup MCExpr MCFixupKind SMLoc)) (Expr : MCExpr) :
  Z.land Bead 0xF ∈ [Disp8 Beads; Imm8 Beads; Imm16 Beads; Imm32 Beads] ->
  immOperand T MI Bead = Some (ExprOperand Expr) ->
  0 <= Offset < 16 ->
  0 <= ThisByte -> ThisByte + 1 < 2 ^ 32 ->
  exists fx,
    encodeImm Beads T ThisByte Bead MI Buffer Offset Fixups
    = Some (beadBits Beads Bead, Buffer, Fixups ++ [fx]) /\
    FixupOffset fx = (if Z.land Bead 0xF =? Disp8 Beads then ThisByte + 1 else ThisByte) /\
    FixupLoc fx = getLoc MI /\
    (FixupValue fx = Expr \/
     exists c, c ∈ [-2; -1; 1] /\
               FixupValue fx = createAdd T Expr (MCConstantExpr_create T c)).
Proof.
  intros HT HOp HO HTB HTB2. change (2 ^ 32) with 4294967296 in HTB2.
  unfold encodeImm, beadBits. rewrite HOp. cbn [mbind option_bind].
  set (PC := isPCRelOperand T (getOpcode MI)
               (getLogicalOperandIdx T (getOpcode MI) (beadOp Bead))).
  set (Multi := hasMultiMIOperands T (getOpcode MI) (beadOp Bead)).
  assert (Hadd : forall a : Z, a ∈ [-2; -1; 0; 1] ->
            forall g : bool,
            let E := if g && negb (a =? 0)
                     then createAdd T Expr (MCConstantExpr_create T a) else Expr in
            E = Expr \/ exists c, c ∈ [-2; -1; 1] /\
                                  E = createAdd T Expr (MCConstantExpr_create T c)).
  { intros a Ha g. destruct g; cbn [andb]; [|left; reflexivity].
    rewrite !elem_of_cons, elem_of_nil in Ha.
    destruct Ha as [-> | [-> | [-> | [-> | []]]]]; cbn [Z.eqb negb];
      first [ left; reflexivity
            | right; eexists; split; [|reflexivity];
              rewrite !elem_of_cons; auto ]. }
  rewrite !elem_of_cons, elem_of_nil in HT.
  destruct HT as [HT | [HT | [HT | [HT | []]]]]; rewrite HT; unfold immLayout;
    code_eqb; cbv iota beta; cbn [mbind option_bind];
    unfold wrap; change (2 ^ 32) with 4294967296;
    rewrite ?(Z.mod_small (ThisByte + 1)) by lia;
    rewrite EmitConstant_zero by (change (2 ^ 32) with 4294967296; lia);
    cbn [mbind option_bind fst snd];
    eexists; (split; [reflexivity|]); cbn [FixupOffset FixupLoc FixupValue];
    (split; [reflexivity|]); (split; [reflexivity|]);
    apply Hadd; destruct (PC && (ThisByte / 2 =? 0)); rewrite !elem_of_cons; auto.
Qed.

(** X23: a bead of type [Imm3] with the [Alt] bit stores an immediate of
    1 to 8 in three bits with 8 stored as 0: read back from a field that
    was clear, with 0 read as 8, the field gives the immediate. *)
Theorem encodeImm_Imm3_alt (ThisByte Bead : Z) (MI : MCInst MCExpr SMLoc)
    (Buffer Offset I : Z) (Fixups : list (MCFixup MCExpr MCFixupKind SMLoc)) :
  Z.land Bead 0xF = Imm3 Beads ->
  beadAlt Bead = true ->
  immOperand T MI Bead = Some (ImmOperand I) ->
  1 <= I <= 8 ->
  0 <= Offset -> Offset + 3 <= 64 ->
  (forall n, Offset <= n < Offset + 3 -> Z.testbit Buffer n = false) ->
  exists Buffer',
    encodeImm Beads T ThisByte Bead MI Buffer Offset Fixups = Some (3, Buffer', Fixups) /\
    let field := Z.land (Z.shiftr Buffer' Offset) 7 in
    (if field =? 0 then 8 else field) = I.
Proof.
  intros HT HAlt HOp HI HO HO2 Hclear.
  unfold encodeImm. rewrite HT, HOp, HAlt. unfold immLayout. code_eqb.
  cbv iota beta. cbn [mbind option_bind getImm andb].
  replace (I =? 0) with false by (symmetry; apply Z.eqb_neq; lia).
  cbn [mbind option_bind]. change (3 =? 32) with false. change (3 <? 64) with true.
  cbv iota.
  change (wrap 64 (Z.shiftl 1 3) - 1) with 7.
  assert (Hrem : Z.land (wrap 64 (Z.rem I 8)) 7 = I mod 8).
  { assert (Hc : I = 1 \/ I = 2 \/ I = 3 \/ I = 4 \/ I = 5 \/ I = 6 \/ I = 7 \/ I = 8) by lia.
    destruct Hc as [-> | [-> | [-> | [-> | [-> | [-> | [-> | ->]]]]]]]; reflexivity. }
  rewrite Hrem.
  rewrite (EmitConstant_value (I mod 8) 3 0 Buffer Offset)
    by (change (2 ^ 32) with 4294967296; change (2 ^ 3) with 8; try lia; dm).
  cbn [mbind option_bind fst snd]. eexists. split; [reflexivity|].
  cbv zeta. change 7 with (Z.ones 3).
  rewrite field_read_back; [| lia | change (2 ^ 3) with 8; dm | exact Hclear].
  destruct (Z.eqb_spec (I mod 8) 0); dm.
Qed.


Ltac bind_inv H :=
  repeat match type of H with
  | (?x ≫= _) = Some _ =>
      let E := fresh "E" in
      destruct x eqn:E; cbn [mbind option_bind] in H; [|discriminate H]
  | (if ?c then _ else _) = Some _ =>
      let E := fresh "E" in destruct c eqn:E; try discriminate H
  | (match ?m with _ => _ end) = Some _ =>
      let E := fresh "E" in destruct m eqn:E; try discriminate H
  end.

Ltac split_code H :=
  repeat (apply orb_true_iff in H as [H|H]); apply Z.eqb_eq in H.

Lemma EmitConstant_written (Val Size Pad Buffer Offset : Z) (r : Z * Z) :
  EmitConstant Val Size Pad Buffer Offset = Some r -> r.1 = wrap 32 (Size + Pad).
Proof.
  unfold EmitConstant. intros H. bind_inv H. injection H as <-. reflexivity.
Qed.

Lemma encodeBits_written (Bead Buffer Offset : Z) (r : Z * Z) :
  (Z.land Bead 0xF =? Bits1 Beads) || (Z.land Bead 0xF =? Bits2 Beads)
  || (Z.land Bead 0xF =? Bits3 Beads) || (Z.land Bead 0xF =? Bits4 Beads) = true ->
  encodeBits Beads Bead Buffer Offset = Some r ->
  r.1 = beadBits Beads Bead.
Proof.
  intros HC H. unfold encodeBits in H. bind_inv H. injection H as <-.
  cbn [fst]. unfold beadBits.
  split_code HC; rewrite HC; code_eqb; reflexivity.
Qed.

Lemma encodeReg_written (Bead : Z) (MI : MCInst MCExpr SMLoc) (Buffer Offset : Z) (r : Z * Z) :
  (Z.land Bead 0xF =? DAReg Beads) || (Z.land Bead 0xF =? DA Beads)
  || (Z.land Bead 0xF =? DReg Beads) || (Z.land Bead 0xF =? Reg Beads) = true ->
  encodeReg Beads T Bead MI Buffer Offset = Some r ->
  r.1 = beadBits Beads Bead.
Proof.
  intros HC H. unfold encodeReg, beadBits in *.
  split_code HC; rewrite HC in *; revert H; code_eqb; cbn [orb mbind option_bind fst snd];
    intros H; bind_inv H;
    repeat match goal with
    | E : (_ ≫= _) = Some _ |- _ => bind_inv E; injection E as <-
    end;
    injection H as <-; reflexivity.
Qed.

Lemma encodeImm_written (ThisByte Bead : Z) (MI : MCInst MCExpr SMLoc) (Buffer Offset : Z)
    (Fixups : list (MCFixup MCExpr MCFixupKind SMLoc))
    (r : Z * Z * list (MCFixup MCExpr MCFixupKind SMLoc)) :
  (Z.land Bead 0xF =? Disp8 Beads) || (Z.land Bead 0xF =? Imm8 Beads)
  || (Z.land Bead 0xF =? Imm16 Beads) || (Z.land Bead 0xF =? Imm32 Beads)
  || (Z.land Bead 0xF =? Imm3 Beads) = true ->
  encodeImm Beads T ThisByte Bead MI Buffer Offset Fixups = Some r ->
  r.1.1 = beadBits Beads Bead.
Proof.
  intros HC H. unfold encodeImm, beadBits, immLayout in *.
  split_code HC; rewrite HC in *; revert H; code_eqb; cbv iota beta;
    cbn [orb andb mbind option_bind fst snd]; intros H; bind_inv H;
    repeat match goal with
    | E : EmitConstant _ _ _ _ _ = Some _ |- _ => apply EmitConstant_written in E
    end;
    injection H as <-; cbn [fst snd] in *; try reflexivity; try assumption;
    try discriminate.
Qed.


Lemma beadBits_range (Bead : Z) : 0 <= beadBits Beads Bead <= 32.
Proof.
  unfold beadBits.
  repeat match goal with |- context [if ?c then _ else _] => destruct c end; lia.
Qed.

Lemma encodeBead_step (MI : MCInst MCExpr SMLoc) (Bead : Z)
    (S S' : EmitState (MCExpr:=MCExpr) (MCFixupKind:=MCFixupKind) (SMLoc:=SMLoc)) :
  encodeBead Beads T MI Bead S = Some S' ->
  0 <= Offset S < 16 -> 0 <= ThisByte S -> ThisByte S + 4 < 2 ^ 32 ->
  exists tail,
    OS S' = OS S ++ tail /\
    ThisByte S' = ThisByte S + Z.of_nat (length tail) /\
    0 <= Offset S' < 16 /\
    8 * Z.of_nat (length tail) + Offset S' = Offset S + beadBits Beads Bead /\
    (length tail <= 4)%nat /\
    Z.of_nat (length tail) mod 2 = 0.
Proof.
  intros H HO HT HT2. change (2 ^ 32) with 4294967296 in HT2.
  unfold encodeBead in H.
  destruct ((Z.land Bead 15 =? 0) && (Z.shiftr Bead 4 =? Ignore Beads)) eqn:Hign.
  - injection H as <-. exists []. rewrite app_nil_r.
    apply andb_true_iff in Hign as [Hz _].
    unfold beadBits. rewrite Hz. cbn [length]. repeat split; try lia; reflexivity.
  - pose proof (beadBits_range Bead) as Hw.
    match type of H with
    | (?x ≫= _) = Some _ => destruct x as [S1|] eqn:E1; [|discriminate H]
    end.
    cbn [mbind option_bind] in H. injection H as <-.
    assert (HS1 : Offset S1 = Offset S + beadBits Beads Bead /\
                  ThisByte S1 = ThisByte S /\ OS S1 = OS S).
    { destruct ((Z.land Bead 15 =? Bits1 Beads) || (Z.land Bead 15 =? Bits2 Beads)
                || (Z.land Bead 15 =? Bits3 Beads) || (Z.land Bead 15 =? Bits4 Beads)) eqn:G1.
      { destruct (encodeBits _ _ _ _) as [r|] eqn:Er; [|discriminate E1].
        apply (encodeBits_written _ _ _ _ G1) in Er.
        cbn [mbind option_bind] in E1. injection E1 as <-. cbn [Offset ThisByte OS].
        rewrite Er. unfold wrap. change (2 ^ 32) with 4294967296.
        rewrite Z.mod_small by lia. repeat split; reflexivity. }
      destruct ((Z.land Bead 15 =? DAReg Beads) || (Z.land Bead 15 =? DA Beads)
                || (Z.land Bead 15 =? DReg Beads) || (Z.land Bead 15 =? Reg Beads)) eqn:G2.
      { destruct (encodeReg _ _ _ _ _ _) as [r|] eqn:Er; [|discriminate E1].
        apply (encodeReg_written _ _ _ _ _ G2) in Er.
        cbn [mbind option_bind] in E1. injection E1 as <-. cbn [Offset ThisByte OS].
        rewrite Er. unfold wrap. change (2 ^ 32) with 4294967296.
        rewrite Z.mod_small by lia. repeat split; reflexivity. }
      destruct ((Z.land Bead 15 =? Disp8 Beads) || (Z.land Bead 15 =? Imm8 Beads)
                || (Z.land Bead 15 =? Imm16 Beads) || (Z.land Bead 15 =? Imm32 Beads)
                || (Z.land Bead 15 =? Imm3 Beads)) eqn:G3; [|discriminate E1].
      destruct (encodeImm _ _ _ _ _ _ _ _) as [r|] eqn:Er; [|discriminate E1].
      apply (encodeImm_written _ _ _ _ _ _ _ G3) in Er.
      cbn [mbind option_bind] in E1. injection E1 as <-. cbn [Offset ThisByte OS].
      rewrite Er. unfold wrap. change (2 ^ 32) with 4294967296.
      rewrite Z.mod_small by lia. repeat split; reflexivity. }
    destruct HS1 as (HO1 & HT1 & HOS1). clear E1.
    unfold flush.
    assert (Hk : 0 <= Offset S1 / 16 <= 2) by dm.
    rewrite rotateWords_words;
      rewrite ?Z2Nat.id by lia; change (2 ^ 32) with 4294967296; try lia.
    cbn [Buffer Offset ThisByte OS Fixups].
    exists (wordBytes (Z.to_nat (Offset S1 / 16)) (Buffer S1)).
    rewrite length_wordBytes, HOS1, HT1, <- HO1.
    split; [reflexivity|]. split; [lia|]. split; [dm|].
    rewrite Nat2Z.inj_mul, Z2Nat.id by lia. change (Z.of_nat 2) with 2.
    split; [dm|]. split; [lia|]. dm.
Qed.

Lemma encodeBeads_inv (MI : MCInst MCExpr SMLoc) (Array : list Z) :
  forall S S' : EmitState (MCExpr:=MCExpr) (MCFixupKind:=MCFixupKind) (SMLoc:=SMLoc),
  encodeBeads Beads T MI Array S = Some S' ->
  0 <= Offset S < 16 -> 0 <= ThisByte S ->
  ThisByte S + 4 * Z.of_nat (length Array) < 2 ^ 32 ->
  exists tail,
    OS S' = OS S ++ tail /\
    ThisByte S' = ThisByte S + Z.of_nat (length tail) /\
    0 <= Offset S' < 16 /\
    8 * Z.of_nat (length tail) + Offset S' = Offset S + instructionBits Beads Array.
Proof.
  induction Array as [|Bead Array IH]; intros S S' H HO HT HT2; [discriminate H|].
  cbn [encodeBeads] in H. unfold instructionBits. cbn [beadsOf].
  cbn [length] in HT2. rewrite Nat2Z.inj_succ in HT2.
  destruct (Bead =? 0).
  - injection H as <-. exists []. rewrite app_nil_r. cbn [foldr length]. repeat split; lia.
  - destruct (encodeBead Beads T MI Bead S) as [S1|] eqn:E1; [|discriminate H].
    cbn [mbind option_bind] in H.
    destruct (encodeBead_step MI Bead S S1 E1 HO HT ltac:(lia))
      as (t1 & HOS1 & HT1 & HO1 & Hb1 & Hl1 & _).
    destruct (IH S1 S' H HO1 ltac:(lia) ltac:(lia)) as (t2 & HOS2 & HT2' & HO2 & Hb2).
    exists (t1 ++ t2). rewrite HOS2, HOS1, <- app_assoc. split; [reflexivity|].
    rewrite length_app, Nat2Z.inj_add. split; [lia|]. split; [lia|].
    cbn [foldr]. unfold instructionBits in Hb2. lia.
Qed.

(** X24: an instruction encoded from its beads takes a whole number of
    16-bit words, at least one, and its size is fixed by the beads alone:
    the bytes appended to the stream are as many as the bits of the beads
    before the terminator, whatever the operands are. *)
Theorem encodeInstruction_size (MI : MCInst MCExpr SMLoc) (OS0 OS' : list Z)
    (Fixups0 Fixups' : list (MCFixup MCExpr MCFixupKind SMLoc)) (Array : list Z) :
  getBitWidth (getBinaryCodeForInstr T MI Fixups0).1 = 0 ->
  getMCInstrBeads T (getOpcode MI) = Some Array ->
  4 * Z.of_nat (length Array) < 2 ^ 32 ->
  encodeInstruction Beads T MI OS0 Fixups0 = Some (OS', Fixups') ->
  exists tail,
    OS' = OS0 ++ tail /\
    8 * Z.of_nat (length tail) = instructionBits Beads Array /\
    tail <> [] /\
    Z.of_nat (length tail) mod 2 = 0.
Proof.
  intros HW HA HL H. unfold encodeInstruction in H.
  destruct (getBinaryCodeForInstr T MI Fixups0) as [EncodedInst Fixups1].
  cbn [fst] in HW. rewrite HW, HA in H. cbn [Z.eqb negb mbind option_bind] in H.
  destruct Array as [|Bead Array]; [discriminate H|].
  destruct (Bead =? 0) eqn:HB; [discriminate H|].
  destruct (encodeBeads _ _ _ _ _) as [S|] eqn:E; [|discriminate H].
  cbn [mbind option_bind] in H.
  destruct ((Offset S =? 0) && negb (ThisByte S =? 0) && (ThisByte S mod 2 =? 0)) eqn:Hend;
    [|discriminate H].
  injection H as <- <-.
  apply andb_true_iff in Hend as [Hend Heven]. apply andb_true_iff in Hend as [Hoff Hnz].
  apply Z.eqb_eq in Hoff, Heven. apply negb_true_iff, Z.eqb_neq in Hnz.
  destruct (encodeBeads_inv MI _ _ _ E) as (tail & HOS & HT & HO & Hb);
    cbn [Offset ThisByte OS]; try lia.
  cbn [Offset ThisByte OS] in *.
  exists tail. split; [exact HOS|]. split; [lia|]. split.
  - intros ->. cbn [length] in HT. lia.
  - rewrite <- Heven. f_equal. lia.
Qed.


Lemma instructionBits_nonneg (Array : list Z) : 0 <= instructionBits Beads Array.
Proof.
  unfold instructionBits. induction (beadsOf Array) as [|Bead l IH]; cbn [foldr]; [lia|].
  pose proof (beadBits_range Bead). lia.
Qed.

Lemma encodeImm_fixups (ThisByte Bead : Z) (MI : MCInst MCExpr SMLoc) (Buffer Offset : Z)
    (Fixups : list (MCFixup MCExpr MCFixupKind SMLoc))
    (r : Z * Z * list (MCFixup MCExpr MCFixupKind SMLoc)) :
  (Z.land Bead 0xF =? Disp8 Beads) || (Z.land Bead 0xF =? Imm8 Beads)
  || (Z.land Bead 0xF =? Imm16 Beads) || (Z.land Bead 0xF =? Imm32 Beads)
  || (Z.land Bead 0xF =? Imm3 Beads) = true ->
  encodeImm Beads T ThisByte Bead MI Buffer Offset Fixups = Some r ->
  0 <= ThisByte -> ThisByte + 1 < 2 ^ 32 ->
  exists new,
    r.2 = Fixups ++ new /\
    Forall (fun fx => FixupLoc fx = getLoc MI /\
                      ThisByte <= FixupOffset fx <= ThisByte + 1 /\
                      8 <= beadBits Beads Bead) new.
Proof.
  intros HC H HT HT2. change (2 ^ 32) with 4294967296 in HT2.
  unfold encodeImm, beadBits, immLayout in *.
  split_code HC; rewrite HC in *; revert H; code_eqb; cbv iota beta;
    cbn [orb andb mbind option_bind fst snd]; intros H; bind_inv H;
    injection H as <-; cbn [fst snd];
    first [ exists []; rewrite app_nil_r; split; [reflexivity|constructor]
          | eexists [_]; split; [reflexivity|];
            constructor; [|constructor]; cbn [FixupLoc FixupOffset];
            unfold wrap; change (2 ^ 32) with 4294967296;
            rewrite ?(Z.mod_small (ThisByte + 1)) by lia;
            repeat split; lia ].
Qed.

Lemma encodeBead_fixups (MI : MCInst MCExpr SMLoc) (Bead : Z)
    (S S' : EmitState (MCExpr:=MCExpr) (MCFixupKind:=MCFixupKind) (SMLoc:=SMLoc)) :
  encodeBead Beads T MI Bead S = Some S' ->
  0 <= ThisByte S -> ThisByte S + 1 < 2 ^ 32 ->
  exists new,
    Fixups S' = Fixups S ++ new /\
    Forall (fun fx => FixupLoc fx = getLoc MI /\
                      ThisByte S <= FixupOffset fx <= ThisByte S + 1 /\
                      8 <= beadBits Beads Bead) new.
Proof.
  intros H HT HT2. unfold encodeBead in H.
  assert (Hflush : forall S1 : EmitState (MCExpr:=MCExpr) (MCFixupKind:=MCFixupKind) (SMLoc:=SMLoc),
            Fixups (flush S1) = Fixups S1).
  { intros S1. unfold flush. generalize (Z.to_nat (Offset S1 / 16)). intros k.
    revert S1. induction k as [|k IH]; intros S1; [reflexivity|].
    cbn [rotateWords]. destruct (negb _); [|reflexivity]. rewrite IH. reflexivity. }
  destruct ((Z.land Bead 15 =? 0) && (Z.shiftr Bead 4 =? Ignore Beads)).
  { injection H as <-. exists []. rewrite app_nil_r. split; [reflexivity|constructor]. }
  match type of H with
  | (?x ≫= _) = Some _ => destruct x as [S1|] eqn:E1; [|discriminate H]
  end.
  cbn [mbind option_bind] in H. injection H as <-. rewrite Hflush.
  destruct ((Z.land Bead 15 =? Bits1 Beads) || (Z.land Bead 15 =? Bits2 Beads)
            || (Z.land Bead 15 =? Bits3 Beads) || (Z.land Bead 15 =? Bits4 Beads)).
  { destruct (encodeBits _ _ _ _) as [r|]; [|discriminate E1].
    cbn [mbind option_bind] in E1. injection E1 as <-. cbn [Fixups].
    exists []. rewrite app_nil_r. split; [reflexivity|constructor]. }
  destruct ((Z.land Bead 15 =? DAReg Beads) || (Z.land Bead 15 =? DA Beads)
            || (Z.land Bead 15 =? DReg Beads) || (Z.land Bead 15 =? Reg Beads)).
  { destruct (encodeReg _ _ _ _ _ _) as [r|]; [|discriminate E1].
    cbn [mbind option_bind] in E1. injection E1 as <-. cbn [Fixups].
    exists []. rewrite app_nil_r. split; [reflexivity|constructor]. }
  destruct ((Z.land Bead 15 =? Disp8 Beads) || (Z.land Bead 15 =? Imm8 Beads)
            || (Z.land Bead 15 =? Imm16 Beads) || (Z.land Bead 15 =? Imm32 Beads)
            || (Z.land Bead 15 =? Imm3 Beads)) eqn:G3; [|discriminate E1].
  destruct (encodeImm _ _ _ _ _ _ _ _) as [r|] eqn:Er; [|discriminate E1].
  cbn [mbind option_bind] in E1. injection E1 as <-. cbn [Fixups].
  exact (encodeImm_fixups _ _ _ _ _ _ _ G3 Er HT HT2).
Qed.

Lemma encodeBeads_fixups (MI : MCInst MCExpr SMLoc) (Array : list Z) :
  forall S S' : EmitState (MCExpr:=MCExpr) (MCFixupKind:=MCFixupKind) (SMLoc:=SMLoc),
  encodeBeads Beads T MI Array S = Some S' ->
  0 <= Offset S < 16 -> 0 <= ThisByte S -> ThisByte S mod 2 = 0 ->
  ThisByte S + 4 * Z.of_nat (length Array) < 2 ^ 32 ->
  exists new,
    Fixups S' = Fixups S ++ new /\
    Forall (fun fx => FixupLoc fx = getLoc MI /\
                      ThisByte S <= FixupOffset fx /\
                      16 * (FixupOffset fx / 2) + 8 <= 8 * ThisByte S' + Offset S') new.
Proof.
  induction Array as [|Bead Array IH]; intros S S' H HO HT HE HT2; [discriminate H|].
  cbn [encodeBeads] in H. cbn [length] in HT2. rewrite Nat2Z.inj_succ in HT2.
  destruct (Bead =? 0).
  - injection H as <-. exists []. rewrite app_nil_r. split; [reflexivity|constructor].
  - destruct (encodeBead Beads T MI Bead S) as [S1|] eqn:E1; [|discriminate H].
    cbn [mbind option_bind] in H.
    destruct (encodeBead_step MI Bead S S1 E1 HO HT ltac:(lia))
      as (t1 & HOS1 & HT1 & HO1 & Hb1 & Hl1 & He1).
    destruct (encodeBead_fixups MI Bead S S1 E1 HT ltac:(lia)) as (n1 & HF1 & HA1).
    destruct (encodeBeads_inv MI Array S1 S' H HO1 ltac:(lia) ltac:(lia))
      as (t2 & HOS2 & HT2' & HO2 & Hb2).
    pose proof (instructionBits_nonneg Array) as Hnn.
    destruct (IH S1 S' H HO1 ltac:(lia) ltac:(dm) ltac:(lia)) as (n2 & HF2 & HA2).
    exists (n1 ++ n2). rewrite HF2, HF1, <- app_assoc. split; [reflexivity|].
    apply Forall_app. split.
    + eapply Forall_impl; [exact HA1|]. cbv beta. intros fx (Hloc & Hfo & Hw).
      split; [exact Hloc|]. split; [lia|].
      assert (Hword : 16 * (FixupOffset fx / 2) <= 8 * ThisByte S) by dm.
      lia.
    + eapply Forall_impl; [exact HA2|]. cbv beta. intros fx (Hloc & Hfo & Hb).
      split; [exact Hloc|]. split; [lia|exact Hb].
Qed.

(** X28: every fixup that encoding an instruction from its beads adds
    carries the location of the instruction and points at a byte of the
    instruction itself: its offset is at least 0 and below the number of
    bytes appended to the stream; the fixups already there are kept, in
    order, in front of the new ones. *)
Theorem encodeInstruction_fixups_in_range (MI : MCInst MCExpr SMLoc) (OS0 OS' : list Z)
    (Fixups0 Fixups' : list (MCFixup MCExpr MCFixupKind SMLoc)) (Array : list Z) :
  getBitWidth (getBinaryCodeForInstr T MI Fixups0).1 = 0 ->
  getMCInstrBeads T (getOpcode MI) = Some Array ->
  4 * Z.of_nat (length Array) < 2 ^ 32 ->
  encodeInstruction Beads T MI OS0 Fixups0 = Some (OS', Fixups') ->
  exists new,
    Fixups' = (getBinaryCodeForInstr T MI Fixups0).2 ++ new /\
    Forall (fun fx => FixupLoc fx = getLoc MI /\
                      0 <= FixupOffset fx < Z.of_nat (length OS') - Z.of_nat (length OS0))
           new.
Proof.
  intros HW HA HL H. unfold encodeInstruction in H.
  destruct (getBinaryCodeForInstr T MI Fixups0) as [EncodedInst Fixups1].
  cbn [fst snd] in *. rewrite HW, HA in H. cbn [Z.eqb negb mbind option_bind] in H.
  destruct Array as [|Bead Array]; [discriminate H|].
  destruct (Bead =? 0) eqn:HB; [discriminate H|].
  destruct (encodeBeads _ _ _ _ _) as [S|] eqn:E; [|discriminate H].
  cbn [mbind option_bind] in H.
  destruct ((Offset S =? 0) && negb (ThisByte S =? 0) && (ThisByte S mod 2 =? 0)) eqn:Hend;
    [|discriminate H].
  injection H as <- <-.
  apply andb_true_iff in Hend as [Hend Heven]. apply andb_true_iff in Hend as [Hoff Hnz].
  apply Z.eqb_eq in Hoff, Heven.
  destruct (encodeBeads_inv MI _ _ _ E) as (tail & HOS & HT & HO & Hb);
    cbn [Offset ThisByte OS]; try lia.
  destruct (encodeBeads_fixups MI _ _ _ E) as (new & HF & HAll);
    cbn [Offset ThisByte OS]; try lia; try reflexivity.
  cbn [Offset ThisByte OS Fixups] in *.
  exists new. split; [exact HF|].
  eapply Forall_impl; [exact HAll|]. cbv beta. intros fx (Hloc & Hfo & Hbits).
  split; [exact Hloc|]. rewrite HOS, length_app, Nat2Z.inj_add.
  rewrite Hoff in Hbits. dm.
Qed.

(** X29: at a word boundary, a bead of type [Imm8] or [Imm16] whose
    operand is an immediate that fits the signed width is emitted as one
    16-bit word, high byte first: the two bytes of a 16-bit immediate, or
    a zero pad byte followed by the byte of an 8-bit immediate. *)
Theorem encodeBead_Imm16_Imm8_word (MI : MCInst MCExpr SMLoc) (Bead Size I : Z)
    (S : EmitState (MCExpr:=MCExpr) (MCFixupKind:=MCFixupKind) (SMLoc:=SMLoc)) :
  (Size = 8 /\ Z.land Bead 0xF = Imm8 Beads) \/
  (Size = 16 /\ Z.land Bead 0xF = Imm16 Beads) ->
  immOperand T MI Bead = Some (ImmOperand I) ->
  - 2 ^ (Size - 1) <= I < 2 ^ (Size - 1) ->
  Buffer S = 0 -> Offset S = 0 ->
  0 <= ThisByte S -> ThisByte S + 2 < 2 ^ 32 ->
  let v := I mod 2 ^ Size in
  encodeBead Beads T MI Bead S
  = Some (mkEmit 0 0 (ThisByte S + 2) (OS S ++ [v / 256; v mod 256]) (Fixups S)).
Proof.
  intros HT HOp HI HB HO HTB HTB2 v. unfold encodeBead.
  assert (Himm : encodeImm Beads T (ThisByte S) Bead MI 0 0 (Fixups S)
                 = Some (16, v, Fixups S) /\ 0 <= v < 65536).
  { unfold encodeImm. rewrite HOp. subst v.
    destruct HT as [[-> HT] | [-> HT]]; rewrite HT; unfold immLayout; code_eqb;
      cbv iota beta; cbn [andb mbind option_bind getImm]; unfold isIntN.
    - rewrite (proj2 (Z.leb_le _ _) (proj1 HI)), (proj2 (Z.ltb_lt _ _) (proj2 HI)).
      change (8 - 1) with 7 in *. change (2 ^ 7) with 128 in *.
      change (64 <=? 8) with false. change (0 <? 8) with true. cbn [orb andb].
      cbn [andb mbind option_bind]. change (8 =? 32) with false. change (8 <? 64) with true.
      cbv iota. change (wrap 64 (Z.shiftl 1 8) - 1) with (2 ^ 8 - 1).
      rewrite land_mask by lia. unfold wrap at 1.
      change (2 ^ 64) with 18446744073709551616. change (2 ^ 8) with 256.
      replace (I mod 18446744073709551616 mod 256) with (I mod 256) by dm.
      rewrite (EmitConstant_value (I mod 256) 8 8 0 0)
        by (change (2 ^ 32) with 4294967296; change (2 ^ 8) with 256; try lia; dm).
      cbn [mbind option_bind fst snd]. rewrite Z.shiftl_0_r, Z.lor_0_l.
      split; [reflexivity|dm].
    - rewrite (proj2 (Z.leb_le _ _) (proj1 HI)), (proj2 (Z.ltb_lt _ _) (proj2 HI)).
      change (16 - 1) with 15 in *. change (2 ^ 15) with 32768 in *.
      change (64 <=? 16) with false. change (0 <? 16) with true. cbn [orb andb].
      cbn [andb mbind option_bind]. change (16 =? 32) with false. change (16 <? 64) with true.
      cbv iota. change (wrap 64 (Z.shiftl 1 16) - 1) with (2 ^ 16 - 1).
      rewrite land_mask by lia. unfold wrap at 1.
      change (2 ^ 64) with 18446744073709551616. change (2 ^ 16) with 65536.
      replace (I mod 18446744073709551616 mod 65536) with (I mod 65536) by dm.
      rewrite (EmitConstant_value (I mod 65536) 16 0 0 0)
        by (change (2 ^ 32) with 4294967296; change (2 ^ 16) with 65536; try lia; dm).
      cbn [mbind option_bind fst snd]. rewrite Z.shiftl_0_r, Z.lor_0_l.
      split; [reflexivity|dm]. }
  destruct Himm as [Himm Hv]. rewrite HB, HO, Himm. clearbody v.
  assert (Hgroup :
    (Z.land Bead 15 =? 0) = false /\
    (Z.land Bead 15 =? Bits1 Beads) || (Z.land Bead 15 =? Bits2 Beads)
    || (Z.land Bead 15 =? Bits3 Beads) || (Z.land Bead 15 =? Bits4 Beads) = false /\
    (Z.land Bead 15 =? DAReg Beads) || (Z.land Bead 15 =? DA Beads)
    || (Z.land Bead 15 =? DReg Beads) || (Z.land Bead 15 =? Reg Beads) = false /\
    (Z.land Bead 15 =? Disp8 Beads) || (Z.land Bead 15 =? Imm8 Beads)
    || (Z.land Bead 15 =? Imm16 Beads) || (Z.land Bead 15 =? Imm32 Beads)
    || (Z.land Bead 15 =? Imm3 Beads) = true).
  { destruct HT as [[_ HT] | [_ HT]]; rewrite HT; code_eqb; repeat split; reflexivity. }
  destruct Hgroup as (-> & -> & -> & ->). cbn [andb mbind option_bind fst snd].
  unfold flush. cbn [Offset]. change (wrap 32 (0 + 16)) with 16.
  change (Z.to_nat (16 / 16)) with 1%nat.
  rewrite rotateWords_words; cbn [Buffer Offset ThisByte OS Fixups];
    change (2 ^ 32) with 4294967296 in *; try reflexivity; try lia.
  change (Z.of_nat 1) with 1. change (2 ^ (16 * 1)) with 65536. change (16 mod 16) with 0.
  cbn [wordBytes]. do 2 f_equal; try dm. do 2 f_equal. dm.
Qed.

Lemma lor_shift_bound (B V O n : Z) :
  0 <= O -> 0 <= n -> 0 <= B < 2 ^ O -> 0 <= V < 2 ^ n ->
  0 <= Z.lor B (V * 2 ^ O) < 2 ^ (O + n).
Proof.
  intros HO Hn HB HV.
  assert (Hpo : 0 < 2 ^ O) by (apply Z.pow_pos_nonneg; lia).
  assert (Hpn : 0 < 2 ^ n) by (apply Z.pow_pos_nonneg; lia).
  apply lor_lt_pow2; rewrite Z.pow_add_r by lia; nia.
Qed.

Lemma EmitConstant_bound (Val Size Pad Buffer Offset : Z) (r : Z * Z) :
  EmitConstant Val Size Pad Buffer Offset = Some r ->
  0 <= Offset < 32 -> 0 <= Buffer < 2 ^ Offset ->
  0 < Size < 64 /\ 0 <= r.2 < 2 ^ (Offset + Size).
Proof.
  intros H HO HB. unfold EmitConstant, isUIntN in H.
  destruct ((wrap 32 (Size + Offset) <=? 64)
            && ((64 <=? Size) || (0 <? Size) && (Val <? 2 ^ Size))) eqn:Hassert;
    [|discriminate H].
  destruct ((Size <? 64) && (Offset <? 64)) eqn:Hshift; [|discriminate H].
  injection H as <-. cbn [snd].
  apply andb_true_iff in Hshift as [HS64 _]. apply Z.ltb_lt in HS64.
  apply andb_true_iff in Hassert as [Hsum Hfit].
  apply orb_true_iff in Hfit as [Hbig|Hfit]; [apply Z.leb_le in Hbig; lia|].
  apply andb_true_iff in Hfit as [HS0 _]. apply Z.ltb_lt in HS0.
  apply Z.leb_le in Hsum. unfold wrap in Hsum. change (2 ^ 32) with 4294967296 in Hsum.
  rewrite Z.mod_small in Hsum by lia.
  split; [lia|].
  assert (Hpow : 1 <= 2 ^ Size < 2 ^ 64).
  { split; [pose proof (Z.pow_pos_nonneg 2 Size); lia|apply Z.pow_lt_mono_r; lia]. }
  unfold wrap. rewrite Z.shiftl_1_l, (Z.mod_small (2 ^ Size)) by lia.
  rewrite (Z.mod_small (2 ^ Size - 1)) by lia.
  rewrite land_mask, Z.shiftl_mul_pow2 by lia.
  assert (Hm : 0 <= Val mod 2 ^ Size < 2 ^ Size) by (apply Z.mod_pos_bound; lia).
  pose proof (lor_shift_bound Buffer (Val mod 2 ^ Size) Offset Size
                ltac:(lia) ltac:(lia) HB Hm) as Hb.
  assert (Hpo : 0 < 2 ^ Offset) by (apply Z.pow_pos_nonneg; lia).
  assert (Hle : 2 ^ (Size + Offset) <= 2 ^ 64) by (apply Z.pow_le_mono_r; lia).
  rewrite Z.pow_add_r in Hle by lia.
  rewrite Z.mod_small; [exact Hb|]. nia.
Qed.

Lemma encodeBits_buffer (Bead Buffer Offset : Z) (r : Z * Z) :
  (Z.land Bead 0xF =? Bits1 Beads) || (Z.land Bead 0xF =? Bits2 Beads)
  || (Z.land Bead 0xF =? Bits3 Beads) || (Z.land Bead 0xF =? Bits4 Beads) = true ->
  encodeBits Beads Bead Buffer Offset = Some r ->
  Z.shiftr (Z.land Bead 0xF0) 4 < 2 ^ beadBits Beads Bead ->
  0 <= Offset < 16 -> 0 <= Buffer < 2 ^ Offset ->
  0 <= r.2 < 2 ^ (Offset + beadBits Beads Bead).
Proof.
  intros HC H Hfit HO HB.
  assert (Hw : 1 <= beadBits Beads Bead <= 4).
  { unfold beadBits. split_code HC; rewrite HC; code_eqb; lia. }
  unfold encodeBits in H.
  set (Val := Z.shiftr (Z.land Bead 0xF0) 4) in *.
  assert (HV : 0 <= Val < 16).
  { subst Val. rewrite Z.shiftr_land. change (Z.shiftr 0xF0 4) with 15.
    rewrite land_15. dm. }
  assert (Hpo : 1 <= 2 ^ Offset <= 2 ^ 15).
  { split; [pose proof (Z.pow_pos_nonneg 2 Offset); lia|apply Z.pow_le_mono_r; lia]. }
  change (2 ^ 15) with 32768 in Hpo.
  unfold int_shl in H.
  replace (Offset <? 32) with true in H by (symmetry; apply Z.ltb_lt; lia).
  replace (Val * 2 ^ Offset <? 2 ^ 32) with true in H
    by (symmetry; apply Z.ltb_lt; change (2 ^ 32) with 4294967296; nia).
  cbn [andb mbind option_bind] in H. injection H as <-. cbn [snd].
  unfold to_int, wrap. change (2 ^ 31) with 2147483648. change (2 ^ 32) with 4294967296.
  change (2 ^ 64) with 18446744073709551616.
  replace (((Val * 2 ^ Offset + 2147483648) mod 4294967296 - 2147483648)
             mod 18446744073709551616) with (Val * 2 ^ Offset)
    by (assert (0 <= Val * 2 ^ Offset < 2147483648) by nia; dm).
  apply lor_shift_bound; lia.
Qed.

Lemma regPart_bound (B O enc V : Z) :
  0 <= O < 16 -> 0 <= B < 2 ^ O ->
  shl 32 (Z.land enc 7) O = Some V ->
  0 <= Z.lor B V < 2 ^ (O + 3).
Proof.
  intros HO HB H. unfold shl in H. destruct (O <? 32); [|discriminate H].
  injection H as <-. change 7 with (Z.ones 3). rewrite Z.land_ones by lia.
  change (2 ^ 3) with 8. rewrite Z.shiftl_mul_pow2 by lia.
  assert (Hm : 0 <= enc mod 8 < 2 ^ 3) by (change (2 ^ 3) with 8; dm).
  pose proof (lor_shift_bound B (enc mod 8) O 3 ltac:(lia) ltac:(lia) HB Hm) as Hb.
  assert (Hpo : 1 <= 2 ^ O <= 2 ^ 15).
  { split; [pose proof (Z.pow_pos_nonneg 2 O); lia|apply Z.pow_le_mono_r; lia]. }
  change (2 ^ 15) with 32768 in Hpo. change (2 ^ 3) with 8 in Hm.
  unfold wrap. change (2 ^ 32) with 4294967296. rewrite Z.mod_small by nia. exact Hb.
Qed.

Lemma daPart_bound (B O V : Z) (b : bool) :
  0 <= O < 32 -> 0 <= B < 2 ^ O ->
  shl 64 (if b then 1 else 0) O = Some V ->
  0 <= Z.lor B V < 2 ^ (O + 1).
Proof.
  intros HO HB H. unfold shl in H. destruct (O <? 64); [|discriminate H].
  injection H as <-. rewrite Z.shiftl_mul_pow2 by lia.
  assert (Hm : 0 <= (if b then 1 else 0) < 2 ^ 1) by (destruct b; change (2 ^ 1) with 2; lia).
  pose proof (lor_shift_bound B _ O 1 ltac:(lia) ltac:(lia) HB Hm) as Hb.
  assert (Hpo : 1 <= 2 ^ O <= 2 ^ 31).
  { split; [pose proof (Z.pow_pos_nonneg 2 O); lia|apply Z.pow_le_mono_r; lia]. }
  change (2 ^ 31) with 2147483648 in Hpo. change (2 ^ 1) with 2 in Hm.
  unfold wrap. change (2 ^ 64) with 18446744073709551616.
  rewrite Z.mod_small by nia. exact Hb.
Qed.

Lemma encodeReg_buffer (Bead : Z) (MI : MCInst MCExpr SMLoc) (Buffer Offset : Z) (r : Z * Z) :
  (Z.land Bead 0xF =? DAReg Beads) || (Z.land Bead 0xF =? DA Beads)
  || (Z.land Bead 0xF =? DReg Beads) || (Z.land Bead 0xF =? Reg Beads) = true ->
  encodeReg Beads T Bead MI Buffer Offset = Some r ->
  0 <= Offset < 16 -> 0 <= Buffer < 2 ^ Offset ->
  0 <= r.2 < 2 ^ (Offset + beadBits Beads Bead).
Proof.
  intros HC H HO HB. unfold encodeReg, beadBits in *.
  split_code HC; rewrite HC in *; revert H; code_eqb; cbn [orb mbind option_bind fst snd];
    intros H; bind_inv H; injection H as <-; cbn [fst snd];
    repeat match goal with
    | E : (shl 32 _ _ ≫= _) = Some _ |- _ =>
        let V := fresh "V" in let EV := fresh "EV" in
        destruct (shl 32 _ _) as [V|] eqn:EV in E; cbn [mbind option_bind] in E;
        [injection E as <-; cbn [fst snd] in *|discriminate E]
    | E : Some _ = Some _ |- _ => injection E as <-; cbn [fst snd] in *
    end.
  - match goal with
    | E1 : shl 32 _ _ = Some _, E2 : shl 64 _ _ = Some _ |- _ =>
        pose proof (regPart_bound _ _ _ _ HO HB E1) as Hb1;
        unfold wrap in E2; change (2 ^ 32) with 4294967296 in E2;
        rewrite (Z.mod_small (Offset + 3)) in E2 by lia;
        assert (HO3 : 0 <= Offset + 3 < 32) by lia;
        pose proof (daPart_bound _ _ _ _ HO3 Hb1 E2) as Hb2
    end.
    replace (Offset + 4) with (Offset + 3 + 1) by lia. exact Hb2.
  - assert (HO3 : 0 <= Offset < 32) by lia.
    match goal with
    | E2 : shl 64 _ _ = Some _ |- _ => exact (daPart_bound _ _ _ _ HO3 HB E2)
    end.
  - match goal with
    | E1 : shl 32 _ _ = Some _ |- _ => exact (regPart_bound _ _ _ _ HO HB E1)
    end.
  - match goal with
    | E1 : shl 32 _ _ = Some _ |- _ => exact (regPart_bound _ _ _ _ HO HB E1)
    end.
Qed.

Lemma pow2_mono (a b : Z) : 0 <= a <= b -> 2 ^ a <= 2 ^ b.
Proof. intros H. apply Z.pow_le_mono_r; lia. Qed.

Lemma encodeImm_buffer (ThisByte Bead : Z) (MI : MCInst MCExpr SMLoc) (Buffer Offset : Z)
    (Fixups : list (MCFixup MCExpr MCFixupKind SMLoc))
    (r : Z * Z * list (MCFixup MCExpr MCFixupKind SMLoc)) :
  (Z.land Bead 0xF =? Disp8 Beads) || (Z.land Bead 0xF =? Imm8 Beads)
  || (Z.land Bead 0xF =? Imm16 Beads) || (Z.land Bead 0xF =? Imm32 Beads)
  || (Z.land Bead 0xF =? Imm3 Beads) = true ->
  encodeImm Beads T ThisByte Bead MI Buffer Offset Fixups = Some r ->
  0 <= Offset < 16 -> 0 <= Buffer < 2 ^ Offset ->
  0 <= r.1.2 < 2 ^ (Offset + beadBits Beads Bead).
Proof.
  intros HC H HO HB. unfold encodeImm, beadBits, immLayout in *.
  split_code HC; rewrite HC in *; revert H; code_eqb; cbv iota beta;
    cbn [orb andb mbind option_bind fst snd]; intros H; bind_inv H;
    injection H as <-; cbn [fst snd]; try discriminate;
    repeat match goal with
    | E : EmitConstant _ 16 _ _ (wrap 32 (Offset + _)) = Some _,
      E' : EmitConstant _ 16 _ Buffer Offset = Some ?hi |- _ =>
        pose proof (EmitConstant_written _ _ _ _ _ _ E') as Hw;
        rewrite Hw in E; change (wrap 32 (16 + 0)) with 16 in E;
        unfold wrap in E; change (2 ^ 32) with 4294967296 in E;
        rewrite (Z.mod_small (Offset + 16)) in E by lia;
        apply EmitConstant_bound in E' as [_ Hb1]; [|lia|exact HB];
        apply EmitConstant_bound in E as [_ Hb2]; [|lia|exact Hb1];
        replace (Offset + 32) with (Offset + 16 + 16) by lia; exact Hb2
    | E : EmitConstant _ ?Size _ Buffer Offset = Some _ |- _ =>
        apply EmitConstant_bound in E as [_ Hb1]; [|lia|exact HB];
        split; [lia|];
        eapply Z.lt_le_trans; [exact (proj2 Hb1)|apply pow2_mono; lia]
    end.
Qed.

Lemma flush_buffer (S1 : EmitState (MCExpr:=MCExpr) (MCFixupKind:=MCFixupKind) (SMLoc:=SMLoc)) :
  0 <= Offset S1 < 48 -> 0 <= Buffer S1 < 2 ^ Offset S1 ->
  0 <= ThisByte S1 -> ThisByte S1 + 4 < 2 ^ 32 ->
  0 <= Buffer (flush S1) < 2 ^ Offset (flush S1).
Proof.
  intros HO HB HT HT2. change (2 ^ 32) with 4294967296 in HT2. unfold flush.
  assert (Hk : 0 <= Offset S1 / 16 <= 2) by dm.
  rewrite rotateWords_words;
    rewrite ?Z2Nat.id by lia; change (2 ^ 32) with 4294967296; try lia.
  cbn [Buffer Offset].
  set (n := Offset S1 / 16) in *.
  assert (Hsplit : Offset S1 = 16 * n + Offset S1 mod 16) by (subst n; dm).
  assert (Hr : 0 <= Offset S1 mod 16 < 16) by dm.
  assert (Hp : 0 < 2 ^ (16 * n)) by (apply Z.pow_pos_nonneg; lia).
  split; [apply Z.div_pos; lia|].
  apply Z.div_lt_upper_bound; [exact Hp|].
  rewrite <- Z.pow_add_r by lia. rewrite <- Hsplit. lia.
Qed.

Lemma encodeBead_buffer (MI : MCInst MCExpr SMLoc) (Bead : Z)
    (S S' : EmitState (MCExpr:=MCExpr) (MCFixupKind:=MCFixupKind) (SMLoc:=SMLoc)) :
  encodeBead Beads T MI Bead S = Some S' ->
  (Z.land Bead 0xF ∈ [Bits1 Beads; Bits2 Beads; Bits3 Beads; Bits4 Beads] ->
   Z.shiftr (Z.land Bead 0xF0) 4 < 2 ^ beadBits Beads Bead) ->
  0 <= Offset S < 16 -> 0 <= Buffer S < 2 ^ Offset S ->
  0 <= ThisByte S -> ThisByte S + 4 < 2 ^ 32 ->
  0 <= Buffer S' < 2 ^ Offset S'.
Proof.
  intros H Hfit HO HB HT HT2. unfold encodeBead in H.
  destruct ((Z.land Bead 15 =? 0) && (Z.shiftr Bead 4 =? Ignore Beads)).
  { injection H as <-. exact HB. }
  pose proof (beadBits_range Bead) as Hw.
  match type of H with
  | (?x ≫= _) = Some _ => destruct x as [S1|] eqn:E1; [|discriminate H]
  end.
  cbn [mbind option_bind] in H. injection H as <-.
  assert (HS1 : Offset S1 = Offset S + beadBits Beads Bead /\
                ThisByte S1 = ThisByte S /\
                0 <= Buffer S1 < 2 ^ (Offset S + beadBits Beads Bead)).
  { destruct ((Z.land Bead 15 =? Bits1 Beads) || (Z.land Bead 15 =? Bits2 Beads)
              || (Z.land Bead 15 =? Bits3 Beads) || (Z.land Bead 15 =? Bits4 Beads)) eqn:G1.
    { destruct (encodeBits _ _ _ _) as [r|] eqn:Er; [|discriminate E1].
      assert (Hin : Z.land Bead 15 ∈ [Bits1 Beads; Bits2 Beads; Bits3 Beads; Bits4 Beads]).
      { rewrite !elem_of_cons. pose proof G1 as G. split_code G; auto. }
      pose proof (encodeBits_buffer _ _ _ _ G1 Er (Hfit Hin) HO HB) as Hb.
      apply (encodeBits_written _ _ _ _ G1) in Er.
      cbn [mbind option_bind] in E1. injection E1 as <-. cbn [Offset ThisByte Buffer].
      rewrite Er. unfold wrap. change (2 ^ 32) with 4294967296.
      rewrite Z.mod_small by lia. repeat split; try reflexivity; apply Hb. }
    destruct ((Z.land Bead 15 =? DAReg Beads) || (Z.land Bead 15 =? DA Beads)
              || (Z.land Bead 15 =? DReg Beads) || (Z.land Bead 15 =? Reg Beads)) eqn:G2.
    { destruct (encodeReg _ _ _ _ _ _) as [r|] eqn:Er; [|discriminate E1].
      pose proof (encodeReg_buffer _ _ _ _ _ G2 Er HO HB) as Hb.
      apply (encodeReg_written _ _ _ _ _ G2) in Er.
      cbn [mbind option_bind] in E1. injection E1 as <-. cbn [Offset ThisByte Buffer].
      rewrite Er. unfold wrap. change (2 ^ 32) with 4294967296.
      rewrite Z.mod_small by lia. repeat split; try reflexivity; apply Hb. }
    destruct ((Z.land Bead 15 =? Disp8 Beads) || (Z.land Bead 15 =? Imm8 Beads)
              || (Z.land Bead 15 =? Imm16 Beads) || (Z.land Bead 15 =? Imm32 Beads)
              || (Z.land Bead 15 =? Imm3 Beads)) eqn:G3; [|discriminate E1].
    destruct (encodeImm _ _ _ _ _ _ _ _) as [r|] eqn:Er; [|discriminate E1].
    pose proof (encodeImm_buffer _ _ _ _ _ _ _ G3 Er HO HB) as Hb.
    apply (encodeImm_written _ _ _ _ _ _ _ G3) in Er.
    cbn [mbind option_bind] in E1. injection E1 as <-. cbn [Offset ThisByte Buffer].
    rewrite Er. unfold wrap. change (2 ^ 32) with 4294967296.
    rewrite Z.mod_small by lia. repeat split; try reflexivity; apply Hb. }
  destruct HS1 as (HO1 & HT1 & HB1). rewrite <- HO1 in HB1.
  apply flush_buffer; first [lia | exact HB1].
Qed.

(** X30: when the value of every bead of type [Bits1] to [Bits4] fits
    the width of its type, the bits pending in [Buffer] never reach
    beyond [Offset]: every bead finds the field it writes clear, no two
    beads overlap, and at a word boundary nothing is left in [Buffer]. *)
Theorem encodeBeads_buffer_invariant (MI : MCInst MCExpr SMLoc) (Array : list Z)
    (S S' : EmitState (MCExpr:=MCExpr) (MCFixupKind:=MCFixupKind) (SMLoc:=SMLoc)) :
  Forall (fun Bead =>
            Z.land Bead 0xF ∈ [Bits1 Beads; Bits2 Beads; Bits3 Beads; Bits4 Beads] ->
            Z.shiftr (Z.land Bead 0xF0) 4 < 2 ^ beadBits Beads Bead) (beadsOf Array) ->
  encodeBeads Beads T MI Array S = Some S' ->
  0 <= Offset S < 16 -> 0 <= Buffer S < 2 ^ Offset S ->
  0 <= ThisByte S -> ThisByte S + 4 * Z.of_nat (length Array) < 2 ^ 32 ->
  0 <= Buffer S' < 2 ^ Offset S' /\
  (forall n, Offset S' <= n -> Z.testbit (Buffer S') n = false) /\
  (Offset S' = 0 -> Buffer S' = 0).
Proof.
  intros Hfit H HO HB HT HT2.
  assert (Hb : 0 <= Buffer S' < 2 ^ Offset S' /\ 0 <= Offset S').
  { revert S Hfit H HO HB HT HT2. induction Array as [|Bead Array IH];
      intros S Hfit H HO HB HT HT2; [discriminate H|].
    cbn [encodeBeads beadsOf] in *. cbn [length] in HT2. rewrite Nat2Z.inj_succ in HT2.
    destruct (Bead =? 0).
    - injection H as <-. split; [exact HB|lia].
    - destruct (encodeBead Beads T MI Bead S) as [S1|] eqn:E1; [|discriminate H].
      cbn [mbind option_bind] in H. inversion Hfit as [|? ? Hfit1 Hfit2]; subst.
      destruct (encodeBead_step MI Bead S S1 E1 HO HT ltac:(lia))
        as (t1 & HOS1 & HT1 & HO1 & Hb1 & Hl1 & _).
      pose proof (encodeBead_buffer MI Bead S S1 E1 Hfit1 HO HB HT ltac:(lia)) as HB1.
      apply (IH S1 Hfit2 H HO1 HB1); lia. }
  destruct Hb as [Hb HO']. split; [exact Hb|]. split.
  - intros n Hn. apply (testbit_above (Buffer S') n (Offset S')); [exact Hb|exact Hn].
  - intros Hz. rewrite Hz in Hb. change (2 ^ 0) with 1 in Hb. lia.
Qed.

Lemma take_wordBytes (m k : nat) (V : Z) :
  (m <= k)%nat -> take (2 * m) (wordBytes k V) = wordBytes m V.
Proof.
  revert k V. induction m as [|m IH]; intros k V Hmk; [reflexivity|].
  destruct k as [|k]; [lia|].
  replace (2 * Datatypes.S m)%nat with (Datatypes.S (Datatypes.S (2 * m))) by lia.
  cbn [wordBytes take]. rewrite IH by lia. reflexivity.
Qed.

Lemma writeWord_bytes (k : nat) (Word InstSize : Z) (OS0 : list Z) :
  let m := Nat.min k (Z.to_nat ((InstSize + 15) / 16)) in
  writeWord k Word InstSize OS0 = (InstSize - 16 * Z.of_nat m, OS0 ++ wordBytes m Word).
Proof.
  revert Word InstSize OS0. induction k as [|k IH]; intros Word InstSize OS0 m.
  - subst m. cbn [writeWord Nat.min wordBytes]. rewrite app_nil_r. f_equal. lia.
  - cbn [writeWord]. destruct (Z.ltb_spec 0 InstSize) as [Hpos|Hneg].
    + rewrite IH. cbv zeta.
      assert (Hn : Z.to_nat ((InstSize + 15) / 16)
                   = Datatypes.S (Z.to_nat ((InstSize - 16 + 15) / 16))).
      { rewrite <- Z2Nat.inj_succ by dm. f_equal. dm. }
      subst m. rewrite Hn. cbn [Nat.min wordBytes].
      rewrite write16_bytes, Z.shiftr_div_pow2, <- app_assoc by lia.
      change (2 ^ 16) with 65536. cbn [app]. f_equal. lia.
    + subst m. replace (Z.to_nat ((InstSize + 15) / 16)) with 0%nat by dm.
      rewrite Nat.min_0_r. cbn [wordBytes]. rewrite app_nil_r. f_equal. lia.
Qed.

Lemma writeData_bytes (Data : list Z) (InstSize : Z) (OS0 : list Z) :
  writeData Data InstSize OS0
  = OS0 ++ take (2 * Z.to_nat ((InstSize + 15) / 16)) (flat_map (wordBytes 4) Data).
Proof.
  revert InstSize OS0. induction Data as [|Word Data IH]; intros InstSize OS0.
  - cbn [writeData flat_map]. rewrite take_nil, app_nil_r. reflexivity.
  - cbn [writeData flat_map]. rewrite writeWord_bytes. cbv zeta. rewrite IH, <- app_assoc.
    f_equal. set (n := Z.to_nat ((InstSize + 15) / 16)).
    destruct (Nat.le_gt_cases 4 n) as [Hge|Hlt].
    + rewrite Nat.min_l by lia.
      replace (Z.to_nat ((InstSize - 16 * Z.of_nat 4 + 15) / 16)) with (n - 4)%nat
        by (subst n; change (Z.of_nat 4) with 4; dm).
      rewrite take_app_ge by (rewrite length_wordBytes; lia).
      rewrite length_wordBytes. do 2 f_equal. lia.
    + rewrite Nat.min_r by lia.
      replace (Z.to_nat ((InstSize - 16 * Z.of_nat n + 15) / 16)) with 0%nat
        by (subst n; dm).
      change (2 * 0)%nat with 0%nat. rewrite take_0, app_nil_r.
      rewrite take_app_le by (rewrite length_wordBytes; lia).
      rewrite take_wordBytes by lia. reflexivity.
Qed.

(** X25: an instruction given as an [APInt] is written as its first
    [ceil(BitWidth / 16)] 16-bit words, from the lowest word of the lowest
    64-bit word on, each word high byte first; with the words an [APInt]
    of that width has, these are [2 * ceil(BitWidth / 16)] bytes. *)
Theorem writeData_words (Data : list Z) (BitWidth : Z) (OS0 : list Z) :
  length Data = Z.to_nat ((BitWidth + 63) / 64) ->
  let n := Z.to_nat ((BitWidth + 15) / 16) in
  writeData Data BitWidth OS0 = OS0 ++ take (2 * n) (flat_map (wordBytes 4) Data) /\
  length (writeData Data BitWidth OS0) = (length OS0 + 2 * n)%nat.
Proof.
  intros HL n. rewrite writeData_bytes. fold n. split; [reflexivity|].
  rewrite length_app, length_take. f_equal.
  assert (Hlen : length (flat_map (wordBytes 4) Data) = (8 * length Data)%nat).
  { clear HL. induction Data as [|W D IH]; [reflexivity|].
    cbn [flat_map]. rewrite length_app, length_wordBytes, IH. cbn [length]. lia. }
  rewrite Hlen, HL. subst n. apply Nat.min_l. dm.
Qed.

(** X26: a 32-bit value passed through [swapWord] and then written as a
    32-bit instruction word comes out as its four bytes from the highest
    to the lowest when the host is little-endian; on a big-endian host,
    where [swapWord] changes nothing, the two 16-bit words come out in
    the opposite order. *)
Theorem swapWord_then_write (host : endianness) (v : Z) (OS0 : list Z) :
  0 <= v < 2 ^ 32 ->
  exists w,
    swapWord host 4 v = Some w /\
    writeData [w] 32 OS0
    = OS0 ++ match host with
             | little => bigEndian32 v
             | big => bigEndian32 (v mod 2 ^ 16 * 2 ^ 16 + v / 2 ^ 16)
             end.
Proof.
  intros Hv. rewrite (swapWord_32 host v Hv). eexists. split; [reflexivity|].
  rewrite writeData_bytes. f_equal.
  change (Z.to_nat ((32 + 15) / 16)) with 2%nat.
  cbn [flat_map]. rewrite app_nil_r. rewrite (take_wordBytes 2 4) by lia.
  change (2 ^ 32) with 4294967296 in Hv. change (2 ^ 16) with 65536.
  destruct (bytes_of v Hv) as (b0 & b1 & b2 & b3 & Hb & ->). clear Hv.
  assert (E0 : (b0 + 256 * b1 + 65536 * b2 + 16777216 * b3) mod 65536 = b0 + 256 * b1)
    by (clear - Hb; dm).
  assert (E1 : (b0 + 256 * b1 + 65536 * b2 + 16777216 * b3) / 65536 = b2 + 256 * b3)
    by (clear - Hb; dm).
  assert (E2 : (b0 + 256 * b1 + 65536 * b2 + 16777216 * b3) / 16777216 mod 256 = b3)
    by (clear - Hb; dm).
  assert (E3 : (b0 + 256 * b1 + 65536 * b2 + 16777216 * b3) / 256 mod 256 = b1)
    by (clear - Hb; dm).
  assert (E4 : (b0 + 256 * b1 + 65536 * b2 + 16777216 * b3) mod 256 = b0)
    by (clear - Hb; dm).
  assert (E5 : (b0 + 256 * b1 + 65536 * b2 + 16777216 * b3) / 65536 mod 256 = b2)
    by (clear - Hb; dm).
  assert (F0 : ((b0 + 256 * b1) * 65536 + (b2 + 256 * b3)) / 256 mod 256 = b3)
    by (clear - Hb; dm).
  assert (F1 : ((b0 + 256 * b1) * 65536 + (b2 + 256 * b3)) mod 256 = b2)
    by (clear - Hb; dm).
  assert (F2 : ((b0 + 256 * b1) * 65536 + (b2 + 256 * b3)) / 65536 = b0 + 256 * b1)
    by (clear - Hb; dm).
  assert (F3 : ((b0 + 256 * b1) * 65536 + (b2 + 256 * b3)) / 16777216 mod 256 = b1)
    by (clear - Hb; dm).
  assert (F4 : ((b0 + 256 * b1) * 65536 + (b2 + 256 * b3)) / 65536 mod 256 = b0)
    by (clear - Hb; dm).
  assert (G0 : (b0 + 256 * b1) / 256 mod 256 = b1) by (clear - Hb; dm).
  assert (G1 : (b0 + 256 * b1) mod 256 = b0) by (clear - Hb; dm).
  assert (G2 : (b2 + 256 * b3) / 256 mod 256 = b3) by (clear - Hb; dm).
  assert (G3 : (b2 + 256 * b3) mod 256 = b2) by (clear - Hb; dm).
  destruct host; unfold bigEndian32; cbn [wordBytes].
  - rewrite E0, E1, E3, E4, G2, G3, F0, F1, F3, F4. reflexivity.
  - rewrite E0, E1, E2, E3, E4, F0, F1, F2, G0, G1, G3. reflexivity.
Qed.

(** X27: for a relocatable operand of fewer than 16 bits, [encodePCRelImm]
    leaves [Value] alone and appends one fixup at the other byte of the
    word holding the field; the constant added to the expression is the
    distance of that byte from the byte the PC is taken to point at:
    byte 2 while the field is in the first word, else the first byte of
    the word of the field. *)
Theorem encodePCRelImm_label_offset (host : endianness) (Size : Z) (MI : MCInst MCExpr SMLoc)
    (OpIdx InsertPos : Z) (Value : APInt)
    (Fixups : list (MCFixup MCExpr MCFixupKind SMLoc)) (Expr : MCExpr) :
  0 < Size < 16 ->
  getOperand MI OpIdx = Some (ExprOperand Expr) ->
  0 <= InsertPos < 2 ^ 32 ->
  exists fx,
    encodePCRelImm T host Size MI OpIdx InsertPos Value Fixups
    = Some (Value, Fixups ++ [fx]) /\
    FixupOffset fx
    = (if InsertPos mod 16 <? 8 then InsertPos / 8 + 1 else InsertPos / 8 - 1) /\
    let PC := if InsertPos <? 16 then 2 else 2 * (InsertPos / 16) in
    let c := FixupOffset fx - PC in
    -2 <= c <= 1 /\
    FixupValue fx
    = if c =? 0 then Expr else createAdd T Expr (MCConstantExpr_create T c).
Proof.
  intros HS HOp HP. unfold encodePCRelImm. rewrite HOp. cbn [mbind option_bind].
  rewrite getBytePosition_arith by (try rewrite Z.mod_small; lia).
  cbn [mbind option_bind].
  replace (Size <? 16) with true by (symmetry; apply Z.ltb_lt; lia).
  eexists. split; [reflexivity|]. cbn [FixupOffset FixupValue].
  split; [reflexivity|]. cbv zeta.
  change (2 ^ 32) with 4294967296 in HP.
  set (IB := if InsertPos mod 16 <? 8 then InsertPos / 8 + 1 else InsertPos / 8 - 1).
  destruct (Z.ltb_spec InsertPos 16) as [Hfirst|Hlater].
  - assert (HIB : IB = 0 \/ IB = 1).
    { subst IB. destruct (Z.ltb_spec (InsertPos mod 16) 8); dm. }
    destruct HIB as [-> | ->]; split; try lia; reflexivity.
  - assert (HIB : IB - 2 * (InsertPos / 16) = IB mod 2 /\ 0 <= IB mod 2 < 2).
    { subst IB. destruct (Z.ltb_spec (InsertPos mod 16) 8); dm. }
    destruct HIB as [HIB Hr]. rewrite HIB. split; [lia|].
    assert (Hc : IB mod 2 = 0 \/ IB mod 2 = 1) by lia.
    destruct Hc as [Hc | Hc]; rewrite Hc; reflexivity.
Qed.

End M68kEmission.

Section M68kEmissionExamples.
Local Open Scope Z_scope.

Ltac zc := vm_compute; repeat split; first [reflexivity | discriminate].

Lemma exBeads_distinct : NoDup (0 :: beadCodes exBeads).
Proof.
  unfold beadCodes, exBeads. cbn.
  repeat (apply NoDup_cons; split;
          [rewrite ?not_elem_of_cons; repeat split; try lia; apply not_elem_of_nil|]).
  apply NoDup_nil_2.
Qed.

Lemma flush_emits_words_witness :
  0 <= Offset exEmit < 2 ^ 32
  /\ 0 <= ThisByte exEmit
  /\ ThisByte exEmit + 2 * (Offset exEmit / 16) < 2 ^ 32
  /\ flush exEmit = mkEmit 0 0 6 [0x4E; 0x71; 0x12; 0x34; 0xAB; 0xCD] []
  /\ 0 <= Offset (flush exEmit) < 16
  /\ length (OS (flush exEmit)) = 6%nat.
Proof.
  assert (H1 : 0 <= Offset exEmit < 2 ^ 32) by zc.
  assert (H2 : 0 <= ThisByte exEmit) by zc.
  assert (H3 : ThisByte exEmit + 2 * (Offset exEmit / 16) < 2 ^ 32) by zc.
  split; [exact H1|]. split; [exact H2|]. split; [exact H3|].
  exact (flush_emits_words exEmit H1 H2 H3).
Defined.

Lemma encodeBead_Imm32_big_endian_witness :
  NoDup (0 :: beadCodes exBeads)
  /\ Z.land 0x0C 0xF = Imm32 exBeads
  /\ immOperand exTarget exInst 0x0C = Some (ImmOperand 0x12345678)
  /\ - 2 ^ 31 <= 0x12345678 < 2 ^ 31
  /\ Buffer exEmitStart = 0 /\ Offset exEmitStart = 0
  /\ 0 <= ThisByte exEmitStart /\ ThisByte exEmitStart + 4 < 2 ^ 32
  /\ encodeBead exBeads exTarget exInst 0x0C exEmitStart
     = Some (mkEmit 0 0 6 [0x4E; 0x71; 0x12; 0x34; 0x56; 0x78] []).
Proof.
  split; [exact exBeads_distinct|].
  repeat (split; [first [reflexivity | zc]|]).
  exact (encodeBead_Imm32_big_endian exBeads exTarget exBeads_distinct exInst 0x0C 0x12345678
           exEmitStart eq_refl eq_refl ltac:(lia) eq_refl eq_refl ltac:(zc)
           ltac:(zc)).
Defined.

Lemma exImm16_is_immediate :
  Z.land 0x1B 0xF ∈ [Disp8 exBeads; Imm8 exBeads; Imm16 exBeads; Imm32 exBeads].
Proof. right; right; left. Qed.

Lemma encodeImm_expression_witness :
  NoDup (0 :: beadCodes exBeads)
  /\ Z.land 0x1B 0xF ∈ [Disp8 exBeads; Imm8 exBeads; Imm16 exBeads; Imm32 exBeads]
  /\ immOperand exTarget exInst 0x1B = Some (ExprOperand (ExSymbol 0))
  /\ 0 <= 0 < 16 /\ 0 <= 2 /\ 2 + 1 < 2 ^ 32
  /\ exists fx,
       encodeImm exBeads exTarget 2 0x1B exInst 0xDCBA 0 []
       = Some (beadBits exBeads 0x1B, 0xDCBA, [] ++ [fx]) /\
       FixupOffset fx = (if Z.land 0x1B 0xF =? Disp8 exBeads then 2 + 1 else 2) /\
       FixupLoc fx = getLoc exInst /\
       (FixupValue fx = ExSymbol 0 \/
        exists c, c ∈ [-2; -1; 1] /\
                  FixupValue fx = createAdd exTarget (ExSymbol 0)
                                    (MCConstantExpr_create exTarget c)).
Proof.
  split; [exact exBeads_distinct|]. split; [exact exImm16_is_immediate|].
  split; [reflexivity|]. repeat (split; [lia|]).
  exact (encodeImm_expression exBeads exTarget exBeads_distinct 2 0x1B exInst 0xDCBA 0 []
           (ExSymbol 0) exImm16_is_immediate eq_refl ltac:(lia) ltac:(lia) ltac:(lia)).
Defined.

Lemma exClearBits (n : Z) : 3 <= n < 3 + 3 -> Z.testbit 5 n = false.
Proof. intros Hn. apply (testbit_above 5 n 3); lia. Qed.

Lemma encodeImm_Imm3_alt_witness :
  NoDup (0 :: beadCodes exBeads)
  /\ Z.land 0xAD 0xF = Imm3 exBeads
  /\ beadAlt 0xAD = true
  /\ immOperand exTarget exInst 0xAD = Some (ImmOperand 8)
  /\ 1 <= 8 <= 8 /\ 0 <= 3 /\ 3 + 3 <= 64
  /\ (forall n, 3 <= n < 3 + 3 -> Z.testbit 5 n = false)
  /\ exists Buffer',
       encodeImm exBeads exTarget 2 0xAD exInst 5 3 [] = Some (3, Buffer', []) /\
       let field := Z.land (Z.shiftr Buffer' 3) 7 in
       (if field =? 0 then 8 else field) = 8.
Proof.
  split; [exact exBeads_distinct|].
  repeat (split; [first [reflexivity | lia]|]).
  split; [exact exClearBits|].
  exact (encodeImm_Imm3_alt exBeads exTarget exBeads_distinct 2 0xAD exInst 5 3 8 []
           eq_refl eq_refl eq_refl ltac:(lia) ltac:(lia) ltac:(lia) exClearBits).
Defined.

Lemma encodeInstruction_size_witness :
  NoDup (0 :: beadCodes exBeads)
  /\ getBitWidth (getBinaryCodeForInstr exTarget exInst []).1 = 0
  /\ getMCInstrBeads exTarget (getOpcode exInst) = Some [0xA4; 0xB4; 0xC4; 0xD4; 0x0C; 0]
  /\ 4 * Z.of_nat (length [0xA4; 0xB4; 0xC4; 0xD4; 0x0C; 0]) < 2 ^ 32
  /\ encodeInstruction exBeads exTarget exInst [] []
     = Some ([0xDC; 0xBA; 0x12; 0x34; 0x56; 0x78], [])
  /\ exists tail,
       [0xDC; 0xBA; 0x12; 0x34; 0x56; 0x78] = [] ++ tail /\
       8 * Z.of_nat (length tail)
       = instructionBits exBeads [0xA4; 0xB4; 0xC4; 0xD4; 0x0C; 0] /\
       tail <> [] /\
       Z.of_nat (length tail) mod 2 = 0.
Proof.
  split; [exact exBeads_distinct|].
  repeat (split; [first [reflexivity | zc]|]).
  exact (encodeInstruction_size exBeads exTarget exBeads_distinct exInst []
           [0xDC; 0xBA; 0x12; 0x34; 0x56; 0x78] [] [] [0xA4; 0xB4; 0xC4; 0xD4; 0x0C; 0]
           eq_refl eq_refl ltac:(zc) eq_refl).
Defined.

Lemma writeData_words_witness :
  length [0x56781234DCBA] = Z.to_nat ((48 + 63) / 64)
  /\ writeData [0x56781234DCBA] 48 []
     = [] ++ take (2 * Z.to_nat ((48 + 15) / 16)) (flat_map (wordBytes 4) [0x56781234DCBA])
  /\ length (writeData [0x56781234DCBA] 48 []) = (length ([] : list Z) + 2 * 3)%nat.
Proof.
  split; [reflexivity|].
  exact (writeData_words [0x56781234DCBA] 48 [] eq_refl).
Defined.

Lemma swapWord_then_write_witness :
  0 <= 0x1234ABCD < 2 ^ 32
  /\ exists w,
       swapWord little 4 0x1234ABCD = Some w /\
       writeData [w] 32 [] = [] ++ bigEndian32 0x1234ABCD.
Proof.
  split; [lia|].
  exact (swapWord_then_write little 0x1234ABCD [] ltac:(lia)).
Defined.

Lemma encodePCRelImm_label_offset_witness :
  0 < 8 < 16
  /\ getOperand exInst 1 = Some (ExprOperand (ExSymbol 0))
  /\ 0 <= 8 < 2 ^ 32
  /\ exists fx,
       encodePCRelImm exTarget little 8 exInst 1 8 (mkAPInt 16 [0]) []
       = Some (mkAPInt 16 [0], [] ++ [fx]) /\
       FixupOffset fx = (if 8 mod 16 <? 8 then 8 / 8 + 1 else 8 / 8 - 1) /\
       let PC := if 8 <? 16 then 2 else 2 * (8 / 16) in
       let c := FixupOffset fx - PC in
       -2 <= c <= 1 /\
       FixupValue fx
       = if c =? 0 then ExSymbol 0
         else createAdd exTarget (ExSymbol 0) (MCConstantExpr_create exTarget c).
Proof.
  split; [lia|]. split; [reflexivity|]. split; [lia|].
  exact (encodePCRelImm_label_offset exTarget little 8 exInst 1 8 (mkAPInt 16 [0]) []
           (ExSymbol 0) ltac:(lia) eq_refl ltac:(lia)).
Defined.

Lemma encodeInstruction_fixups_in_range_witness :
  NoDup (0 :: beadCodes exBeads)
  /\ getBitWidth (getBinaryCodeForInstr exTarget exInstReloc []).1 = 0
  /\ getMCInstrBeads exTarget (getOpcode exInstReloc)
     = Some [0xA4; 0xB4; 0xC4; 0xD4; 0x1B; 0]
  /\ 4 * Z.of_nat (length [0xA4; 0xB4; 0xC4; 0xD4; 0x1B; 0]) < 2 ^ 32
  /\ encodeInstruction exBeads exTarget exInstReloc [] []
     = Some ([0xDC; 0xBA; 0; 0], [MCFixup_create 2 (ExSymbol 0) (16, false) tt])
  /\ exists new,
       [MCFixup_create 2 (ExSymbol 0) (16, false) tt]
       = (getBinaryCodeForInstr exTarget exInstReloc []).2 ++ new /\
       Forall (fun fx => FixupLoc fx = getLoc exInstReloc /\
                         0 <= FixupOffset fx
                         < Z.of_nat (length [0xDC; 0xBA; 0; 0]) - Z.of_nat (length ([] : list Z)))
              new.
Proof.
  split; [exact exBeads_distinct|].
  repeat (split; [first [reflexivity | zc]|]).
  exact (encodeInstruction_fixups_in_range exBeads exTarget exBeads_distinct exInstReloc []
           [0xDC; 0xBA; 0; 0] [] [MCFixup_create 2 (ExSymbol 0) (16, false) tt]
           [0xA4; 0xB4; 0xC4; 0xD4; 0x1B; 0] eq_refl eq_refl ltac:(zc) eq_refl).
Defined.

Lemma encodeBead_Imm16_Imm8_word_witness :
  ((16 = 8 /\ Z.land 0x2B 0xF = Imm8 exBeads) \/
   (16 = 16 /\ Z.land 0x2B 0xF = Imm16 exBeads))
  /\ immOperand exTarget exInst 0x2B = Some (ImmOperand 8)
  /\ - 2 ^ (16 - 1) <= 8 < 2 ^ (16 - 1)
  /\ Buffer exEmitStart = 0 /\ Offset exEmitStart = 0
  /\ 0 <= ThisByte exEmitStart /\ ThisByte exEmitStart + 2 < 2 ^ 32
  /\ encodeBead exBeads exTarget exInst 0x2B exEmitStart
     = Some (mkEmit 0 0 4 [0x4E; 0x71; 0; 8] []).
Proof.
  assert (H1 : (16 = 8 /\ Z.land 0x2B 0xF = Imm8 exBeads) \/
               (16 = 16 /\ Z.land 0x2B 0xF = Imm16 exBeads))
    by (right; split; reflexivity).
  split; [exact H1|].
  repeat (split; [first [reflexivity | zc]|]).
  exact (encodeBead_Imm16_Imm8_word exBeads exTarget exBeads_distinct exInst 0x2B 16 8
           exEmitStart H1 eq_refl ltac:(zc) eq_refl eq_refl ltac:(zc) ltac:(zc)).
Defined.

Lemma exBits_fit :
  Forall (fun Bead =>
            Z.land Bead 0xF ∈ [Bits1 exBeads; Bits2 exBeads; Bits3 exBeads; Bits4 exBeads] ->
            Z.shiftr (Z.land Bead 0xF0) 4 < 2 ^ beadBits exBeads Bead)
         (beadsOf [0xA4; 0xB4; 0xC4; 0xD4; 0x0C; 0]).
Proof.
  cbn [beadsOf Z.eqb].
  repeat (apply List.Forall_cons; [intros Hin|]); [..|apply List.Forall_nil].
  1-4: reflexivity.
  exfalso. rewrite !elem_of_cons, elem_of_nil in Hin.
  destruct Hin as [H | [H | [H | [H | []]]]]; discriminate H.
Qed.

Lemma encodeBeads_buffer_invariant_witness :
  NoDup (0 :: beadCodes exBeads)
  /\ Forall (fun Bead =>
               Z.land Bead 0xF ∈ [Bits1 exBeads; Bits2 exBeads; Bits3 exBeads; Bits4 exBeads] ->
               Z.shiftr (Z.land Bead 0xF0) 4 < 2 ^ beadBits exBeads Bead)
            (beadsOf [0xA4; 0xB4; 0xC4; 0xD4; 0x0C; 0])
  /\ encodeBeads exBeads exTarget exInst [0xA4; 0xB4; 0xC4; 0xD4; 0x0C; 0] exEmitEmpty
     = Some (mkEmit 0 0 6 [0xDC; 0xBA; 0x12; 0x34; 0x56; 0x78] [])
  /\ 0 <= Offset exEmitEmpty < 16
  /\ 0 <= Buffer exEmitEmpty < 2 ^ Offset exEmitEmpty
  /\ 0 <= ThisByte exEmitEmpty
  /\ ThisByte exEmitEmpty + 4 * Z.of_nat (length [0xA4; 0xB4; 0xC4; 0xD4; 0x0C; 0]) < 2 ^ 32
  /\ 0 <= 0 < 2 ^ 0
  /\ (forall n, 0 <= n -> Z.testbit 0 n = false)
  /\ (0 = 0 -> 0 = 0).
Proof.
  split; [exact exBeads_distinct|]. split; [exact exBits_fit|].
  do 5 (split; [first [reflexivity | zc]|]).
  exact (encodeBeads_buffer_invariant exBeads exTarget exBeads_distinct exInst
           [0xA4; 0xB4; 0xC4; 0xD4; 0x0C; 0] exEmitEmpty
           (mkEmit 0 0 6 [0xDC; 0xBA; 0x12; 0x34; 0x56; 0x78] [])
           exBits_fit eq_refl ltac:(zc) ltac:(zc) ltac:(zc) ltac:(zc)).
Defined.

End M68kEmissionExamples.

